(** * audiobook-repack: a shallow embedding of [main.go]

    The program walks each source directory, keeps the files whose relative
    path matches one of the glob patterns, gives every kept file a flat
    archive name, sorts the records of a directory with [naturalLess] and
    appends them to one zip archive.

    Go strings are byte sequences: they are modelled by [string], whose
    characters are the 256 byte values.  Go [int] values are modelled by [Z].
    The functions of the Go standard library that [main.go] calls are
    modelled in modules named after their packages, for a Unix host
    ([filepath.Separator] is the slash) with a 64-bit [int], as they are in
    the Go releases that have the package [slices] that [main.go] imports
    (Go 1.21 and later).

    The calls of [log.Printf] and what the progress bars draw do not change
    what is written to the archive and are left out; the wait for the bar
    of a file is modelled, for [copyFileTo] returns only when that bar is
    complete.  The file system, the opening of files and the zip writer are
    answers of a [world]; what the program does to them is recorded in a
    [session]. *)

From Stdlib Require Import String Ascii ZArith List Lia Bool Arith Permutation.
Import ListNotations.

Open Scope string_scope.
Open Scope Z_scope.

(** ** Byte strings *)

(** The value of a byte, as Go's [s[i]] converted to an integer. *)
Definition byteVal (c : ascii) : Z := Z.of_N (N_of_ascii c).

(** [len(s)]. *)
Definition len (s : string) : Z := Z.of_nat (String.length s).

(** [s[n:]] for [0 <= n <= len(s)]. *)
Fixpoint drop (n : nat) (s : string) : string :=
  match n, s with
  | O, _ => s
  | S n', String _ t => drop n' t
  | S _, EmptyString => EmptyString
  end.

(** [s[:n]] for [0 <= n <= len(s)]. *)
Fixpoint take (n : nat) (s : string) : string :=
  match n, s with
  | O, _ => EmptyString
  | S n', String c t => String c (take n' t)
  | S _, EmptyString => EmptyString
  end.

(** [s[i]], when [i] is in range. *)
Definition byteAt (s : string) (i : nat) : option ascii := String.get i s.

Definition sliceFrom (s : string) (i : Z) : string := drop (Z.to_nat i) s.
Definition sliceTo (s : string) (i : Z) : string := take (Z.to_nat i) s.

(** What a call of a Go function does: it returns a value, it panics, or
    it [Blocks]: it waits for ever for an event that does not come.
    [OutOfFuel] is not a behaviour of the program: it is what a loop of the
    model answers when the rounds it was given do not suffice. *)
Inductive outcome (A : Type) : Type :=
| Returns (a : A)
| Panics (msg : string)
| OutOfFuel
| Blocks.
Arguments Returns {A} a.
Arguments Panics {A} msg.
Arguments OutOfFuel {A}.
Arguments Blocks {A}.

Definition bind {A B : Type} (m : outcome A) (k : A -> outcome B) : outcome B :=
  match m with
  | Returns a => k a
  | Panics msg => Panics msg
  | OutOfFuel => OutOfFuel
  | Blocks => Blocks
  end.

Notation "x <- m ;; k" := (bind m (fun x => k))
  (at level 61, m at next level, right associativity).

(** ** Package unicode/utf8 *)
Module utf8.

Definition RuneError : Z := 0xFFFD.

(** The table [first] of the package, read as: the length of the sequence a
    lead byte announces and the range accepted for the second byte.  ASCII
    bytes and invalid lead bytes have no entry. *)
Definition first (b0 : Z) : option (nat * Z * Z) :=
  if (0xC2 <=? b0) && (b0 <=? 0xDF) then Some (2%nat, 0x80, 0xBF)
  else if b0 =? 0xE0 then Some (3%nat, 0xA0, 0xBF)
  else if b0 =? 0xED then Some (3%nat, 0x80, 0x9F)
  else if (0xE1 <=? b0) && (b0 <=? 0xEF) then Some (3%nat, 0x80, 0xBF)
  else if b0 =? 0xF0 then Some (4%nat, 0x90, 0xBF)
  else if b0 =? 0xF4 then Some (4%nat, 0x80, 0x8F)
  else if (0xF1 <=? b0) && (b0 <=? 0xF3) then Some (4%nat, 0x80, 0xBF)
  else None.

(** A continuation byte: between [locb] and [hicb]. *)
Definition isCont (b : Z) : bool := (0x80 <=? b) && (b <=? 0xBF).

(** [utf8.DecodeRuneInString]: the first rune of [s] and its width in
    bytes; [(RuneError, 0)] on the empty string and [(RuneError, 1)] on an
    invalid encoding. *)
Definition DecodeRuneInString (s : string) : Z * nat :=
  match s with
  | EmptyString => (RuneError, 0%nat)
  | String c0 t0 =>
    let s0 := byteVal c0 in
    if s0 <? 0x80 then (s0, 1%nat)
    else
      match first s0 with
      | None => (RuneError, 1%nat)
      | Some (sz, lo, hi) =>
        if (String.length s <? sz)%nat then (RuneError, 1%nat)
        else
          match t0 with
          | EmptyString => (RuneError, 1%nat)
          | String c1 t1 =>
            let s1 := byteVal c1 in
            if (s1 <? lo) || (hi <? s1) then (RuneError, 1%nat)
            else if (sz <=? 2)%nat then
              (Z.lor (Z.shiftl (Z.land s0 0x1F) 6) (Z.land s1 0x3F), 2%nat)
            else
              match t1 with
              | EmptyString => (RuneError, 1%nat)
              | String c2 t2 =>
                let s2 := byteVal c2 in
                if negb (isCont s2) then (RuneError, 1%nat)
                else if (sz <=? 3)%nat then
                  (Z.lor (Z.lor (Z.shiftl (Z.land s0 0x0F) 12)
                                (Z.shiftl (Z.land s1 0x3F) 6))
                         (Z.land s2 0x3F), 3%nat)
                else
                  match t2 with
                  | EmptyString => (RuneError, 1%nat)
                  | String c3 _ =>
                    let s3 := byteVal c3 in
                    if negb (isCont s3) then (RuneError, 1%nat)
                    else
                      (Z.lor (Z.lor (Z.lor (Z.shiftl (Z.land s0 0x07) 18)
                                           (Z.shiftl (Z.land s1 0x3F) 12))
                                    (Z.shiftl (Z.land s2 0x3F) 6))
                             (Z.land s3 0x3F), 4%nat)
                  end
              end
          end
      end
  end.

End utf8.

(** ** Package unicode *)
Module unicode.
Section Digit.
(** The range table [unicode.Digit] above Latin-1 is data of the Go
    release the program is built with; it is taken as a parameter. *)
Variable digitTable : Z -> bool.

Definition MaxLatin1 : Z := 0xFF.

(** [unicode.IsDigit]. *)
Definition IsDigit (r : Z) : bool :=
  if r <=? MaxLatin1 then (0x30 <=? r) && (r <=? 0x39)
  else digitTable r.
End Digit.
End unicode.

(** ** Package strings *)
Module strings.

(** The loop [for i, r := range s] of [indexFunc]: [i] is the byte offset
    of the rune being looked at.  Every rune takes at least one byte, so
    [String.length s] rounds are enough for [s]. *)
Fixpoint indexFunc (fuel : nat) (f : Z -> bool) (i : Z) (s : string) : Z :=
  match fuel with
  | O => -1
  | S fuel' =>
    match s with
    | EmptyString => -1
    | String _ _ =>
      let '(r, n) := utf8.DecodeRuneInString s in
      if f r then i else indexFunc fuel' f (i + Z.of_nat n) (drop n s)
    end
  end.

(** [strings.IndexFunc]: the byte index of the first rune satisfying [f],
    or [-1]. *)
Definition IndexFunc (s : string) (f : Z -> bool) : Z :=
  indexFunc (String.length s) f 0 s.

(** [strings.Contains(s, string(c))] for a single byte [c]. *)
Fixpoint ContainsByte (s : string) (c : ascii) : bool :=
  match s with
  | EmptyString => false
  | String d t => Ascii.eqb d c || ContainsByte t c
  end.

(** [strings.NewReplacer(string(old), new).Replace] for a single byte
    [old]: every occurrence of the byte is replaced. *)
Fixpoint ReplaceByte (old : ascii) (new : string) (s : string) : string :=
  match s with
  | EmptyString => EmptyString
  | String c t =>
    if Ascii.eqb c old then new ++ ReplaceByte old new t
    else String c (ReplaceByte old new t)
  end.

End strings.

(** ** Package strconv *)
Module strconv.

Inductive NumError := ErrSyntax | ErrRange.

Definition intSize : Z := 64.
Definition maxInt : Z := 2 ^ (intSize - 1) - 1.
Definition minInt : Z := - 2 ^ (intSize - 1).

Definition maxUint64 : Z := 2 ^ 64 - 1.

(** The digit loop of [ParseUint(s, 10, 64)]: [n] is the value read so
    far.  A byte that is not an ASCII digit is a syntax error; a value
    above [maxUint64] is a range error, reported where it arises. *)
Fixpoint parseDigits (n : Z) (s : string) : Z + NumError :=
  match s with
  | EmptyString => inl n
  | String c t =>
    let d := byteVal c - 0x30 in
    if (0 <=? d) && (d <=? 9) then
      if maxUint64 <? n * 10 + d then inr ErrRange
      else parseDigits (n * 10 + d) t
    else inr ErrSyntax
  end.

(** [strconv.Atoi], that is [ParseInt(s, 10, 0)] converted to [int]: an
    optional sign, then one or more ASCII digits; a value that does not
    fit [int] is a range error. *)
Definition Atoi (s : string) : Z + NumError :=
  match s with
  | EmptyString => inr ErrSyntax
  | String c t =>
    let neg := Ascii.eqb c "-" in
    let body := if neg || Ascii.eqb c "+" then t else s in
    match body with
    | EmptyString => inr ErrSyntax
    | String _ _ =>
      match parseDigits 0 body with
      | inr e => inr e
      | inl un =>
        let n := if neg then - un else un in
        if (minInt <=? n) && (n <=? maxInt) then inl n else inr ErrRange
      end
    end
  end.

End strconv.

(** ** The natural comparator *)
Section NaturalOrder.

Variable digitTable : Z -> bool.

Definition IsDigit : Z -> bool := unicode.IsDigit digitTable.

(** [isNonDigit]. *)
Definition isNonDigit (ch : Z) : bool := negb (IsDigit ch).

(** The message of the two [panic] calls of [naturalLess]; both print the
    digit run of [strA]. *)
Definition cantConvert (run : string) : string :=
  "Can't convert " ++ run ++ " to a number".

(** The body of the [for] loop of [naturalLess], once per unit of [fuel]. *)
Fixpoint naturalLessLoop (fuel : nat) (strA strB : string) : outcome bool :=
  match fuel with
  | O => OutOfFuel
  | S fuel' =>
    (* get chars up to 1st digit *)
    let posA := strings.IndexFunc strA IsDigit in
    let posB := strings.IndexFunc strB IsDigit in
    if posA =? -1 then
      if posB =? -1 then Returns (String.ltb strA strB)
      else Returns false
    else if posB =? -1 then Returns true
    else
      let subA := sliceTo strA posA in
      let subB := sliceTo strB posB in
      if negb (String.eqb subA subB) then Returns (String.ltb subA subB)
      else
        let strA := sliceFrom strA posA in
        let strB := sliceFrom strB posB in
        (* get chars up to 1st non-digit *)
        let posA := strings.IndexFunc strA isNonDigit in
        let posB := strings.IndexFunc strB isNonDigit in
        let posA := if posA =? -1 then len strA else posA in
        let posB := if posB =? -1 then len strB else posB in
        (* grab numeric part of each *)
        match strconv.Atoi (sliceTo strA posA) with
        | inr _ => Panics (cantConvert (sliceTo strA posA))
        | inl valA =>
          match strconv.Atoi (sliceTo strB posB) with
          | inr _ => Panics (cantConvert (sliceTo strA posA))
          | inl valB =>
            if negb (valA =? valB) then Returns (valA <? valB)
            else if negb (posA =? posB) then Returns (posA <? posB)
            else if (len strA <=? posA) || (len strB <=? posB) then
              Returns true
            else
              naturalLessLoop fuel' (sliceFrom strA posA) (sliceFrom strB posB)
          end
        end
  end.

(** [naturalLess]: every round of the loop removes at least one byte of
    [strA] before it goes round again, so [String.length strA + 1] rounds
    are enough. *)
Definition naturalLess (strA strB : string) : outcome bool :=
  naturalLessLoop (S (String.length strA)) strA strB.

End NaturalOrder.

(** ** Errors *)

(** An error reported by the operating system or by the zip writer; the
    program only passes such errors on. *)
Inductive syserror : Type := Errno (code : Z).

(** The format strings of the [fmt.Errorf] calls of [main.go]. *)
Inductive context : Type :=
| WalkingDir                        (* "walking dir: %w" *)
| SearchingFiles                    (* "searching files: %w" *)
| InDir (dir : string)              (* "dir %q: %w" *)
| CreatingZipFileRecord             (* "creating zip file record: %w" *)
| WritingFileToArchive              (* "writing file to archive: %w" *)
| UnableToOpenFile (filename : string)   (* "unable to open file %q: %w" *)
| UnableToWriteFile (filename : string). (* "unable to write file %q: %w" *)

(** The error values the program meets.  [Errorf c e] is [fmt.Errorf] with
    the format [c] and the error [e] as the operand of [%w]; [ErrorfNil c]
    is the same call with a [nil] operand, whose result is an error that
    wraps nothing (its text ends in [%!w(<nil>)]). *)
Inductive error : Type :=
| ErrBadPattern                     (* filepath.ErrBadPattern *)
| SkipDir                           (* fs.SkipDir *)
| SkipAll                           (* fs.SkipAll *)
| errNoFilesFound                   (* errors.New("no files found") *)
| SysError (e : syserror)
| Errorf (c : context) (e : error)
| ErrorfNil (c : context).

(** A Go result pair [(value, error)]. *)
Inductive result (A : Type) : Type :=
| Ok (a : A)
| Err (e : error).
Arguments Ok {A} a.
Arguments Err {A} e.

Definition isErr {A : Type} (r : result A) : bool :=
  match r with Ok _ => false | Err _ => true end.

(** [errors.Unwrap], followed to the end of the chain. *)
Fixpoint rootCause (e : error) : error :=
  match e with
  | Errorf _ e' => rootCause e'
  | _ => e
  end.

(** The formats met from the outside of an error to its root. *)
Fixpoint contexts (e : error) : list context :=
  match e with
  | Errorf c e' => c :: contexts e'
  | ErrorfNil c => [c]
  | _ => []
  end.

Definition isEmpty (s : string) : bool :=
  match s with EmptyString => true | String _ _ => false end.

(** ** Package path/filepath (Unix) *)
Module filepath.

Definition Separator : ascii := "/".

Definition isSep (c : ascii) : bool := Ascii.eqb c Separator.

(** *** Match *)

(** The scanning loop of [scanChunk], after the leading stars: the chunk
    up to the first star outside a bracket, and what follows. *)
Fixpoint scanLoop (inrange : bool) (pattern : string) : string * string :=
  match pattern with
  | EmptyString => (EmptyString, EmptyString)
  | String c t =>
    if Ascii.eqb c "\" then
      match t with
      | String c' t' =>
        let '(chunk, rest) := scanLoop inrange t' in
        (String c (String c' chunk), rest)
      | EmptyString => (String c EmptyString, EmptyString)
      end
    else if Ascii.eqb c "[" then
      let '(chunk, rest) := scanLoop true t in (String c chunk, rest)
    else if Ascii.eqb c "]" then
      let '(chunk, rest) := scanLoop false t in (String c chunk, rest)
    else if Ascii.eqb c "*" && negb inrange then (EmptyString, pattern)
    else
      let '(chunk, rest) := scanLoop inrange t in (String c chunk, rest)
  end.

Fixpoint skipStars (pattern : string) : bool * string :=
  match pattern with
  | String c t =>
    if Ascii.eqb c "*" then (true, snd (skipStars t)) else (false, pattern)
  | EmptyString => (false, pattern)
  end.

(** [scanChunk]: [(star, chunk, rest)]. *)
Definition scanChunk (pattern : string) : bool * string * string :=
  let '(star, pattern) := skipStars pattern in
  let '(chunk, rest) := scanLoop false pattern in
  (star, chunk, rest).

(** [getEsc]: the possibly escaped rune at the start of a character class
    and the rest of the chunk. *)
Definition getEsc (chunk : string) : result (Z * string) :=
  match chunk with
  | EmptyString => Err ErrBadPattern
  | String c t =>
    if Ascii.eqb c "-" || Ascii.eqb c "]" then Err ErrBadPattern
    else
      let chunk := if Ascii.eqb c "\" then t else chunk in
      if isEmpty chunk then Err ErrBadPattern
      else
        let '(r, n) := utf8.DecodeRuneInString chunk in
        if (r =? utf8.RuneError) && (n =? 1)%nat then Err ErrBadPattern
        else
          let nchunk := drop n chunk in
          if isEmpty nchunk then Err ErrBadPattern else Ok (r, nchunk)
  end.

(** The loop "parse all ranges" of [matchChunk] for the rune [r]: whether a
    range held [r], and the chunk after the closing bracket.  Every round
    takes at least one byte of the chunk, and a round on the empty chunk
    fails in [getEsc], which is the answer for no fuel. *)
Fixpoint parseRanges (fuel : nat) (r : Z) (chunk : string)
         (matched : bool) (nrange : nat) : result (bool * string) :=
  match fuel with
  | O => Err ErrBadPattern
  | S fuel' =>
    match chunk with
    | String c t =>
      if Ascii.eqb c "]" && (0 <? nrange)%nat then Ok (matched, t)
      else
        match getEsc chunk with
        | Err e => Err e
        | Ok (lo, chunk1) =>
          match chunk1 with
          | String c1 t1 =>
            if Ascii.eqb c1 "-" then
              match getEsc t1 with
              | Err e => Err e
              | Ok (hi, chunk2) =>
                parseRanges fuel' r chunk2
                  (matched || ((lo <=? r) && (r <=? hi))) (S nrange)
              end
            else
              parseRanges fuel' r chunk1
                (matched || ((lo <=? r) && (r <=? lo))) (S nrange)
          | EmptyString => Err ErrBadPattern
          end
        end
    | EmptyString => Err ErrBadPattern
    end
  end.

(** The loop of [matchChunk]: [Ok (Some rest)] when the chunk matches the
    beginning of [s], [Ok None] when it does not; after the match has
    [failed] the loop goes on, checking that the chunk is well formed.
    Every round takes at least one byte of the chunk. *)
Fixpoint matchChunkLoop (fuel : nat) (chunk s : string) (failed : bool)
  : result (option string) :=
  match fuel, chunk with
  | O, _ | _, EmptyString => Ok (if failed then None else Some s)
  | S fuel', String c0 ctail =>
    let failed := failed || isEmpty s in
    if Ascii.eqb c0 "[" then
      (* character class *)
      let '(r, s) :=
        if failed then (0, s)
        else let '(r, n) := utf8.DecodeRuneInString s in (r, drop n s) in
      (* possibly negated *)
      let '(negated, chunk) :=
        match ctail with
        | String c1 t1 => if Ascii.eqb c1 "^" then (true, t1) else (false, ctail)
        | EmptyString => (false, ctail)
        end in
      match parseRanges (S (String.length chunk)) r chunk false 0 with
      | Err e => Err e
      | Ok (matched, chunk) =>
        matchChunkLoop fuel' chunk s (failed || Bool.eqb matched negated)
      end
    else if Ascii.eqb c0 "?" then
      match failed, s with
      | false, String s0 _ =>
        let '(_, n) := utf8.DecodeRuneInString s in
        matchChunkLoop fuel' ctail (drop n s) (isSep s0)
      | _, _ => matchChunkLoop fuel' ctail s failed
      end
    else
      let chunk := if Ascii.eqb c0 "\" then ctail else chunk in
      match chunk with
      | EmptyString => Err ErrBadPattern
      | String c1 ctail1 =>
        match failed, s with
        | false, String s0 stail =>
          matchChunkLoop fuel' ctail1 stail (negb (Ascii.eqb c1 s0))
        | _, _ => matchChunkLoop fuel' ctail1 s failed
        end
      end
  end.

(** [matchChunk]. *)
Definition matchChunk (chunk s : string) : result (option string) :=
  matchChunkLoop (String.length chunk) chunk s false.

(** The loop "look for match skipping i+1 bytes" of [Match]:
    [name] is what is left from index [i] on; [last] says that the
    pattern has no chunk left. *)
Fixpoint skipLoop (chunk : string) (last : bool) (name : string)
  : result (option string) :=
  match name with
  | EmptyString => Ok None
  | String c t =>
    if isSep c then Ok None
    else
      match matchChunk chunk t with
      | Ok (Some t') =>
        if last && negb (isEmpty t') then skipLoop chunk last t
        else Ok (Some t')
      | Err e => Err e
      | Ok None => skipLoop chunk last t
      end
  end.

(** The loop [Pattern] of [Match].  Every round takes at least one byte of
    the pattern. *)
Fixpoint MatchLoop (fuel : nat) (pattern name : string) : result bool :=
  match fuel with
  | O => Ok (isEmpty name)
  | S fuel' =>
    if isEmpty pattern then Ok (isEmpty name)
    else
      let '(star, chunk, pattern) := scanChunk pattern in
      if star && isEmpty chunk then
        (* Trailing * matches rest of string unless it has a /. *)
        Ok (negb (strings.ContainsByte name Separator))
      else
        (* Look for match skipping i+1 bytes; when there is none, or no
           star, [return false, nil]: what is left of the pattern is not
           looked at. *)
        let skipping :=
          if star then
            match skipLoop chunk (isEmpty pattern) name with
            | Err e => Err e
            | Ok (Some t') => MatchLoop fuel' pattern t'
            | Ok None => Ok false
            end
          else Ok false in
        (* Look for match at current position. *)
        match matchChunk chunk name with
        | Err e => Err e
        | Ok (Some t) =>
          if isEmpty t || negb (isEmpty pattern) then MatchLoop fuel' pattern t
          else skipping
        | Ok None => skipping
        end
  end.

(** [filepath.Match]. *)
Definition Match (pattern name : string) : result bool :=
  MatchLoop (String.length pattern) pattern name.

(** *** Base, Clean, Join *)

Fixpoint stripTrailingSeparators (path : string) : string :=
  match path with
  | EmptyString => EmptyString
  | String c t =>
    let t' := stripTrailingSeparators t in
    if isEmpty t' && isSep c then EmptyString else String c t'
  end.

(** What follows the last separator of [path]. *)
Fixpoint lastElement (path : string) : string :=
  match path with
  | EmptyString => EmptyString
  | String c t =>
    if strings.ContainsByte t Separator then lastElement t
    else if isSep c then t else path
  end.

(** [filepath.Base]. *)
Definition Base (path : string) : string :=
  if isEmpty path then "."
  else
    (* Strip trailing slashes. *)
    let path := stripTrailingSeparators path in
    (* Find the last element *)
    let path := lastElement path in
    (* If empty now, it had only slashes. *)
    if isEmpty path then String Separator EmptyString else path.

Definition sepAt (s : string) (i : nat) : bool :=
  match byteAt s i with Some c => isSep c | None => false end.

(** The loop [for out.w > dotdot && !os.IsPathSeparator(out.index(out.w))]
    of [Clean], from the write index [w]. *)
Fixpoint backtrack (w dotdot : nat) (out : string) : nat :=
  match w with
  | O => O
  | S w' =>
    if (dotdot <? w)%nat && negb (sepAt out w) then backtrack w' dotdot out
    else w
  end.

(** A path element and what follows it. *)
Fixpoint splitElement (path : string) : string * string :=
  match path with
  | EmptyString => (EmptyString, EmptyString)
  | String c t =>
    if isSep c then (EmptyString, path)
    else let '(e, rest) := splitElement t in (String c e, rest)
  end.

Definition endsElement (s : string) : bool :=
  match s with
  | EmptyString => true
  | String c _ => isSep c
  end.

(** The main loop of [Clean]: [path] is what is still to be read, [out]
    what was written so far, [dotdot] the index in [out] where [..] must
    stop.  Every round reads at least one byte. *)
Fixpoint cleanLoop (fuel : nat) (rooted : bool) (path out : string)
         (dotdot : nat) : string :=
  match fuel, path with
  | O, _ | _, EmptyString => out
  | S fuel', String c t =>
    if isSep c then
      (* empty path element *)
      cleanLoop fuel' rooted t out dotdot
    else if Ascii.eqb c "." && endsElement t then
      (* . element *)
      cleanLoop fuel' rooted t out dotdot
    else if Ascii.eqb c "." &&
            match t with
            | String c' t' => Ascii.eqb c' "." && endsElement t'
            | EmptyString => false
            end then
      (* .. element: remove to last separator *)
      let rest := drop 1 t in
      let w := String.length out in
      if (dotdot <? w)%nat then
        (* can backtrack *)
        cleanLoop fuel' rooted rest
          (take (backtrack (w - 1) dotdot out) out) dotdot
      else if negb rooted then
        (* cannot backtrack, but not rooted, so append .. element. *)
        let out := if (0 <? w)%nat then out ++ String Separator ".." else out ++ ".." in
        cleanLoop fuel' rooted rest out (String.length out)
      else cleanLoop fuel' rooted rest out dotdot
    else
      (* real path element. add slash if needed *)
      let w := String.length out in
      let out :=
        if (rooted && negb (w =? 1)%nat) || (negb rooted && negb (w =? 0)%nat)
        then out ++ String Separator EmptyString else out in
      (* copy element *)
      let '(e, rest) := splitElement path in
      cleanLoop fuel' rooted rest (out ++ e) dotdot
  end.

(** [filepath.Clean]. *)
Definition Clean (path : string) : string :=
  match path with
  | EmptyString => "."
  | String c t =>
    let rooted := isSep c in
    let out :=
      if rooted
      then cleanLoop (String.length t) true t (String Separator EmptyString) 1
      else cleanLoop (String.length path) false path EmptyString 0 in
    (* Turn empty string into "." *)
    if isEmpty out then "." else out
  end.

(** [strings.Join(elem, string(Separator))]. *)
Fixpoint joinWithSeparator (elem : list string) : string :=
  match elem with
  | [] => EmptyString
  | [e] => e
  | e :: rest => e ++ String Separator (joinWithSeparator rest)
  end.

(** [filepath.Join]: the elements from the first non-empty one on, joined
    and cleaned. *)
Fixpoint Join (elem : list string) : string :=
  match elem with
  | [] => EmptyString
  | e :: rest =>
    if isEmpty e then Join rest else Clean (joinWithSeparator elem)
  end.

End filepath.

(** ** Package io/fs *)
Module fs.

(** What the callback of [WalkDir] may ask of a [fs.DirEntry]. *)
Record DirEntry : Type := { Name : string; IsDir : bool }.

(** A file tree as [os.DirFS] shows it to [WalkDir].  [File] stands for
    every entry that is not a directory (regular files, and also symbolic
    links and devices: [WalkDir] does not follow links).  A directory
    carries what [ReadDir] returns for it: the entries read, in the order
    read, and the error that ended the reading, if any. *)
#[warnings="-register-all"]
Inductive node : Type :=
| File
| Dir (entries : list (string * node)) (readErr : option syserror).

(** The file system [os.DirFS(dir)]: what [Stat(fsys, ".")] answers. *)
Inductive FS : Type :=
| Root (n : node)
| NoRoot (e : syserror).

Definition isDir (n : node) : bool :=
  match n with File => false | Dir _ _ => true end.

(** [fs.WalkDirFunc], with the variables the closure updates passed as a
    state of type [S]: path, entry ([None] for Go's [nil]), the error
    handed in, the state; it answers the new state and the error
    returned. *)
Definition WalkDirFunc (S : Type) : Type :=
  string -> option DirEntry -> option error -> S -> S * option error.

Definition isSkipDir (e : error) : bool :=
  match e with SkipDir => true | _ => false end.

Definition isSkipAll (e : error) : bool :=
  match e with SkipAll => true | _ => false end.

Section Walk.
Context {S : Type}.
Variable walkDirFn : WalkDirFunc S.

(** [walkDir]: [name] is the path of the entry [dname], [n] its node. *)
Fixpoint walkDir (name dname : string) (n : node) (st : S)
  : S * option error :=
  let d := {| Name := dname; IsDir := isDir n |} in
  match walkDirFn name (Some d) None st with
  | (st, Some err) =>
    (* Successfully skipped directory. *)
    (st, if isSkipDir err && IsDir d then None else Some err)
  | (st, None) =>
    match n with
    | File => (st, None)
    | Dir dirs readErr =>
      let loop :=
        fix loop (dirs : list (string * node)) (st : S) : S * option error :=
          match dirs with
          | [] => (st, None)
          | (name1, n1) :: dirs' =>
            match walkDir (filepath.Join [name; name1]) name1 n1 st with
            | (st, Some err) =>
              if isSkipDir err then (st, None) else (st, Some err)
            | (st, None) => loop dirs' st
            end
          end in
      match readErr with
      | Some e =>
        (* Second call, to report ReadDir error. *)
        match walkDirFn name (Some d) (Some (SysError e)) st with
        | (st, Some err) =>
          (st, if isSkipDir err && IsDir d then None else Some err)
        | (st, None) => loop dirs st
        end
      | None => loop dirs st
      end
    end
  end.

(** [fs.WalkDir(fsys, root, fn)]. *)
Definition WalkDir (fsys : FS) (root : string) (st : S) : S * option error :=
  let '(st, err) :=
    match fsys with
    | NoRoot e => walkDirFn root None (Some (SysError e)) st
    | Root n => walkDir root root n st
    end in
  match err with
  | Some e => (st, if isSkipDir e || isSkipAll e then None else Some e)
  | None => (st, None)
  end.
End Walk.

End fs.

(** ** Package slices: the stable sort *)
Module slices.
Section Sort.
Context {E : Type}.

(** The comparison function may panic. *)
Variable cmp : E -> E -> outcome Z.

Definition indexOutOfRange : string := "index out of range".

(** [data[i]]. *)
Definition at_ (data : list E) (i : nat) : outcome E :=
  match nth_error data i with
  | Some x => Returns x
  | None => Panics indexOutOfRange
  end.

(** [data[i] = x] for [i] in range. *)
Definition set (data : list E) (i : nat) (x : E) : list E :=
  firstn i data ++ x :: skipn (S i) data.

(** [data[i], data[j] = data[j], data[i]]. *)
Definition swap (data : list E) (i j : nat) : outcome (list E) :=
  x <- at_ data i ;;
  y <- at_ data j ;;
  Returns (set (set data i y) j x).

(** [cmp(data[i], data[j]) < 0]. *)
Definition less (data : list E) (i j : nat) : outcome bool :=
  x <- at_ data i ;;
  y <- at_ data j ;;
  c <- cmp x y ;;
  Returns (c <? 0).

(** The inner loop of [insertionSortCmpFunc]:
    [for j := i; j > a && cmp(data[j], data[j-1]) < 0; j--]. *)
Fixpoint insertDown (a j : nat) (data : list E) : outcome (list E) :=
  match j with
  | O => Returns data
  | S j' =>
    if (a <? j)%nat then
      lt <- less data j j' ;;
      if lt : bool then (data <- swap data j j' ;; insertDown a j' data)
      else Returns data
    else Returns data
  end.

(** The outer loop [for i := a + 1; i < b; i++], with [n] rounds left. *)
Fixpoint insertionLoop (n a i : nat) (data : list E) : outcome (list E) :=
  match n with
  | O => Returns data
  | S n' => data <- insertDown a i data ;; insertionLoop n' a (S i) data
  end.

(** [insertionSortCmpFunc]: sorts [data[a:b]]. *)
Definition insertionSortCmpFunc (data : list E) (a b : nat)
  : outcome (list E) :=
  insertionLoop (b - (a + 1)) a (a + 1) data.

(** [swapRangeCmpFunc]: [for i := 0; i < n; i++] swap [a+i] and [b+i];
    [i] counts up while [k] counts the rounds left. *)
Fixpoint swapRangeLoop (k i a b : nat) (data : list E) : outcome (list E) :=
  match k with
  | O => Returns data
  | S k' =>
    data <- swap data (a + i) (b + i) ;; swapRangeLoop k' (S i) a b data
  end.

Definition swapRangeCmpFunc (data : list E) (a b n : nat) : outcome (list E) :=
  swapRangeLoop n 0 a b data.

(** The loop [for i != j] of [rotateCmpFunc]. *)
Fixpoint rotateLoop (fuel m i j : nat) (data : list E) : outcome (list E) :=
  match fuel with
  | O => OutOfFuel
  | S fuel' =>
    if (i =? j)%nat then swapRangeCmpFunc data (m - i) m i
    else if (j <? i)%nat then
      data <- swapRangeCmpFunc data (m - i) m j ;;
      rotateLoop fuel' m (i - j) j data
    else
      data <- swapRangeCmpFunc data (m - i) (m + j - i) i ;;
      rotateLoop fuel' m i (j - i) data
  end.

(** [rotateCmpFunc]: rotates the blocks [data[a:m]] and [data[m:b]]. *)
Definition rotateCmpFunc (data : list E) (a m b : nat) : outcome (list E) :=
  rotateLoop (S (b - a)) m (m - a) (b - m) data.

(** The binary searches of [symMergeCmpFunc]:
    [for i < j { h := (i+j)/2; if up(h) { i = h + 1 } else { j = h } }],
    answering the final [i]. *)
Fixpoint search (fuel : nat) (up : nat -> outcome bool) (i j : nat)
  : outcome nat :=
  match fuel with
  | O => if (i <? j)%nat then OutOfFuel else Returns i
  | S fuel' =>
    if (i <? j)%nat then
      let h := ((i + j) / 2)%nat in
      u <- up h ;;
      if u : bool then search fuel' up (h + 1)%nat j
      else search fuel' up i h
    else Returns i
  end.

(** [for k := a; k < i-1; k++] swap [k] and [k+1], with [n] rounds left. *)
Fixpoint bubbleUp (n k : nat) (data : list E) : outcome (list E) :=
  match n with
  | O => Returns data
  | S n' => data <- swap data k (k + 1) ;; bubbleUp n' (S k) data
  end.

(** [for k := m; k > i; k--] swap [k] and [k-1], with [n] rounds left. *)
Fixpoint bubbleDown (n k : nat) (data : list E) : outcome (list E) :=
  match n with
  | O => Returns data
  | S n' => data <- swap data k (k - 1) ;; bubbleDown n' (k - 1)%nat data
  end.

(** [symMergeCmpFunc]: merges the sorted [data[a:m]] and [data[m:b]]. *)
Fixpoint symMergeCmpFunc (fuel : nat) (data : list E) (a m b : nat)
  : outcome (list E) :=
  match fuel with
  | O => OutOfFuel
  | S fuel' =>
    if (m - a =? 1)%nat then
      (* the lowest index i such that data[i] >= data[a] for m <= i < b *)
      i <- search (b - m) (fun h => less data h a) m b ;;
      bubbleUp (i - 1 - a) a data
    else if (b - m =? 1)%nat then
      (* the lowest index i such that data[i] > data[m] for a <= i < m *)
      i <- search (m - a) (fun h => lt <- less data m h ;; Returns (negb lt)) a m ;;
      bubbleDown (m - i) m data
    else
      let mid := ((a + b) / 2)%nat in
      let n := (mid + m)%nat in
      let '(start, r) := if (mid <? m)%nat then ((n - b)%nat, mid) else (a, m) in
      let p := (n - 1)%nat in
      start <- search (r - start)
                 (fun c => lt <- less data (p - c) c ;; Returns (negb lt))
                 start r ;;
      let end_ := (n - start)%nat in
      data <- (if (start <? m)%nat && (m <? end_)%nat
               then rotateCmpFunc data start m end_ else Returns data) ;;
      data <- (if (a <? start)%nat && (start <? mid)%nat
               then symMergeCmpFunc fuel' data a start mid else Returns data) ;;
      if (mid <? end_)%nat && (end_ <? b)%nat
      then symMergeCmpFunc fuel' data mid end_ b else Returns data
  end.

(** The first loop of [stableCmpFunc]:
    [for b <= n { insertionSort(data, a, b); a = b; b += blockSize }],
    then [insertionSort(data, a, n)]. *)
Fixpoint sortBlocks (fuel blockSize a b n : nat) (data : list E)
  : outcome (list E) :=
  match fuel with
  | O => OutOfFuel
  | S fuel' =>
    if (b <=? n)%nat then
      data <- insertionSortCmpFunc data a b ;;
      sortBlocks fuel' blockSize b (b + blockSize) n data
    else insertionSortCmpFunc data a n
  end.

(** The loop [for b <= n] inside the merging loop, then the merge of
    what is left over. *)
Fixpoint mergePairs (fuel blockSize a b n : nat) (data : list E)
  : outcome (list E) :=
  match fuel with
  | O => OutOfFuel
  | S fuel' =>
    if (b <=? n)%nat then
      data <- symMergeCmpFunc (S n) data a (a + blockSize) b ;;
      mergePairs fuel' blockSize b (b + 2 * blockSize) n data
    else if (a + blockSize <? n)%nat then
      symMergeCmpFunc (S n) data a (a + blockSize) n
    else Returns data
  end.

(** The loop [for blockSize < n] of [stableCmpFunc]. *)
Fixpoint mergeBlocks (fuel blockSize n : nat) (data : list E)
  : outcome (list E) :=
  match fuel with
  | O => OutOfFuel
  | S fuel' =>
    if (blockSize <? n)%nat then
      data <- mergePairs (S n) blockSize 0 (2 * blockSize) n data ;;
      mergeBlocks fuel' (2 * blockSize) n data
    else Returns data
  end.

(** [stableCmpFunc]. *)
Definition stableCmpFunc (data : list E) (n : nat) : outcome (list E) :=
  let blockSize := 20%nat in
  data <- sortBlocks (S n) blockSize 0 blockSize n data ;;
  mergeBlocks (S n) blockSize n data.

(** [slices.SortStableFunc]. *)
Definition SortStableFunc (x : list E) : outcome (list E) :=
  stableCmpFunc x (List.length x).

End Sort.
End slices.

(** ** Package archive/zip and the files the program reads *)
Module zip.

(** The fields of [zip.FileHeader] the program sets. *)
Record FileHeader : Type := { Name : string; Comment : string }.

(** An entry of the archive: its header and the bytes written to it. *)
Record entry : Type := { header : FileHeader; data : string }.

End zip.

(** A source file once opened: what [file.Stat] answers, its error or the
    size [info.Size()], and what [io.Copy] does with the file, the bytes
    that reach the archive entry and the error that stopped the copy, if
    any. *)
Record openedFile : Type :=
  { statErr : option syserror;
    size : Z;
    copied : string;
    copyErr : option syserror }.

(** The world outside the program. *)
Record world : Type :=
  { (** [os.DirFS(dir)] *)
    DirFS : string -> fs.FS;
    (** [os.OpenFile(filename, os.O_RDONLY|syscall.O_NOFOLLOW, 0600)] *)
    OpenFile : string -> openedFile + syserror;
    (** the error of [archive.CreateHeader], given the entries written so
        far and the new header *)
    CreateHeader : list zip.entry -> zip.FileHeader -> option syserror;
    (** the error of opening the output file *)
    OpenOutput : option syserror }.

(** What the program did to the world, in order. *)
Inductive event : Type :=
| Walked (dir : string)             (* searchRecords ran on the directory *)
| Created (h : zip.FileHeader)      (* archive.CreateHeader was called *)
| Opened (filename : string).       (* os.OpenFile was called on a source *)

(** An archive session: the entries of the archive and the log of events. *)
Record session : Type :=
  { archive : list zip.entry;
    log : list event }.

Definition emptySession : session := {| archive := []; log := [] |}.

Definition logged (ev : event) (s : session) : session :=
  {| archive := archive s; log := (log s ++ [ev])%list |}.

Definition appended (e : zip.entry) (s : session) : session :=
  {| archive := (archive s ++ [e])%list; log := log s |}.

(** ** main.go *)

Record fileRecord : Type := { path : string; name : string }.

(** [a == b] on records. *)
Definition fileRecord_eqb (a b : fileRecord) : bool :=
  String.eqb (path a) (path b) && String.eqb (name a) (name b).

(** [flattenPath]. *)
Definition flattenPath : string -> string :=
  strings.ReplaceByte filepath.Separator "_".

(** [sanitizeDirPrefix]. *)
Definition sanitizeDirPrefix (dir : string) : string :=
  let dir := filepath.Base dir in
  let dir := filepath.Clean dir in
  if String.eqb dir "." then "" else dir ++ "_".

(** [ok, _ := filepath.Match(pattern, path)]: the error is dropped. *)
Definition matches (pattern relpath : string) : bool :=
  match filepath.Match pattern relpath with
  | Ok ok => ok
  | Err _ => false
  end.

(** The record appended for a matching file. *)
Definition recordOf (dir relpath : string) : fileRecord :=
  {| name := sanitizeDirPrefix dir ++ flattenPath relpath;
     path := filepath.Join [dir; relpath] |}.

(** The loop [for _, pattern := range fileGlobs] of the callback of
    [searchRecords]: the first pattern that matches appends the record and
    ends the loop.  (The call of [log.Printf] is left out.) *)
Fixpoint matchGlobs (dir relpath : string) (fileGlobs : list string)
         (found : list fileRecord) : list fileRecord :=
  match fileGlobs with
  | [] => found
  | pattern :: rest =>
    if matches pattern relpath then (found ++ [recordOf dir relpath])%list
    else matchGlobs dir relpath rest found
  end.

(** The callback that [searchRecords] hands to [fs.WalkDir]; its state is
    the slice [found].  [WalkDir] passes a [nil] entry only together with
    an error. *)
Definition visit (dir : string) (fileGlobs : list string)
  : fs.WalkDirFunc (list fileRecord) :=
  fun relpath d err found =>
    match err, d with
    | Some e, _ => (found, Some e)
    | None, Some d =>
      if fs.IsDir d then (found, None)
      else (matchGlobs dir relpath fileGlobs found, None)
    | None, None => (found, None)
    end.

(** [searchRecords]. *)
Definition searchRecords (dir : string) (fsys : fs.FS) (fileGlobs : list string)
  : result (list fileRecord) :=
  let '(found, errWalk) := fs.WalkDir (visit dir fileGlobs) fsys "." [] in
  match errWalk with
  | Some e => Err (Errorf WalkingDir e)
  | None =>
    match found with
    | [] => Err errNoFilesFound
    | _ :: _ => Ok found
    end
  end.

(** [bar.Wait()] on the bar of a file returns when the bar is complete: the
    bar was made with the total [info.Size()], it counts the bytes that
    [io.Copy] writes through it, and it is complete once the count reaches
    a total that is positive.  A bar with a total of zero is never
    complete. *)
Definition barCompletes (file : openedFile) : bool :=
  (0 <? size file) && (size file <=? len (copied file)).

(** [copyFileTo]: the session after the call, the bytes written to the
    archive entry, and the error.  When [file.Stat] fails the program
    formats [errFile], which is [nil] there, and not [errInfo].  After a
    copy without error the function waits for the bar of the file. *)
Definition copyFileTo (w : world) (s : session) (filename : string)
  : outcome (session * string * option error) :=
  let s := logged (Opened filename) s in
  match OpenFile w filename with
  | inr errFile =>
    Returns (s, EmptyString,
             Some (Errorf (UnableToOpenFile filename) (SysError errFile)))
  | inl file =>
    match statErr file with
    | Some errInfo =>
      Returns (s, EmptyString, Some (ErrorfNil (UnableToOpenFile filename)))
    | None =>
      match copyErr file with
      | Some errCopy =>
        Returns (s, copied file,
                 Some (Errorf (UnableToWriteFile filename) (SysError errCopy)))
      | None =>
        if barCompletes file then Returns (s, copied file, None)
        else Blocks
      end
    end
  end.

(** The loop [for _, record := range found] of [processDir]. *)
Fixpoint writeRecords (w : world) (found : list fileRecord) (s : session)
  : outcome (session * option error) :=
  match found with
  | [] => Returns (s, None)
  | record :: rest =>
    let h := {| zip.Name := name record; zip.Comment := path record |} in
    let s := logged (Created h) s in
    match CreateHeader w (archive s) h with
    | Some errCreate =>
      Returns (s, Some (Errorf CreatingZipFileRecord (SysError errCreate)))
    | None =>
      r <- copyFileTo w s (path record) ;;
      let '(s, written, err) := r in
      let s := appended {| zip.header := h; zip.data := written |} s in
      match err with
      | Some e => Returns (s, Some (Errorf WritingFileToArchive e))
      | None => writeRecords w rest s
      end
    end
  end.

(** ** The flag [-sauce] *)

(** What [sauce] meets outside the program: what
    [fs.ReadFile(sourceCode, path)] answers, and what a write of [data] to
    the standard output does when [out] was written before: [None] when all
    the bytes are written, [Some (n, e)] when the write stops with the error
    [e] after [n] bytes. *)
Record console : Type :=
  { ReadFile : string -> string + syserror;
    StdoutWrite : string -> string -> option (nat * syserror) }.

(** A write to the standard output: what is on the output after it, and
    its error. *)
Definition write (c : console) (out data : string) : string * option syserror :=
  match StdoutWrite c out data with
  | None => (out ++ data, None)
  | Some (n, e) => (out ++ take n data, Some e)
  end.

Definition newline : string := String (ascii_of_nat 10) EmptyString.

(** The text of [fmt.Printf("--- %s ---\n\n", path)]. *)
Definition banner (path : string) : string :=
  "--- " ++ path ++ " ---" ++ newline ++ newline.

(** What the callback of [sauce] does for an entry that is not a
    directory; the error of [fmt.Printf] is dropped. *)
Definition printOne (c : console) (path out : string) : string * option error :=
  let out := fst (write c out (banner path)) in
  match ReadFile c path with
  | inr errFile => (out, Some (SysError errFile))
  | inl data =>
    match write c out data with
    | (out, Some errWrite) => (out, Some (SysError errWrite))
    | (out, None) => (out, None)
    end
  end.

(** The callback that [sauce] hands to [fs.WalkDir]; its state is what is
    on the standard output. *)
Definition printFile (c : console) : fs.WalkDirFunc string :=
  fun path d err out =>
    match err, d with
    | Some e, _ => (out, Some e)
    | None, Some d => if fs.IsDir d then (out, None) else printOne c path out
    | None, None => (out, None)
    end.

(** [sauce]: what is on the standard output when it ends, and the error it
    panics with ("print souce code: ..."), if any. *)
Definition sauce (c : console) (sourceCode : fs.FS) : string * option error :=
  fs.WalkDir (printFile c) sourceCode "." EmptyString.

Section Program.

Variable digitTable : Z -> bool.

(** The comparison function of [sortFileRecords]. *)
Definition compareRecords (a b : fileRecord) : outcome Z :=
  if fileRecord_eqb a b then Returns 0
  else
    lt <- naturalLess digitTable (name a) (name b) ;;
    if lt : bool then Returns (-1) else Returns 1.

(** [sortFileRecords]: the sorted slice. *)
Definition sortFileRecords (records : list fileRecord)
  : outcome (list fileRecord) :=
  slices.SortStableFunc compareRecords records.

(** [processDir]. *)
Definition processDir (w : world) (s : session) (dir : string)
           (fileGlobs : list string) : outcome (session * option error) :=
  let fsys := DirFS w dir in
  let s := logged (Walked dir) s in
  match searchRecords dir fsys fileGlobs with
  | Err errFind => Returns (s, Some (Errorf SearchingFiles errFind))
  | Ok found =>
    found <- sortFileRecords found ;;
    writeRecords w found s
  end.

(** [process].  When the loop over the directories ends, every bar is
    complete: the bar of a file was waited for, and the bar of a directory
    counts its records, of which there is at least one.  So the last
    [p.bar.Wait()] returns. *)
Fixpoint process (w : world) (s : session) (dirs fileGlobs : list string)
  : outcome (session * option error) :=
  match dirs with
  | [] => Returns (s, None)
  | dir :: rest =>
    r <- processDir w s dir fileGlobs ;;
    match r with
    | (s, Some err) => Returns (s, Some (Errorf (InDir dir) err))
    | (s, None) => process w s rest fileGlobs
    end
  end.

(** The function of the flag [-g]. *)
Definition globFlag (fileGlobs : list string) (pattern : string)
  : result (list string) :=
  match filepath.Match pattern EmptyString with
  | Err err => Err err
  | Ok _ => Ok (fileGlobs ++ [pattern])%list
  end.

(** [flag.Parse] on the values given to [-g], in order: the first value
    its function rejects ends the parsing. *)
Fixpoint parseGlobFlags (values : list string) (fileGlobs : list string)
  : result (list string) :=
  match values with
  | [] => Ok fileGlobs
  | pattern :: rest =>
    match globFlag fileGlobs pattern with
    | Err err => Err err
    | Ok fileGlobs => parseGlobFlags rest fileGlobs
    end
  end.

(** What a run of [main] that returns has done: with [-sauce] it printed
    the source code, and nothing else; without, it wrote the archive. *)
Inductive completed : Type :=
| SourcePrinted (out : string)    (* what is on the standard output *)
| Archived (s : session).

(** How a run of [main] ends. *)
Inductive ending : Type :=
| Finished (c : completed)        (* main returns *)
| UsageError (err : error)        (* flag.Parse reports the error and exits *)
| PanicSauce (err : error) (out : string)       (* "print souce code: ..." *)
| PanicNoDirs                     (* "at least one book dir must be defined" *)
| PanicOutput (err : syserror)    (* "creating output archive: ..." *)
| PanicProcessing (err : error) (s : session)   (* "processing dirs: ..." *)
| PanicMessage (msg : string)     (* a panic of naturalLess *)
| Blocked                         (* the wait for a bar does not end *)
| Unfinished.                     (* the model ran out of fuel *)

(** [main], for the values of [-g], the flag [-sauce] and the directory
    arguments; [sourceCode] is the embedded file system of that name.
    (The flag [-cpu-profile] is left out.) *)
Definition main (w : world) (c : console) (sourceCode : fs.FS)
           (globs : list string) (printSourceCode : bool)
           (dirs : list string) : ending :=
  let fileGlobs := ["*.mp3"] in
  match parseGlobFlags globs fileGlobs with
  | Err err => UsageError err
  | Ok fileGlobs =>
    if printSourceCode then
      match sauce c sourceCode with
      | (out, Some err) => PanicSauce err out
      | (out, None) => Finished (SourcePrinted out)
      end
    else
      match dirs with
      | [] => PanicNoDirs
      | _ :: _ =>
        match OpenOutput w with
        | Some errOutput => PanicOutput errOutput
        | None =>
          match process w emptySession dirs fileGlobs with
          | Returns (s, None) => Finished (Archived s)
          | Returns (s, Some err) => PanicProcessing err s
          | Panics msg => PanicMessage msg
          | OutOfFuel => Unfinished
          | Blocks => Blocked
          end
        end
      end
  end.

End Program.

(** ** Notions used in the statements *)

Definition isAsciiDigit (c : ascii) : bool :=
  (0x30 <=? byteVal c) && (byteVal c <=? 0x39).

(** The last byte of a string. *)
Fixpoint lastByte (s : string) : option ascii :=
  match s with
  | EmptyString => None
  | String c EmptyString => Some c
  | String _ t => lastByte t
  end.

(** The last byte of [s] is one of the digits 0 to 9. *)
Definition endsWithDigit (s : string) : bool :=
  match lastByte s with
  | Some c => isAsciiDigit c
  | None => false
  end.

(** Every byte of [s] is ASCII. *)
Fixpoint allAscii (s : string) : bool :=
  match s with
  | EmptyString => true
  | String c t => (byteVal c <? 0x80) && allAscii t
  end.

(** No run of the digits 0 to 9 in [s] has more than [limit] digits; [run]
    is the number of digits right before [s]. *)
Fixpoint runsWithin (limit run : nat) (s : string) : bool :=
  match s with
  | EmptyString => true
  | String c t =>
    if isAsciiDigit c then (S run <=? limit)%nat && runsWithin limit (S run) t
    else runsWithin limit 0 t
  end.

(** The index of the first byte of [s] that satisfies [p]. *)
Fixpoint firstByte (p : ascii -> bool) (s : string) : option nat :=
  match s with
  | EmptyString => None
  | String c t => if p c then Some 0%nat else option_map S (firstByte p t)
  end.

Section DigitRuns.

Variable digitTable : Z -> bool.

(** [s] contains a digit, as [naturalLess] finds out. *)
Definition hasDigit (s : string) : bool :=
  negb (strings.IndexFunc s (IsDigit digitTable) =? -1).

(** The part of [s] before its first digit; all of [s] when it has none. *)
Definition nonDigitPrefix (s : string) : string :=
  let pos := strings.IndexFunc s (IsDigit digitTable) in
  if pos =? -1 then s else sliceTo s pos.

(** The index where the digit run at the start of [s] ends. *)
Definition runEnd (s : string) : Z :=
  let pos := strings.IndexFunc s (isNonDigit digitTable) in
  if pos =? -1 then len s else pos.

(** Every digit run of [s], cut the way [naturalLess] cuts it, is accepted
    by [strconv.Atoi]. *)
Fixpoint digitRunsParse (fuel : nat) (s : string) : bool :=
  match fuel with
  | O => true
  | S fuel' =>
    let pos := strings.IndexFunc s (IsDigit digitTable) in
    if pos =? -1 then true
    else
      let s := sliceFrom s pos in
      match strconv.Atoi (sliceTo s (runEnd s)) with
      | inr _ => false
      | inl _ =>
        if len s <=? runEnd s then true
        else digitRunsParse fuel' (sliceFrom s (runEnd s))
      end
  end.

Definition parses (s : string) : bool :=
  digitRunsParse (S (String.length s)) s.

End DigitRuns.

(** The paths of the entries of a tree that are not directories, in the
    order in which [fs.WalkDir] comes to them; [name] is the path of the
    root of the tree. *)
Fixpoint files (name : string) (n : fs.node) : list string :=
  match n with
  | fs.File => [name]
  | fs.Dir entries _ =>
    (fix below (entries : list (string * fs.node)) : list string :=
       match entries with
       | [] => []
       | (name1, n1) :: rest =>
         (files (filepath.Join [name; name1]) n1 ++ below rest)%list
       end) entries
  end.

(** Every directory of the tree can be read. *)
Fixpoint readable (n : fs.node) : bool :=
  match n with
  | fs.File => true
  | fs.Dir entries readErr =>
    match readErr with
    | Some _ => false
    | None =>
      (fix all (entries : list (string * fs.node)) : bool :=
         match entries with
         | [] => true
         | (_, n1) :: rest => readable n1 && all rest
         end) entries
    end
  end.

(** The path matches at least one pattern of the set. *)
Definition matchesAny (fileGlobs : list string) (relpath : string) : bool :=
  existsb (fun pattern => matches pattern relpath) fileGlobs.

(** The names of the entries of an archive, in order. *)
Definition entryNames (entries : list zip.entry) : list string :=
  map (fun e => zip.Name (zip.header e)) entries.

(** No name of the list is naturally less than the name before it: the
    test of [slices.IsSortedFunc] with [naturalLess]. *)
Fixpoint inNaturalOrder (digitTable : Z -> bool) (names : list string) : bool :=
  match names with
  | a :: (b :: _) as rest =>
    match naturalLess digitTable b a with
    | Returns true => false
    | _ => inNaturalOrder digitTable rest
    end
  | _ => true
  end.

(** The directories a log says were walked, in order. *)
Fixpoint walked (events : list event) : list string :=
  match events with
  | [] => []
  | Walked dir :: rest => dir :: walked rest
  | _ :: rest => walked rest
  end.

(** The source files a log says were opened, in order. *)
Fixpoint opened (events : list event) : list string :=
  match events with
  | [] => []
  | Opened filename :: rest => filename :: opened rest
  | _ :: rest => opened rest
  end.

(** A computation on a slice that, when it returns, returns a
    rearrangement of the slice. *)
Definition rearranges {E : Type} (data : list E) (m : outcome (list E)) : Prop :=
  forall data', m = Returns data' -> Permutation data data'.

(** The records of the paths of a list that match, in order. *)
Definition recordsOf (dir : string) (fileGlobs paths : list string)
  : list fileRecord :=
  map (recordOf dir) (filter (matchesAny fileGlobs) paths).

(** The path names an entry of the walked directory itself: it holds no
    separator. *)
Definition topLevel (relpath : string) : bool :=
  negb (strings.ContainsByte relpath filepath.Separator).

(** The events of a run of [main]. *)
Definition eventsOf (e : ending) : list event :=
  match e with
  | Finished (Archived s) | PanicProcessing _ s => log s
  | _ => []
  end.

(** What is left of the chunk after a character class, if the class is well
    formed. *)
Definition afterClass (r : result (bool * string)) : option string :=
  match r with
  | Ok (_, chunk) => Some chunk
  | Err _ => None
  end.

Definition mp3 : string := ".mp3".

(** ** Worlds and names the examples run on *)

(** A table with no digit above Latin-1: the digits of the examples are
    ASCII, so the table is never asked. *)
Definition latin1Only : Z -> bool := fun _ => false.

(** A source file that opens, and whose bytes are all copied. *)
Definition plainFile (bytes : string) : openedFile :=
  {| statErr := None; size := len bytes; copied := bytes; copyErr := None |}.

(** Twenty digits: more than an [int] holds. *)
Definition twentyNines : string := "99999999999999999999".

(** Every directory holds the two files [t.mp3] and [t.mp3b.mp3], in the
    order [ReadDir] gives them; nothing fails. *)
Definition twoTracks : world :=
  {| DirFS := fun _ =>
       fs.Root (fs.Dir [("t.mp3", fs.File); ("t.mp3b.mp3", fs.File)] None);
     OpenFile := fun _ => inl (plainFile "audio");
     CreateHeader := fun _ _ => None;
     OpenOutput := None |}.

(** Every directory holds [a.mp3] and [b.mp3]; every source file opens, and
    [file.Stat] fails on it with the error 5 of the system. *)
Definition statFails : world :=
  {| DirFS := fun _ =>
       fs.Root (fs.Dir [("a.mp3", fs.File); ("b.mp3", fs.File)] None);
     OpenFile := fun _ =>
       inl {| statErr := Some (Errno 5); size := 0;
              copied := EmptyString; copyErr := None |};
     CreateHeader := fun _ _ => None;
     OpenOutput := None |}.

(** A book with a cover, a note, a track at the top and two tracks in a
    subdirectory; nothing fails. *)
Definition book : fs.node :=
  fs.Dir [("cover.jpg", fs.File);
          ("disc1", fs.Dir [("track01.mp3", fs.File);
                            ("track02.mp3", fs.File)] None);
          ("intro.mp3", fs.File)] None.

Definition bookWorld : world :=
  {| DirFS := fun _ => fs.Root book;
     OpenFile := fun _ => inl (plainFile "audio");
     CreateHeader := fun _ _ => None;
     OpenOutput := None |}.

(** ** Notions used in the further statements *)

(** The error of the first directory of the tree, in the order of the
    walk, that cannot be read. *)
Fixpoint firstReadErr (n : fs.node) : option syserror :=
  match n with
  | fs.File => None
  | fs.Dir entries readErr =>
    match readErr with
    | Some e => Some e
    | None =>
      (fix first (entries : list (string * fs.node)) : option syserror :=
         match entries with
         | [] => None
         | (_, n1) :: rest =>
           match firstReadErr n1 with
           | Some e => Some e
           | None => first rest
           end
         end) entries
    end
  end.

(** The comments of the entries of an archive, in order. *)
Definition entryComments (entries : list zip.entry) : list string :=
  map (fun e => zip.Comment (zip.header e)) entries.

(** The entry holds all the bytes of the source file its comment names:
    in this world the file opens, [file.Stat] and [io.Copy] succeed on it,
    the data of the entry are the bytes copied, and there is at least one
    byte. *)
Definition copiedInFull (w : world) (e : zip.entry) : Prop :=
  exists file,
    OpenFile w (zip.Comment (zip.header e)) = inl file /\
    statErr file = None /\ copyErr file = None /\
    zip.data e = copied file /\ 0 < len (zip.data e).

(** What a run of the pipeline leaves: the comments of the entries are the
    files opened, in order; after a run without error every entry holds
    all the bytes of its source; after a run with an error every entry
    does, except the last one when the error came after its creation. *)
Definition archived (w : world) (s : session) (r : option error) : Prop :=
  entryComments (archive s) = opened (log s) /\
  match r with
  | None => Forall (copiedInFull w) (archive s)
  | Some _ =>
    exists full partial,
      archive s = (full ++ partial)%list /\
      Forall (copiedInFull w) full /\
      (List.length partial <= 1)%nat
  end.


(** The string [s] ends with [suffix]. *)
Fixpoint endsWith (suffix s : string) : bool :=
  String.eqb s suffix ||
  match s with
  | EmptyString => false
  | String _ t => endsWith suffix t
  end.

(** None of the bytes of [s] is one of the digits 0 to 9. *)
Fixpoint digitFree (s : string) : bool :=
  match s with
  | EmptyString => true
  | String c t => negb (isAsciiDigit c) && digitFree t
  end.

(** Every byte of [s] is one of the digits 0 to 9. *)
Fixpoint allDigits (s : string) : bool :=
  match s with
  | EmptyString => true
  | String c t => isAsciiDigit c && allDigits t
  end.

(** The first byte of [s] is one of the digits 0 to 9. *)
Definition startsWithDigit (s : string) : bool :=
  match s with
  | EmptyString => false
  | String c _ => isAsciiDigit c
  end.

(** [slices.IsSortedFunc(x, cmp)]: no element compares below the one
    before it. *)
Fixpoint isSortedFunc {E : Type} (cmp : E -> E -> outcome Z) (x : list E)
  : bool :=
  match x with
  | a :: (b :: _) as rest =>
    match cmp b a with
    | Returns c => (0 <=? c) && isSortedFunc cmp rest
    | _ => false
    end
  | _ => true
  end.

(** ** Further notions and examples *)

(** A step done for one path after the other, up to the first error. *)
Fixpoint foldFiles {S : Type} (step : string -> S -> S * option error)
         (paths : list string) (st : S) : S * option error :=
  match paths with
  | [] => (st, None)
  | p :: rest =>
    match step p st with
    | (st, Some e) => (st, Some e)
    | (st, None) => foldFiles step rest st
    end
  end.

(** What [fs.ReadFile] answers for the path, nothing when it fails. *)
Definition contentOf (c : console) (path : string) : string :=
  match ReadFile c path with
  | inl data => data
  | inr _ => EmptyString
  end.

(** A console on which nothing fails. *)
Definition quietConsole (content : string -> string) : console :=
  {| ReadFile := fun path => inl (content path);
     StdoutWrite := fun _ _ => None |}.

(** The book, read from a disc with a scratch: the copy of [track02.mp3]
    stops after three bytes with the error 5 of the system; the other
    files are copied in full. *)
Definition scratchedDisc : world :=
  {| DirFS := fun _ => fs.Root book;
     OpenFile := fun filename =>
       if String.eqb filename "book1/disc1/track02.mp3"
       then inl {| statErr := None; size := 5;
                   copied := "aud"; copyErr := Some (Errno 5) |}
       else inl (plainFile "audio");
     CreateHeader := fun _ _ => None;
     OpenOutput := None |}.


(** The Arabic-Indic digits, U+0660 to U+0669, which [unicode.IsDigit]
    accepts: a table that knows these digits only. *)
Definition arabicIndicDigits : Z -> bool :=
  fun r => (0x660 <=? r) && (r <=? 0x669).

(** The bytes of U+0663, the Arabic-Indic digit three, in UTF-8. *)
Definition arabicIndicThree : string :=
  String (ascii_of_nat 217) (String (ascii_of_nat 163) EmptyString).

(** No byte of the pattern is one of the special characters of
    [filepath.Match]: the star, the question mark, the opening bracket and
    the backslash. *)
Fixpoint literal (pattern : string) : bool :=
  match pattern with
  | EmptyString => true
  | String c t =>
    negb (Ascii.eqb c "*" || Ascii.eqb c "?" || Ascii.eqb c "[" || Ascii.eqb c "\")
    && literal t
  end.

(** A name as [ReadDir] gives it: not empty, without separator, and
    neither ["."] nor [".."]. *)
Definition simpleName (e : string) : bool :=
  negb (isEmpty e) && negb (strings.ContainsByte e filepath.Separator) &&
  negb (String.eqb e ".") && negb (String.eqb e "..").

(** Every entry of the tree has such a name. *)
Fixpoint wellNamed (n : fs.node) : bool :=
  match n with
  | fs.File => true
  | fs.Dir entries _ =>
    (fix all (entries : list (string * fs.node)) : bool :=
       match entries with
       | [] => true
       | (name1, n1) :: rest => simpleName name1 && wellNamed n1 && all rest
       end) entries
  end.

(** The path of the entry [name1] of the directory [name], written out:
    the root ["."] adds nothing. *)
Definition child (name name1 : string) : string :=
  if String.eqb name "." then name1 else name ++ "/" ++ name1.

(** The paths of the entries of a tree that are not directories, each
    written as the names from the root down, with a separator between
    them. *)
Fixpoint pathsBelow (name : string) (n : fs.node) : list string :=
  match n with
  | fs.File => [name]
  | fs.Dir entries _ =>
    (fix below (entries : list (string * fs.node)) : list string :=
       match entries with
       | [] => []
       | (name1, n1) :: rest =>
         (pathsBelow (child name name1) n1 ++ below rest)%list
       end) entries
  end.

(** A path made of names as [ReadDir] gives them, with a separator between
    them. *)
Fixpoint joined (first : string) (others : list string) : string :=
  match others with
  | [] => first
  | e :: rest => first ++ "/" ++ joined e rest
  end.

(** * Properties *)

(** ** Byte strings *)

Lemma length_drop (n : nat) (s : string) :
  String.length (drop n s) = (String.length s - n)%nat.
Proof.
  revert s; induction n as [|n IH]; intros [|c t]; simpl; auto.
Qed.

Lemma take_drop (n : nat) (s : string) : take n s ++ drop n s = s.
Proof.
  revert s; induction n as [|n IH]; intros [|c t]; simpl; auto.
  now rewrite IH.
Qed.

Lemma drop_empty (n : nat) : drop n EmptyString = EmptyString.
Proof. now destruct n. Qed.

Lemma drop_drop (n m : nat) (s : string) : drop n (drop m s) = drop (m + n) s.
Proof.
  revert s; induction m as [|m IH]; intros s; simpl; auto.
  destruct s as [|c t]; simpl; auto using drop_empty.
Qed.

Lemma append_empty_r (s : string) : s ++ EmptyString = s.
Proof. induction s as [|c t IH]; simpl; congruence. Qed.

Lemma take_all (n : nat) (s : string) :
  (String.length s <= n)%nat -> take n s = s.
Proof.
  revert s; induction n as [|n IH]; intros [|c t] H; simpl in *; auto; try lia.
  now rewrite IH by lia.
Qed.

Lemma cons_nonempty (c : ascii) (t : string) : String c t <> EmptyString.
Proof. discriminate. Qed.

Lemma isEmpty_length (s : string) : isEmpty s = (String.length s =? 0)%nat.
Proof. now destruct s. Qed.

Lemma byteVal_range (c : ascii) : 0 <= byteVal c < 256.
Proof.
  unfold byteVal. pose proof (N_ascii_bounded c). lia.
Qed.

Lemma lastByte_cons (c : ascii) (t : string) :
  t <> EmptyString -> lastByte (String c t) = lastByte t.
Proof. destruct t; simpl; congruence. Qed.

Lemma lastByte_drop (n : nat) (s : string) :
  (n < String.length s)%nat -> lastByte (drop n s) = lastByte s.
Proof.
  revert s; induction n as [|n IH]; intros [|c t] H; simpl in *; auto; try lia.
  rewrite IH by lia. destruct t; simpl in *; [lia | reflexivity].
Qed.

Lemma lastByte_byteAt (s : string) :
  s <> EmptyString -> lastByte s = byteAt s (String.length s - 1).
Proof.
  induction s as [|c t IH]; intros H; [congruence|].
  destruct t as [|c' t']; [reflexivity|].
  rewrite lastByte_cons by congruence. rewrite IH by congruence.
  simpl. now rewrite Nat.sub_0_r.
Qed.

(** ** utf8.DecodeRuneInString *)

Lemma first_spec (b : Z) (sz : nat) (lo hi : Z) :
  utf8.first b = Some (sz, lo, hi) ->
  (sz = 2 \/ sz = 3 \/ sz = 4)%nat /\ 0x80 <= lo /\ 0x80 <= b.
Proof.
  unfold utf8.first.
  repeat match goal with
         | |- context [if ?c then _ else _] => destruct c eqn:?
         end; intros H; inversion H; subst; lia.
Qed.

(** An ASCII byte is a rune of its own. *)
Lemma decode_ascii (c : ascii) (t : string) :
  byteVal c < 0x80 -> utf8.DecodeRuneInString (String c t) = (byteVal c, 1%nat).
Proof.
  intros H. unfold utf8.DecodeRuneInString.
  destruct (byteVal c <? 128) eqn:E; [reflexivity | lia].
Qed.

(** What the width of the first rune says about the bytes it covers: it is
    one byte, or it covers at least two bytes of the string and those after
    the first are not ASCII. *)
Lemma decode_shape (s : string) (r : Z) (n : nat) :
  s <> EmptyString ->
  utf8.DecodeRuneInString s = (r, n) ->
  (1 <= n <= String.length s)%nat /\
  (forall k c, (1 <= k < n)%nat -> byteAt s k = Some c -> 0x80 <= byteVal c).
Proof.
  intros Hs. destruct s as [|c0 t0]; [congruence|].
  unfold utf8.DecodeRuneInString.
  assert (Hone : forall r', (r', 1%nat) = (r, n) ->
    (1 <= n <= String.length (String c0 t0))%nat /\
    (forall k c, (1 <= k < n)%nat -> byteAt (String c0 t0) k = Some c -> 0x80 <= byteVal c)).
  { intros r' H; inversion H; subst. simpl. split; [lia | intros; lia]. }
  destruct (byteVal c0 <? 128); [apply Hone|].
  destruct (utf8.first (byteVal c0)) as [[[sz lo] hi]|] eqn:Hf; [|apply Hone].
  apply first_spec in Hf. destruct Hf as (Hsz & Hlo & _).
  destruct (String.length (String c0 t0) <? sz)%nat eqn:Hlen; [apply Hone|].
  apply Nat.ltb_ge in Hlen.
  destruct t0 as [|c1 t1]; [apply Hone|].
  destruct ((byteVal c1 <? lo) || (hi <? byteVal c1)) eqn:H1; [apply Hone|].
  apply orb_false_iff in H1. destruct H1 as [H1 _]. apply Z.ltb_ge in H1.
  destruct (sz <=? 2)%nat eqn:S2.
  { intros H; inversion H; subst. simpl in *. split; [lia|].
    intros k c Hk Hc. assert (k = 1%nat) by lia. subst k.
    simpl in Hc. inversion Hc; subst. lia. }
  destruct t1 as [|c2 t2]; [apply Hone|].
  destruct (negb (utf8.isCont (byteVal c2))) eqn:H2; [apply Hone|].
  apply negb_false_iff in H2. unfold utf8.isCont in H2.
  apply andb_true_iff in H2. destruct H2 as [H2 _]. apply Z.leb_le in H2.
  destruct (sz <=? 3)%nat eqn:S3.
  { intros H; inversion H; subst. simpl in *. split; [lia|].
    intros k c Hk Hc.
    assert (k = 1 \/ k = 2)%nat as [->| ->] by lia;
      simpl in Hc; inversion Hc; subst; lia. }
  destruct t2 as [|c3 t3]; [apply Hone|].
  destruct (negb (utf8.isCont (byteVal c3))) eqn:H3; [apply Hone|].
  apply negb_false_iff in H3. unfold utf8.isCont in H3.
  apply andb_true_iff in H3. destruct H3 as [H3 _]. apply Z.leb_le in H3.
  intros H; inversion H; subst. simpl in *. split; [lia|].
  intros k c Hk Hc.
  assert (k = 1 \/ k = 2 \/ k = 3)%nat as [->|[->| ->]] by lia;
    simpl in Hc; inversion Hc; subst; lia.
Qed.

Lemma decode_width (s : string) (r : Z) (n : nat) :
  s <> EmptyString ->
  utf8.DecodeRuneInString s = (r, n) ->
  (1 <= n <= String.length s)%nat.
Proof. intros Hs H. now destruct (decode_shape s r n Hs H). Qed.

(** ** strings.IndexFunc *)

Lemma len_nonneg (s : string) : 0 <= len s.
Proof. unfold len; lia. Qed.

Lemma len_drop (n : nat) (s : string) :
  (n <= String.length s)%nat -> len (drop n s) = len s - Z.of_nat n.
Proof. intros H. unfold len. rewrite length_drop. lia. Qed.

(** The answer of the loop is [-1] or the offset of a byte of [s]. *)
Lemma indexFunc_range (fuel : nat) (f : Z -> bool) (i : Z) (s : string) :
  strings.indexFunc fuel f i s = -1 \/
  i <= strings.indexFunc fuel f i s < i + len s.
Proof.
  revert i s; induction fuel as [|fuel IH]; intros i s; simpl; [now left|].
  destruct s as [|c t]; [now left|].
  destruct (utf8.DecodeRuneInString (String c t)) as [r n] eqn:D.
  pose proof (decode_width _ _ _ (cons_nonempty _ _) D) as Hn.
  destruct (f r).
  - right. unfold len. simpl String.length. lia.
  - destruct (IH (i + Z.of_nat n) (drop n (String c t))) as [H|H]; [now left|].
    right. rewrite len_drop in H by lia. lia.
Qed.

Lemma IndexFunc_range (s : string) (f : Z -> bool) :
  strings.IndexFunc s f = -1 \/ 0 <= strings.IndexFunc s f < len s.
Proof. apply (indexFunc_range (String.length s) f 0 s). Qed.

(** Where the loop answers an offset, the rune there satisfies [f]. *)
Lemma indexFunc_found (fuel : nat) (f : Z -> bool) (i : Z) (s : string) :
  strings.indexFunc fuel f i s <> -1 ->
  exists r n,
    utf8.DecodeRuneInString
      (drop (Z.to_nat (strings.indexFunc fuel f i s - i)) s) = (r, n) /\
    f r = true.
Proof.
  revert i s; induction fuel as [|fuel IH]; intros i s; simpl; [congruence|].
  destruct s as [|c t]; [congruence|].
  destruct (utf8.DecodeRuneInString (String c t)) as [r n] eqn:D.
  pose proof (decode_width _ _ _ (cons_nonempty _ _) D) as Hn.
  destruct (f r) eqn:F.
  - intros _. exists r, n. rewrite Z.sub_diag. simpl. auto.
  - intros H.
    destruct (indexFunc_range fuel f (i + Z.of_nat n) (drop n (String c t)))
      as [E|E]; [congruence|].
    destruct (IH _ _ H) as (r' & n' & D' & F').
    exists r', n'. split; [|exact F'].
    rewrite drop_drop in D'.
    replace (Z.to_nat (strings.indexFunc fuel f (i + Z.of_nat n)
                         (drop n (String c t)) - i))
      with (n + Z.to_nat (strings.indexFunc fuel f (i + Z.of_nat n)
                            (drop n (String c t)) - (i + Z.of_nat n)))%nat
      by lia.
    exact D'.
Qed.

Lemma IndexFunc_found (s : string) (f : Z -> bool) :
  strings.IndexFunc s f <> -1 ->
  exists r n,
    utf8.DecodeRuneInString (sliceFrom s (strings.IndexFunc s f)) = (r, n) /\
    f r = true.
Proof.
  intros H. destruct (indexFunc_found _ _ _ _ H) as (r & n & D & F).
  exists r, n. split; [|exact F].
  unfold sliceFrom. now rewrite Z.sub_0_r in D.
Qed.

(** A string whose first rune does not satisfy [f]: the index is not 0. *)
Lemma IndexFunc_head_false (s : string) (f : Z -> bool) (r : Z) (n : nat) :
  utf8.DecodeRuneInString s = (r, n) ->
  f r = false ->
  strings.IndexFunc s f = -1 \/ 1 <= strings.IndexFunc s f < len s.
Proof.
  intros D F. unfold strings.IndexFunc.
  destruct s as [|c t]; [now left|].
  pose proof (decode_width _ _ _ (cons_nonempty _ _) D) as Hn.
  cbn [String.length strings.indexFunc]. rewrite D, F.
  destruct (indexFunc_range (String.length t) f (0 + Z.of_nat n)
              (drop n (String c t))) as [E|E]; [now left|].
  right. rewrite len_drop in E by lia. lia.
Qed.

(** ** strconv.Atoi *)

Lemma ltb_irrefl (s : string) : String.ltb s s = false.
Proof.
  unfold String.ltb. pose proof (String.compare_antisym s s) as H.
  destruct (String.compare s s); simpl in H; congruence.
Qed.

Lemma endsWithDigit_cons (c : ascii) (t : string) :
  t <> EmptyString -> endsWithDigit (String c t) = endsWithDigit t.
Proof. intros H. unfold endsWithDigit. now rewrite lastByte_cons. Qed.

Lemma endsWithDigit_drop (n : nat) (s : string) :
  (n < String.length s)%nat -> endsWithDigit (drop n s) = endsWithDigit s.
Proof. intros H. unfold endsWithDigit. now rewrite lastByte_drop. Qed.

(** A string of digits that [parseDigits] accepts ends with a digit. *)
Lemma parseDigits_ends (s : string) (n v : Z) :
  strconv.parseDigits n s = inl v ->
  s <> EmptyString -> endsWithDigit s = true.
Proof.
  revert n; induction s as [|c t IH]; intros n H Hs; [congruence|].
  simpl in H.
  destruct ((0 <=? byteVal c - 48) && (byteVal c - 48 <=? 9)) eqn:Hd;
    [|discriminate].
  destruct (strconv.maxUint64 <? n * 10 + (byteVal c - 48)); [discriminate|].
  destruct t as [|c' t'].
  - unfold endsWithDigit, isAsciiDigit. simpl.
    apply andb_true_iff in Hd. destruct Hd as [H1 H2].
    apply Z.leb_le in H1, H2. apply andb_true_iff. split; apply Z.leb_le; lia.
  - rewrite endsWithDigit_cons by discriminate.
    eapply IH; [exact H | discriminate].
Qed.

Section NaturalOrderFacts.

Variable digitTable : Z -> bool.

Local Abbreviation isD := (IsDigit digitTable).
Local Abbreviation nonD := (isNonDigit digitTable).

Lemma IsDigit_ascii (c : ascii) : isAsciiDigit c = isD (byteVal c).
Proof.
  unfold IsDigit, unicode.IsDigit, unicode.MaxLatin1, isAsciiDigit.
  pose proof (byteVal_range c).
  destruct (byteVal c <=? 255) eqn:E; [reflexivity|].
  apply Z.leb_gt in E. lia.
Qed.

(** A string that starts with a digit and that [Atoi] accepts ends with
    one of the digits 0 to 9. *)
Lemma Atoi_ends (s : string) (r v : Z) (n : nat) :
  utf8.DecodeRuneInString s = (r, n) ->
  isD r = true ->
  strconv.Atoi s = inl v ->
  endsWithDigit s = true.
Proof.
  intros D F A. destruct s as [|c t]; [discriminate|].
  destruct (Ascii.eqb c "-" || Ascii.eqb c "+") eqn:Sg.
  - exfalso.
    assert (Hc : byteVal c = 45 \/ byteVal c = 43).
    { apply orb_true_iff in Sg.
      destruct Sg as [E|E]; apply Ascii.eqb_eq in E; subst c; auto. }
    rewrite decode_ascii in D by lia. inversion D; subst r.
    rewrite <- IsDigit_ascii in F. unfold isAsciiDigit in F.
    apply andb_true_iff in F. destruct F as [F1 F2].
    apply Z.leb_le in F1, F2. lia.
  - unfold strconv.Atoi in A. cbv zeta in A. rewrite Sg in A.
    cbv iota in A.
    destruct (strconv.parseDigits 0 (String c t)) as [un|e] eqn:P;
      [|discriminate].
    eapply parseDigits_ends; [exact P | discriminate].
Qed.

(** ** The shape of one round of [naturalLess] *)

(** Where [strA] has a digit: the string from the first digit on is not
    empty, and its digit run has at least one byte. *)
Lemma digit_start (s : string) :
  strings.IndexFunc s isD <> -1 ->
  let s1 := sliceFrom s (strings.IndexFunc s isD) in
  (Z.to_nat (strings.IndexFunc s isD) < String.length s)%nat /\
  1 <= runEnd digitTable s1 <= len s1 /\
  exists r n, utf8.DecodeRuneInString s1 = (r, n) /\ isD r = true.
Proof.
  intros H s1.
  destruct (IndexFunc_range s isD) as [E|E]; [congruence|].
  destruct (IndexFunc_found s isD H) as (r & n & D & F). fold s1 in D.
  split; [unfold len in E; lia|].
  split; [|now exists r, n].
  assert (Hs1 : 1 <= len s1).
  { unfold s1, sliceFrom. rewrite len_drop; unfold len in *; lia. }
  unfold runEnd.
  assert (F' : nonD r = false) by (unfold isNonDigit; now rewrite F).
  destruct (IndexFunc_head_false s1 nonD r n D F') as [E1|E1].
  - rewrite E1. simpl. lia.
  - destruct (strings.IndexFunc s1 nonD =? -1) eqn:E2; lia.
Qed.

(** A string that ends with one of the digits 0 to 9 has a digit. *)
Lemma indexFunc_ends (fuel : nat) (i : Z) (s : string) :
  (String.length s <= fuel)%nat ->
  endsWithDigit s = true ->
  0 <= i ->
  strings.indexFunc fuel isD i s <> -1.
Proof.
  revert i s; induction fuel as [|fuel IH]; intros i s Hf He Hi.
  - destruct s; simpl in Hf; [discriminate | lia].
  - destruct s as [|c t]; [discriminate|].
    cbn [strings.indexFunc].
    destruct (utf8.DecodeRuneInString (String c t)) as [r n] eqn:D.
    destruct (decode_shape _ _ _ (cons_nonempty c t) D) as [Hn Hk].
    destruct (isD r) eqn:F; [lia|].
    destruct (Nat.eq_dec n (String.length (String c t))) as [En|En].
    + exfalso. unfold endsWithDigit in He.
      rewrite lastByte_byteAt in He by discriminate.
      destruct (byteAt (String c t) (String.length (String c t) - 1))
        as [c'|] eqn:B; [|discriminate].
      destruct (Nat.eq_dec n 1) as [E1|E1].
      * rewrite <- En, E1 in B. simpl in B. inversion B; subst c'.
        assert (byteVal c < 128).
        { unfold isAsciiDigit in He. apply andb_true_iff in He.
          destruct He as [_ He]. apply Z.leb_le in He. lia. }
        rewrite decode_ascii in D by assumption. inversion D; subst r.
        rewrite <- IsDigit_ascii in F. congruence.
      * assert (0x80 <= byteVal c') by (apply (Hk (n - 1)%nat); [lia|]; now rewrite En).
        unfold isAsciiDigit in He. apply andb_true_iff in He.
        destruct He as [_ He]. apply Z.leb_le in He. lia.
    + apply IH.
      * rewrite length_drop. cbn [String.length] in *. lia.
      * rewrite endsWithDigit_drop by lia. exact He.
      * lia.
Qed.

Lemma hasDigit_ends (s : string) :
  endsWithDigit s = true -> strings.IndexFunc s isD <> -1.
Proof. intros H. apply indexFunc_ends; [lia | exact H | lia]. Qed.

End NaturalOrderFacts.

Section NaturalLessFacts.

Variable digitTable : Z -> bool.

Local Abbreviation isD := (IsDigit digitTable).
Local Abbreviation rEnd := (runEnd digitTable).

(** One round of the loop, with the end of the digit runs named. *)
Lemma naturalLessLoop_round (fuel : nat) (strA strB : string) :
  naturalLessLoop digitTable (S fuel) strA strB =
  let posA := strings.IndexFunc strA isD in
  let posB := strings.IndexFunc strB isD in
  if posA =? -1 then
    if posB =? -1 then Returns (String.ltb strA strB) else Returns false
  else if posB =? -1 then Returns true
  else
    if negb (String.eqb (sliceTo strA posA) (sliceTo strB posB)) then
      Returns (String.ltb (sliceTo strA posA) (sliceTo strB posB))
    else
      let a1 := sliceFrom strA posA in
      let b1 := sliceFrom strB posB in
      match strconv.Atoi (sliceTo a1 (rEnd a1)) with
      | inr _ => Panics (cantConvert (sliceTo a1 (rEnd a1)))
      | inl valA =>
        match strconv.Atoi (sliceTo b1 (rEnd b1)) with
        | inr _ => Panics (cantConvert (sliceTo a1 (rEnd a1)))
        | inl valB =>
          if negb (valA =? valB) then Returns (valA <? valB)
          else if negb (rEnd a1 =? rEnd b1) then Returns (rEnd a1 <? rEnd b1)
          else if (len a1 <=? rEnd a1) || (len b1 <=? rEnd b1) then Returns true
          else naturalLessLoop digitTable fuel
                 (sliceFrom a1 (rEnd a1)) (sliceFrom b1 (rEnd b1))
        end
      end.
Proof. reflexivity. Qed.

(** What is left of [strA] after a round is shorter than [strA]. *)
Lemma round_shrinks (s : string) :
  strings.IndexFunc s isD <> -1 ->
  let s1 := sliceFrom s (strings.IndexFunc s isD) in
  (String.length (sliceFrom s1 (rEnd s1)) < String.length s)%nat.
Proof.
  intros H s1. destruct (digit_start digitTable s H) as (Hp & Hq & _).
  fold s1 in Hq. unfold sliceFrom at 1. rewrite length_drop.
  assert (String.length s1 <= String.length s)%nat
    by (unfold s1, sliceFrom; rewrite length_drop; lia).
  unfold len in Hq. lia.
Qed.

(** The rounds given to the loop suffice. *)
Lemma naturalLessLoop_fuel (fuel : nat) (strA strB : string) :
  (String.length strA < fuel)%nat ->
  naturalLessLoop digitTable fuel strA strB <> OutOfFuel.
Proof.
  revert strA strB; induction fuel as [|fuel IH]; intros strA strB Hf; [lia|].
  rewrite naturalLessLoop_round. cbv zeta.
  destruct (strings.IndexFunc strA isD =? -1) eqn:EA.
  { destruct (strings.IndexFunc strB isD =? -1); discriminate. }
  destruct (strings.IndexFunc strB isD =? -1); [discriminate|].
  destruct (negb _); [discriminate|].
  destruct (strconv.Atoi _); [|discriminate].
  destruct (strconv.Atoi _); [|discriminate].
  destruct (negb _); [discriminate|].
  destruct (negb _); [discriminate|].
  destruct (_ || _); [discriminate|].
  apply IH. apply Z.eqb_neq in EA.
  pose proof (round_shrinks strA EA) as H. cbv zeta in H. lia.
Qed.

(** The loop waits for nothing. *)
Lemma naturalLessLoop_no_wait (fuel : nat) (strA strB : string) :
  naturalLessLoop digitTable fuel strA strB <> Blocks.
Proof.
  revert strA strB; induction fuel as [|fuel IH]; intros strA strB;
    [discriminate|].
  rewrite naturalLessLoop_round. cbv zeta.
  destruct (strings.IndexFunc strA isD =? -1).
  { destruct (strings.IndexFunc strB isD =? -1); discriminate. }
  destruct (strings.IndexFunc strB isD =? -1); [discriminate|].
  destruct (negb _); [discriminate|].
  destruct (strconv.Atoi _); [|discriminate].
  destruct (strconv.Atoi _); [|discriminate].
  destruct (negb _); [discriminate|].
  destruct (negb _); [discriminate|].
  destruct (_ || _); [discriminate|].
  apply IH.
Qed.

(** On two equal strings whose digit runs parse, the comparator answers
    whether the string ends with a digit. *)
Lemma naturalLessLoop_same (fuel : nat) (s : string) :
  (String.length s < fuel)%nat ->
  digitRunsParse digitTable fuel s = true ->
  naturalLessLoop digitTable fuel s s = Returns (endsWithDigit s).
Proof.
  revert s; induction fuel as [|fuel IH]; intros s Hf Hp; [lia|].
  rewrite naturalLessLoop_round. cbv zeta.
  cbn [digitRunsParse] in Hp.
  destruct (strings.IndexFunc s isD =? -1) eqn:E.
  - rewrite ltb_irrefl. f_equal.
    destruct (endsWithDigit s) eqn:He; [|reflexivity].
    apply hasDigit_ends with (digitTable := digitTable) in He.
    apply Z.eqb_eq in E. congruence.
  - apply Z.eqb_neq in E.
    destruct (digit_start digitTable s E) as (Hlt & Hq & r & n & D & F).
    pose proof (round_shrinks s E) as Hsh. cbv zeta in Hsh.
    set (s1 := sliceFrom s (strings.IndexFunc s isD)) in *.
    rewrite String.eqb_refl. cbn [negb].
    destruct (strconv.Atoi (sliceTo s1 (rEnd s1))) as [v|e] eqn:A;
      [|discriminate].
    rewrite !Z.eqb_refl. cbn [negb]. rewrite orb_diag.
    assert (Hs : endsWithDigit s1 = endsWithDigit s)
      by (apply endsWithDigit_drop; exact Hlt).
    destruct (len s1 <=? rEnd s1) eqn:L.
    + f_equal. rewrite <- Hs. symmetry.
      apply Z.leb_le in L.
      assert (Hall : sliceTo s1 (rEnd s1) = s1).
      { unfold sliceTo. apply take_all. unfold len in *. lia. }
      rewrite Hall in A.
      exact (Atoi_ends digitTable s1 r v n D F A).
    + apply Z.leb_gt in L. rewrite IH; [| lia | exact Hp].
      f_equal. rewrite <- Hs. apply endsWithDigit_drop. unfold len in *. lia.
Qed.

(** On strings whose digit runs parse, the comparator returns. *)
Lemma naturalLessLoop_returns (fuel fa fb : nat) (strA strB : string) :
  (String.length strA < fuel)%nat ->
  digitRunsParse digitTable fa strA = true ->
  digitRunsParse digitTable fb strB = true ->
  (String.length strA < fa)%nat ->
  (String.length strB < fb)%nat ->
  exists less, naturalLessLoop digitTable fuel strA strB = Returns less.
Proof.
  revert fa fb strA strB; induction fuel as [|fuel IH];
    intros fa fb strA strB Hf PA PB HA HB; [lia|].
  destruct fa as [|fa]; [lia|]. destruct fb as [|fb]; [lia|].
  rewrite naturalLessLoop_round. cbv zeta.
  cbn [digitRunsParse] in PA, PB.
  destruct (strings.IndexFunc strA isD =? -1) eqn:EA.
  { destruct (strings.IndexFunc strB isD =? -1); eauto. }
  destruct (strings.IndexFunc strB isD =? -1) eqn:EB; [eauto|].
  destruct (negb _); [eauto|].
  apply Z.eqb_neq in EA, EB.
  pose proof (round_shrinks strA EA) as SA. cbv zeta in SA.
  pose proof (round_shrinks strB EB) as SB. cbv zeta in SB.
  set (a1 := sliceFrom strA (strings.IndexFunc strA isD)) in *.
  set (b1 := sliceFrom strB (strings.IndexFunc strB isD)) in *.
  destruct (strconv.Atoi (sliceTo a1 (rEnd a1))); [|discriminate].
  destruct (strconv.Atoi (sliceTo b1 (rEnd b1))); [|discriminate].
  destruct (negb _); [eauto|].
  destruct (negb _); [eauto|].
  destruct (len a1 <=? rEnd a1); [cbn [orb]; eauto|].
  destruct (len b1 <=? rEnd b1); [cbn [orb]; eauto|].
  cbn [orb]. apply (IH fa fb); auto; lia.
Qed.

End NaturalLessFacts.

(** ** ASCII strings with short digit runs parse *)

Lemma allAscii_drop (n : nat) (s : string) :
  allAscii s = true -> allAscii (drop n s) = true.
Proof.
  revert s; induction n as [|n IH]; intros [|c t]; simpl; auto.
  intros H. apply andb_true_iff in H. now apply IH.
Qed.

(** On an ASCII string [IndexFunc] looks at the bytes one by one. *)
Lemma indexFunc_ascii (fuel : nat) (f : Z -> bool) (i : Z) (s : string) :
  allAscii s = true ->
  (String.length s <= fuel)%nat ->
  strings.indexFunc fuel f i s =
  match firstByte (fun c => f (byteVal c)) s with
  | Some k => i + Z.of_nat k
  | None => -1
  end.
Proof.
  revert i s; induction fuel as [|fuel IH]; intros i s A L.
  { destruct s; [reflexivity | simpl in L; lia]. }
  destruct s as [|c t]; [reflexivity|].
  cbn [allAscii] in A. apply andb_true_iff in A. destruct A as [Ac At].
  apply Z.ltb_lt in Ac.
  cbn [strings.indexFunc firstByte]. rewrite decode_ascii by exact Ac.
  destruct (f (byteVal c)); [lia|].
  cbn [drop]. rewrite IH; [|exact At | simpl in L; lia].
  destruct (firstByte _ t); cbn [option_map]; lia.
Qed.

Lemma IndexFunc_ascii (f : Z -> bool) (s : string) :
  allAscii s = true ->
  strings.IndexFunc s f =
  match firstByte (fun c => f (byteVal c)) s with
  | Some k => Z.of_nat k
  | None => -1
  end.
Proof.
  intros A. unfold strings.IndexFunc. rewrite indexFunc_ascii by (auto; lia).
  now destruct (firstByte _ s).
Qed.

Lemma firstByte_ext (p q : ascii -> bool) (s : string) :
  (forall c, p c = q c) -> firstByte p s = firstByte q s.
Proof.
  intros H. induction s as [|c t IH]; [reflexivity|].
  cbn [firstByte]. now rewrite H, IH.
Qed.

(** A shorter run before the string makes no run longer. *)
Lemma runsWithin_less (limit r r' : nat) (s : string) :
  (r' <= r)%nat -> runsWithin limit r s = true -> runsWithin limit r' s = true.
Proof.
  revert r r'; induction s as [|c t IH]; intros r r' L; [reflexivity|].
  cbn [runsWithin]. destruct (isAsciiDigit c); [|auto].
  intros H. apply andb_true_iff in H. destruct H as [H1 H2].
  apply Nat.leb_le in H1. apply andb_true_iff. split.
  - apply Nat.leb_le. lia.
  - apply (IH (S r) (S r')); [lia | exact H2].
Qed.

(** The string from its first digit on has no long run either. *)
Lemma runsWithin_firstDigit (limit k : nat) (s : string) :
  firstByte isAsciiDigit s = Some k ->
  runsWithin limit 0 s = true ->
  runsWithin limit 0 (drop k s) = true.
Proof.
  revert k; induction s as [|c t IH]; intros k; [discriminate|].
  cbn [firstByte runsWithin]. destruct (isAsciiDigit c) eqn:Dc.
  - intros H. injection H as <-. cbn [drop runsWithin]. now rewrite Dc.
  - destruct (firstByte isAsciiDigit t) as [k'|]; [|discriminate].
    cbn [option_map]. intros H. injection H as <-. cbn [drop]. now apply IH.
Qed.

(** The digits at the start of a string: how many they are, given that
    [r] digits come before, and what is left after them. *)
Lemma run_at_start (limit r : nat) (s : string) :
  runsWithin limit r s = true ->
  exists q,
    (match firstByte (fun c => negb (isAsciiDigit c)) s with
     | Some k => k
     | None => String.length s
     end = q) /\
    (q = 0 \/ r + q <= limit)%nat /\
    (q <= String.length s)%nat /\
    runsWithin limit 0 (drop q s) = true /\
    (forall n, exists v, strconv.parseDigits n (take q s) = inl v \/
                         exists e, strconv.parseDigits n (take q s) = inr e) /\
    (forall n k, 0 <= n < 10 ^ Z.of_nat k ->
                 (k + q <= 19)%nat ->
                 exists v, strconv.parseDigits n (take q s) = inl v /\
                           0 <= v < 10 ^ Z.of_nat (k + q)).
Proof.
  revert r; induction s as [|c t IH]; intros r R.
  { exists 0%nat. cbn. repeat split; auto; try lia.
    - intros n. exists n. now left.
    - intros n k Hn Hk. exists n. rewrite Nat.add_0_r. split; [reflexivity | lia]. }
  cbn [runsWithin firstByte] in *. destruct (isAsciiDigit c) eqn:Dc; cbn [negb].
  - apply andb_true_iff in R. destruct R as [R1 R2]. apply Nat.leb_le in R1.
    destruct (IH (S r) R2) as (q & Hq & Hlim & Hlen & Hrest & _ & Hparse).
    exists (S q). split.
    { destruct (firstByte _ t); cbn [option_map String.length]; congruence. }
    split; [right; lia|]. split; [cbn [String.length]; lia|].
    split; [exact Hrest|]. split.
    { intros n. destruct (strconv.parseDigits n (take (S q) (String c t))) as [v|e].
      - exists v. now left.
      - exists 0. right. now exists e. }
    intros n k Hn Hk. cbn [take strconv.parseDigits].
    unfold isAsciiDigit in Dc. apply andb_true_iff in Dc. destruct Dc as [D1 D2].
    apply Z.leb_le in D1, D2.
    assert (Hd : (0 <=? byteVal c - 48) && (byteVal c - 48 <=? 9) = true)
      by (apply andb_true_iff; split; apply Z.leb_le; lia).
    rewrite Hd.
    assert (Hb : 0 <= n * 10 + (byteVal c - 48) < 10 ^ Z.of_nat (S k)).
    { rewrite Nat2Z.inj_succ, Z.pow_succ_r by lia. lia. }
    assert (Hmax : 10 ^ Z.of_nat (S k) <= strconv.maxUint64).
    { apply Z.le_trans with (10 ^ 19); [|vm_compute; discriminate].
      apply Z.pow_le_mono_r; lia. }
    destruct (strconv.maxUint64 <? n * 10 + (byteVal c - 48)) eqn:Ov;
      [apply Z.ltb_lt in Ov; lia|].
    destruct (Hparse (n * 10 + (byteVal c - 48)) (S k) Hb ltac:(lia))
      as (v & Hv & Hvb).
    exists v. split; [exact Hv|].
    replace (k + S q)%nat with (S k + q)%nat by lia. exact Hvb.
  - exists 0%nat. cbn. rewrite Dc. cbn. split; [reflexivity|].
    split; [now left|]. split; [lia|]. split; [exact R|]. split.
    + intros n. exists n. now left.
    + intros n k Hn Hk. exists n. rewrite Nat.add_0_r. split; [reflexivity | lia].
Qed.

Section ShortRuns.

Variable digitTable : Z -> bool.

Local Abbreviation isD := (IsDigit digitTable).
Local Abbreviation nonD := (isNonDigit digitTable).

Lemma firstDigit_ascii (s : string) :
  allAscii s = true ->
  strings.IndexFunc s isD =
  match firstByte isAsciiDigit s with
  | Some k => Z.of_nat k
  | None => -1
  end.
Proof.
  intros A. rewrite IndexFunc_ascii by exact A.
  rewrite (firstByte_ext _ isAsciiDigit); [reflexivity|].
  intros c. symmetry. apply IsDigit_ascii.
Qed.

Lemma runEnd_ascii (s : string) :
  allAscii s = true ->
  runEnd digitTable s =
  Z.of_nat match firstByte (fun c => negb (isAsciiDigit c)) s with
           | Some k => k
           | None => String.length s
           end.
Proof.
  intros A. unfold runEnd. rewrite IndexFunc_ascii by exact A.
  rewrite (firstByte_ext _ (fun c => negb (isAsciiDigit c))).
  2:{ intros c. unfold isNonDigit. now rewrite <- IsDigit_ascii. }
  destruct (firstByte _ s) as [k|].
  - destruct (Z.of_nat k =? -1) eqn:E; [lia | reflexivity].
  - reflexivity.
Qed.

(** The byte at the index [firstByte] answers satisfies the test. *)
Lemma firstByte_head (p : ascii -> bool) (s : string) (k : nat) :
  firstByte p s = Some k ->
  exists c t, drop k s = String c t /\ p c = true.
Proof.
  revert k; induction s as [|c t IH]; intros k; [discriminate|].
  cbn [firstByte]. destruct (p c) eqn:Pc.
  - intros H. injection H as <-. now exists c, t.
  - destruct (firstByte p t) as [k'|]; [|discriminate].
    cbn [option_map]. intros H. injection H as <-. cbn [drop]. now apply IH.
Qed.

(** [strconv.Atoi] accepts a run of at most 18 digits. *)
Lemma Atoi_short_run (c : ascii) (t : string) (q : nat) (v : Z) :
  isAsciiDigit c = true ->
  strconv.parseDigits 0 (take (S q) (String c t)) = inl v ->
  0 <= v < 10 ^ 18 ->
  strconv.Atoi (take (S q) (String c t)) = inl v.
Proof.
  intros Dc Hv Hb. cbn [take] in *. unfold strconv.Atoi.
  assert (S1 : Ascii.eqb c "-" = false)
    by (apply Ascii.eqb_neq; intros ->; discriminate).
  assert (S2 : Ascii.eqb c "+" = false)
    by (apply Ascii.eqb_neq; intros ->; discriminate).
  rewrite S1, S2. cbn [orb]. cbv iota. rewrite Hv.
  assert (Hr : (strconv.minInt <=? v) && (v <=? strconv.maxInt) = true).
  { apply andb_true_iff. split; apply Z.leb_le.
    - assert (strconv.minInt <= 0) by (vm_compute; discriminate). lia.
    - assert (10 ^ 18 <= strconv.maxInt) by (vm_compute; discriminate). lia. }
  now rewrite Hr.
Qed.

(** An ASCII string with no run of more than 18 digits has digit runs that
    [strconv.Atoi] accepts. *)
Lemma digitRunsParse_short (fuel : nat) (s : string) :
  allAscii s = true ->
  runsWithin 18 0 s = true ->
  digitRunsParse digitTable fuel s = true.
Proof.
  revert s; induction fuel as [|fuel IH]; intros s A R; [reflexivity|].
  cbn [digitRunsParse]. rewrite firstDigit_ascii by exact A.
  destruct (firstByte isAsciiDigit s) as [k|] eqn:F; [|reflexivity].
  destruct (Z.of_nat k =? -1) eqn:E; [reflexivity|].
  unfold sliceFrom, sliceTo. rewrite !Nat2Z.id.
  pose proof (allAscii_drop k s A) as A1.
  pose proof (runsWithin_firstDigit 18 k s F R) as R1.
  destruct (firstByte_head _ _ _ F) as (c & t & Hs1 & Dc).
  rewrite Hs1 in *. clear Hs1 F E.
  rewrite runEnd_ascii by exact A1.
  destruct (run_at_start 18 0 (String c t) R1)
    as (q & Hq & Hlim & Hlen & Hrest & _ & Hparse).
  rewrite Hq. rewrite !Nat2Z.id.
  assert (Hpos : exists q', q = S q').
  { cbn [firstByte] in Hq. rewrite Dc in Hq. cbn [negb] in Hq.
    destruct (firstByte _ t) as [k'|]; cbn in Hq; subst q; eauto. }
  destruct Hpos as [q' ->].
  assert (H0 : 0 <= 0 < 10 ^ Z.of_nat 0) by (cbn; lia).
  assert (H19 : (0 + S q' <= 19)%nat) by lia.
  destruct (Hparse 0 0%nat H0 H19) as (v & Hv & Hvb).
  rewrite (Atoi_short_run c t q' v Dc Hv).
  2:{ destruct Hvb as [Hv0 Hv1]. split; [exact Hv0|].
      apply Z.lt_le_trans with (10 ^ Z.of_nat (0 + S q')); [exact Hv1|].
      apply Z.pow_le_mono_r; lia. }
  destruct (len (String c t) <=? Z.of_nat (S q')); [reflexivity|].
  apply IH; [now apply allAscii_drop | exact Hrest].
Qed.

Lemma parses_short (s : string) :
  allAscii s = true -> runsWithin 18 0 s = true -> parses digitTable s = true.
Proof. intros A R. now apply digitRunsParse_short. Qed.

End ShortRuns.

(** ** filepath.Match: malformed patterns *)

Section MalformedPatterns.

Import filepath.

(** Whether a class is well formed, and where it ends, does not depend on
  the rune it is matched against. *)
Lemma parseRanges_indep (fuel : nat) (r r' : Z) (chunk : string)
    (m m' : bool) (nrange : nat) :
afterClass (parseRanges fuel r chunk m nrange) =
afterClass (parseRanges fuel r' chunk m' nrange).
Proof.
revert chunk m m' nrange; induction fuel as [|fuel IH];
  intros chunk m m' nrange; [reflexivity|].
cbn [parseRanges]. destruct chunk as [|c t]; [reflexivity|].
destruct (Ascii.eqb c "]" && (0 <? nrange)%nat); [reflexivity|].
destruct (getEsc (String c t)) as [[lo chunk1]|e]; [|reflexivity].
destruct chunk1 as [|c1 t1]; [reflexivity|].
destruct (Ascii.eqb c1 "-").
- destruct (getEsc t1) as [[hi chunk2]|e]; [|reflexivity]. apply IH.
- apply IH.
Qed.

Lemma parseRanges_shrinks (fuel : nat) (r : Z) (chunk : string)
    (m : bool) (nrange : nat) (m' : bool) (chunk' : string) :
parseRanges fuel r chunk m nrange = Ok (m', chunk') ->
(String.length chunk' < String.length chunk)%nat.
Proof.
revert chunk m nrange; induction fuel as [|fuel IH];
  intros chunk m nrange; [discriminate|].
cbn [parseRanges]. destruct chunk as [|c t]; [discriminate|].
destruct (Ascii.eqb c "]" && (0 <? nrange)%nat).
{ intros H; inversion H; subst. simpl. lia. }
assert (G : forall ch lo ch1, getEsc ch = Ok (lo, ch1) ->
                         (String.length ch1 < String.length ch)%nat).
{ intros ch lo ch1. unfold getEsc. destruct ch as [|a b]; [discriminate|].
  destruct (Ascii.eqb a "-" || Ascii.eqb a "]"); [discriminate|].
  destruct (isEmpty (if Ascii.eqb a "\" then b else String a b)) eqn:Em;
    [discriminate|].
  destruct (utf8.DecodeRuneInString _) as [r0 n0] eqn:D.
  destruct ((r0 =? utf8.RuneError) && (n0 =? 1)%nat); [discriminate|].
  destruct (isEmpty (drop n0 _)); [discriminate|].
  intros H; inversion H; subst. rewrite length_drop.
  assert (Hne : (if Ascii.eqb a "\" then b else String a b) <> EmptyString)
    by (intros E0; rewrite E0 in Em; discriminate).
  pose proof (decode_width _ _ _ Hne D).
  destruct (Ascii.eqb a "\"); cbn [String.length] in *; lia. }
destruct (getEsc (String c t)) as [[lo chunk1]|e] eqn:G1; [|discriminate].
apply G in G1.
destruct chunk1 as [|c1 t1]; [discriminate|].
destruct (Ascii.eqb c1 "-").
- destruct (getEsc t1) as [[hi chunk2]|e] eqn:G2; [|discriminate].
  apply G in G2. intros H. apply IH in H. cbn [String.length] in *. lia.
- intros H. apply IH in H. cbn [String.length] in *. lia.
Qed.

(** Whether [matchChunk] reports a malformed chunk does not depend on the
  string it is matched against. *)
Lemma matchChunkLoop_indep (fuel : nat) (chunk s : string) (failed : bool) :
isErr (matchChunkLoop fuel chunk s failed) =
isErr (matchChunkLoop fuel chunk EmptyString true).
Proof.
revert chunk s failed; induction fuel as [|fuel IH]; intros chunk s failed.
{ simpl. destruct chunk; now destruct failed. }
destruct chunk as [|c0 ctail]; [now destruct failed|].
cbn [matchChunkLoop]. cbn [orb isEmpty].
destruct (Ascii.eqb c0 "[").
- destruct (if failed || isEmpty s then (0, s)
            else let '(r, n) := utf8.DecodeRuneInString s in (r, drop n s))
    as [r s1].
  destruct (match ctail with
            | EmptyString => (false, ctail)
            | String c1 t1 => if Ascii.eqb c1 "^" then (true, t1) else (false, ctail)
            end) as [negated chunk1].
  pose proof (parseRanges_indep (S (String.length chunk1)) r 0 chunk1 false false 0) as H.
  destruct (parseRanges (S (String.length chunk1)) r chunk1 false 0)
    as [[m c]|e];
    destruct (parseRanges (S (String.length chunk1)) 0 chunk1 false 0)
    as [[m' c']|e']; simpl in H; try discriminate; try reflexivity.
  inversion H; subst c'. apply IH.
- destruct (Ascii.eqb c0 "?").
  + destruct (failed || isEmpty s); [apply IH|].
    destruct s as [|s0 stl]; [apply IH|].
    destruct (utf8.DecodeRuneInString (String s0 stl)). apply IH.
  + destruct (if Ascii.eqb c0 "\" then ctail else String c0 ctail)
      as [|c1 ctail1]; [reflexivity|].
    destruct (failed || isEmpty s); [apply IH|].
    destruct s as [|s0 stl]; apply IH.
Qed.

Lemma matchChunk_indep (chunk s s' : string) :
isErr (matchChunk chunk s) = isErr (matchChunk chunk s').
Proof.
unfold matchChunk. rewrite matchChunkLoop_indep. symmetry.
now rewrite matchChunkLoop_indep.
Qed.

(** *** scanChunk takes bytes from the pattern *)

Lemma scanLoop_length (inrange : bool) (pattern chunk rest : string) :
scanLoop inrange pattern = (chunk, rest) ->
(String.length chunk + String.length rest = String.length pattern)%nat.
Proof.
assert (Hle : (String.length pattern <= String.length pattern)%nat) by lia.
revert Hle. generalize (String.length pattern) at 2. intros k.
revert pattern inrange chunk rest.
induction k as [|k IHk]; intros pattern inrange chunk rest Hle.
{ destruct pattern; simpl in Hle; [|lia]. intros H; inversion H; reflexivity. }
assert (IH : forall p, (String.length p < String.length pattern)%nat ->
                  forall i ch rs, scanLoop i p = (ch, rs) ->
                  (String.length ch + String.length rs = String.length p)%nat).
{ intros p Hp i ch rs. apply IHk. lia. }
clear IHk. destruct pattern as [|c t]; cbn [scanLoop].
{ intros H; inversion H; reflexivity. }
destruct (Ascii.eqb c "\").
{ destruct t as [|c' t'].
  - intros H; inversion H; reflexivity.
  - destruct (scanLoop inrange t') as [ch rs] eqn:E.
    apply IH in E; [|simpl; lia]. intros H; inversion H; subst. simpl. lia. }
destruct (Ascii.eqb c "[").
{ destruct (scanLoop true t) as [ch rs] eqn:E. apply IH in E; [|simpl; lia].
  intros H; inversion H; subst. simpl. lia. }
destruct (Ascii.eqb c "]").
{ destruct (scanLoop false t) as [ch rs] eqn:E. apply IH in E; [|simpl; lia].
  intros H; inversion H; subst. simpl. lia. }
destruct (Ascii.eqb c "*" && negb inrange).
{ intros H; inversion H; subst. reflexivity. }
destruct (scanLoop inrange t) as [ch rs] eqn:E. apply IH in E; [|simpl; lia].
intros H; inversion H; subst. simpl. lia.
Qed.

Lemma scanLoop_empty_chunk (pattern rest : string) :
scanLoop false pattern = (EmptyString, rest) ->
pattern = EmptyString \/ exists t, pattern = String "*" t.
Proof.
destruct pattern as [|c t]; [now left|]. cbn [scanLoop].
destruct (Ascii.eqb c "\").
{ destruct t; [discriminate|]. destruct (scanLoop false t); discriminate. }
destruct (Ascii.eqb c "["); [destruct (scanLoop true t); discriminate|].
destruct (Ascii.eqb c "]"); [destruct (scanLoop false t); discriminate|].
destruct (Ascii.eqb c "*" && negb false) eqn:E.
- intros _. right. exists t. apply andb_true_iff in E. destruct E as [E _].
  apply Ascii.eqb_eq in E. now subst.
- destruct (scanLoop false t); discriminate.
Qed.

Lemma skipStars_spec (pattern : string) :
let '(star, p) := skipStars pattern in
(String.length p <= String.length pattern)%nat /\
(star = true -> (String.length p < String.length pattern)%nat) /\
(star = false -> p = pattern) /\
(forall t, p <> String "*" t).
Proof.
induction pattern as [|c t IH]; simpl.
{ repeat split; auto; try discriminate. }
destruct (Ascii.eqb c "*") eqn:E.
- destruct (skipStars t) as [st p]. simpl.
  destruct IH as (H1 & H2 & H3 & H4). repeat split; auto; try lia; discriminate.
- repeat split; auto; try discriminate.
  intros t' H. inversion H; subst. discriminate.
Qed.

(** A round of [Match] on a pattern that is not empty takes at least one
  byte of it; after a chunk that is only stars nothing is left. *)
Lemma scanChunk_spec (pattern chunk rest : string) (star : bool) :
pattern <> EmptyString ->
scanChunk pattern = (star, chunk, rest) ->
(String.length rest < String.length pattern)%nat /\
(isEmpty chunk = true -> star = true /\ rest = EmptyString).
Proof.
intros Hp. unfold scanChunk.
pose proof (skipStars_spec pattern) as S.
destruct (skipStars pattern) as [st p].
destruct S as (H1 & H2 & H3 & H4).
destruct (scanLoop false p) as [ch rs] eqn:E.
intros H; inversion H; subst; clear H.
pose proof (scanLoop_length _ _ _ _ E) as L.
assert (Hc : isEmpty chunk = true -> star = true /\ rest = EmptyString).
{ intros Em. destruct chunk; [|discriminate].
  destruct (scanLoop_empty_chunk _ _ E) as [P|[t P]].
  - subst p. simpl in E. inversion E; subst. split; [|reflexivity].
    destruct star; [reflexivity|]. rewrite H3 in Hp by reflexivity. congruence.
  - exfalso. exact (H4 t P). }
split; [|exact Hc].
destruct star.
- specialize (H2 eq_refl). lia.
- rewrite H3 in * by reflexivity.
  destruct chunk as [|c0 ct].
  + destruct (Hc eq_refl); discriminate.
  + simpl in L. lia.
Qed.

End MalformedPatterns.

Section MatchFacts.

Import filepath.

Lemma matchChunk_empty_chunk (s : string) :
matchChunk EmptyString s = Ok (Some s).
Proof. reflexivity. Qed.

Lemma getEsc_error (chunk : string) (e : error) :
getEsc chunk = Err e -> e = ErrBadPattern.
Proof.
unfold getEsc. destruct chunk as [|c t]; [congruence|].
destruct (_ || _); [congruence|].
destruct (isEmpty _); [congruence|].
destruct (utf8.DecodeRuneInString _) as [r n].
destruct (_ && _); [congruence|].
destruct (isEmpty _); [congruence | discriminate].
Qed.

(** ** filepath.Match on the pattern "*.mp3" *)

(** A round of [matchChunk] on a byte of the chunk that stands for itself. *)
Lemma matchChunkLoop_literal (fuel : nat) (c : ascii) (ctail s : string)
    (failed : bool) :
Ascii.eqb c "[" = false -> Ascii.eqb c "?" = false -> Ascii.eqb c "\" = false ->
matchChunkLoop (S fuel) (String c ctail) s failed =
match s with
| String s0 stail =>
  if failed then matchChunkLoop fuel ctail s true
  else matchChunkLoop fuel ctail stail (negb (Ascii.eqb c s0))
| EmptyString => matchChunkLoop fuel ctail s true
end.
Proof.
intros H1 H2 H3. cbn [matchChunkLoop]. rewrite H1, H2, H3.
destruct failed, s; reflexivity.
Qed.

Lemma matchChunkLoop_failed (fuel : nat) (chunk s : string) :
(forall s', isErr (matchChunkLoop fuel chunk s' true) = false) ->
matchChunkLoop fuel chunk s true = Ok None.
Proof.
revert chunk s; induction fuel as [|fuel IH]; intros chunk s H.
{ now destruct chunk. }
destruct chunk as [|c0 ctail]; [reflexivity|].
specialize (H s). revert H. cbn [matchChunkLoop orb].
destruct (Ascii.eqb c0 "[").
- destruct (match ctail with
            | EmptyString => (false, ctail)
            | String c1 t1 => if Ascii.eqb c1 "^" then (true, t1) else (false, ctail)
            end) as [negated chunk1].
  destruct (parseRanges (S (String.length chunk1)) 0 chunk1 false 0)
    as [[m c]|e]; [|discriminate].
  intros H. apply IH. intros s'. rewrite matchChunkLoop_indep.
  rewrite <- (matchChunkLoop_indep fuel c s true). exact H.
- destruct (Ascii.eqb c0 "?").
  + intros H. apply IH. intros s'. rewrite matchChunkLoop_indep.
    rewrite <- (matchChunkLoop_indep fuel ctail s true). exact H.
  + destruct (if Ascii.eqb c0 "\" then ctail else String c0 ctail)
      as [|c1 ctail1]; [discriminate|].
    intros H. apply IH. intros s'. rewrite matchChunkLoop_indep.
    rewrite <- (matchChunkLoop_indep fuel ctail1 s true). exact H.
Qed.

Lemma matchChunk_mp3 (s : string) :
matchChunk mp3 s = Ok (if String.eqb (take 4 s) mp3 then Some (drop 4 s) else None).
Proof.
unfold matchChunk, mp3. cbn [String.length].
assert (F : forall fuel chunk s',
           matchChunkLoop fuel chunk EmptyString true = Ok None ->
           matchChunkLoop fuel chunk s' true = Ok None).
{ intros fuel chunk s' H. apply matchChunkLoop_failed. intros s''.
  rewrite matchChunkLoop_indep, H. reflexivity. }
destruct s as [|c0 s]; [reflexivity|].
rewrite matchChunkLoop_literal by reflexivity. cbn [take String.eqb].
rewrite (Ascii.eqb_sym c0 "."). destruct (Ascii.eqb "." c0); cbn [negb];
  [|apply F; reflexivity].
destruct s as [|c1 s]; [reflexivity|].
rewrite matchChunkLoop_literal by reflexivity. cbn [take String.eqb].
rewrite (Ascii.eqb_sym c1 "m"). destruct (Ascii.eqb "m" c1); cbn [negb];
  [|apply F; reflexivity].
destruct s as [|c2 s]; [reflexivity|].
rewrite matchChunkLoop_literal by reflexivity. cbn [take String.eqb].
rewrite (Ascii.eqb_sym c2 "p"). destruct (Ascii.eqb "p" c2); cbn [negb];
  [|apply F; reflexivity].
destruct s as [|c3 s]; [reflexivity|].
rewrite matchChunkLoop_literal by reflexivity. cbn [take String.eqb drop].
rewrite (Ascii.eqb_sym c3 "3"). destruct (Ascii.eqb "3" c3); cbn [negb];
  [|apply F; reflexivity].
reflexivity.
Qed.

Lemma take4_mp3_no_separator (s : string) :
String.eqb (take 4 s) mp3 = true ->
isEmpty (drop 4 s) = true ->
strings.ContainsByte s Separator = false.
Proof.
intros H1 H2. apply String.eqb_eq in H1.
rewrite <- (take_drop 4 s). rewrite H1.
destruct (drop 4 s); [reflexivity | discriminate].
Qed.

Lemma skipLoop_mp3 (name t' : string) :
skipLoop mp3 true name = Ok (Some t') ->
t' = EmptyString /\ strings.ContainsByte name Separator = false.
Proof.
revert t'; induction name as [|c t IH]; intros t'; [discriminate|].
cbn [skipLoop]. unfold isSep. destruct (Ascii.eqb c Separator) eqn:Ec;
  [discriminate|].
rewrite matchChunk_mp3.
cbn [strings.ContainsByte]. rewrite Ec. cbn [orb].
destruct (String.eqb (take 4 t) mp3) eqn:E4; [|apply IH].
remember (drop 4 t) as d eqn:Hd.
cbn [andb]. destruct (isEmpty d) eqn:Em; cbn [negb]; [|apply IH].
intros H. injection H as H. split.
- rewrite <- H. destruct d; [reflexivity|discriminate].
- apply take4_mp3_no_separator; [exact E4 | now rewrite <- Hd].
Qed.

(** The pattern "*.mp3" matches no path that contains a separator. *)
Lemma Match_mp3_no_separator (name : string) :
Match "*.mp3" name = Ok true ->
strings.ContainsByte name Separator = false.
Proof.
unfold Match. cbn [String.length MatchLoop isEmpty].
change (scanChunk "*.mp3") with (true, mp3, EmptyString).
cbn [andb isEmpty orb negb String.length].
rewrite matchChunk_mp3.
assert (Hskip :
  match skipLoop mp3 true name with
  | Ok (Some t') => MatchLoop 4 EmptyString t'
  | Ok None => Ok false
  | Err e => Err e
  end = Ok true -> strings.ContainsByte name Separator = false).
{ destruct (skipLoop mp3 true name) as [[t'|]|e] eqn:S; try discriminate.
  intros _. now destruct (skipLoop_mp3 _ _ S). }
destruct (String.eqb (take 4 name) mp3) eqn:E4; [|exact Hskip].
destruct (isEmpty (drop 4 name)) eqn:Em; [|exact Hskip].
intros _. now apply take4_mp3_no_separator.
Qed.

End MatchFacts.

(** ** The discovery walk *)

(** Induction on file trees. *)
Lemma node_induction (P : fs.node -> Prop) :
  P fs.File ->
  (forall entries readErr,
      Forall (fun e => P (snd e)) entries -> P (fs.Dir entries readErr)) ->
  forall n, P n.
Proof.
  intros HF HD. fix IH 1. intros [|entries readErr]; [exact HF|].
  apply HD. induction entries as [|[name1 n1] rest IHrest]; constructor.
  - apply IH.
  - exact IHrest.
Qed.

Lemma matchGlobs_spec (dir relpath : string) (fileGlobs : list string)
      (found : list fileRecord) :
  matchGlobs dir relpath fileGlobs found =
  if matchesAny fileGlobs relpath then (found ++ [recordOf dir relpath])%list
  else found.
Proof.
  induction fileGlobs as [|pattern rest IH]; [reflexivity|].
  cbn [matchGlobs matchesAny existsb].
  destruct (matches pattern relpath); [reflexivity | exact IH].
Qed.

Lemma recordsOf_app (dir : string) (fileGlobs p q : list string) :
  recordsOf dir fileGlobs (p ++ q) =
  (recordsOf dir fileGlobs p ++ recordsOf dir fileGlobs q)%list.
Proof. unfold recordsOf. now rewrite filter_app, map_app. Qed.

Section Walk.

Variables (dir : string) (fileGlobs : list string).

(** On a tree that can be read, the walk ends without an error and has
    appended the records of the matching files, in order. *)
Lemma walkDir_readable (n : fs.node) :
  forall name dname found,
    readable n = true ->
    fs.walkDir (visit dir fileGlobs) name dname n found =
    ((found ++ recordsOf dir fileGlobs (files name n))%list, None).
Proof.
  induction n as [|entries readErr IH] using node_induction;
    intros name dname found R.
  - cbn [fs.walkDir visit fs.isDir fs.IsDir files].
    rewrite matchGlobs_spec. unfold recordsOf. cbn [filter].
    destruct (matchesAny fileGlobs name); cbn [map]; [reflexivity|].
    now rewrite app_nil_r.
  - cbn [fs.walkDir visit fs.isDir fs.IsDir files].
    cbn [readable] in R. destruct readErr as [e|]; [discriminate|].
    revert found R.
    induction IH as [|[name1 n1] rest H1 _ IHrest]; intros found R.
    + unfold recordsOf. cbn. now rewrite app_nil_r.
    + apply andb_true_iff in R. destruct R as [R1 R2]. cbn [snd] in H1.
      rewrite H1 by exact R1. cbn [fs.isSkipDir].
      rewrite IHrest by exact R2.
      rewrite recordsOf_app, app_assoc. reflexivity.
Qed.

(** On a tree with a directory that cannot be read, the walk ends with the
    error of the system. *)
Lemma walkDir_unreadable (n : fs.node) :
  forall name dname found,
    readable n = false ->
    exists found' e,
      fs.walkDir (visit dir fileGlobs) name dname n found =
      (found', Some (SysError e)).
Proof.
  induction n as [|entries readErr IH] using node_induction;
    intros name dname found R; [discriminate|].
  cbn [fs.walkDir visit fs.isDir fs.IsDir].
  cbn [readable] in R. destruct readErr as [e|].
  { exists found, e. reflexivity. }
  revert found R.
  induction IH as [|[name1 n1] rest H1 _ IHrest]; intros found R;
    [discriminate|].
  cbn [snd] in H1. destruct (readable n1) eqn:R1.
  - rewrite walkDir_readable by exact R1. cbn [andb] in R.
    apply IHrest. exact R.
  - destruct (H1 (filepath.Join [name; name1]) name1 found eq_refl)
      as (found' & e & ->).
    exists found', e. reflexivity.
Qed.

End Walk.

(** What [searchRecords] answers, by cases on the tree. *)
Lemma searchRecords_spec (dir : string) (fsys : fs.FS) (fileGlobs : list string) :
  match fsys with
  | fs.NoRoot e =>
    searchRecords dir fsys fileGlobs = Err (Errorf WalkingDir (SysError e))
  | fs.Root root =>
    if readable root then
      searchRecords dir fsys fileGlobs =
      match recordsOf dir fileGlobs (files "." root) with
      | [] => Err errNoFilesFound
      | found => Ok found
      end
    else
      exists e, searchRecords dir fsys fileGlobs =
                Err (Errorf WalkingDir (SysError e))
  end.
Proof.
  unfold searchRecords, fs.WalkDir. destruct fsys as [root|e].
  - destruct (readable root) eqn:R.
    + rewrite walkDir_readable by exact R. cbn [app].
      now destruct (recordsOf dir fileGlobs (files "." root)).
    + destruct (walkDir_unreadable dir fileGlobs root "." "." [] R)
        as (found' & e & ->).
      exists e. reflexivity.
  - reflexivity.
Qed.

(** A discovery that succeeds walked a tree that can be read, and found the
    records of its matching files. *)
Lemma searchRecords_found (dir : string) (fsys : fs.FS)
      (fileGlobs : list string) (found : list fileRecord) :
  searchRecords dir fsys fileGlobs = Ok found ->
  exists root,
    fsys = fs.Root root /\
    readable root = true /\
    found = recordsOf dir fileGlobs (files "." root).
Proof.
  intros H. pose proof (searchRecords_spec dir fsys fileGlobs) as S.
  destruct fsys as [root|e]; [|congruence].
  exists root. split; [reflexivity|].
  destruct (readable root).
  - split; [reflexivity|]. rewrite S in H.
    destruct (recordsOf dir fileGlobs (files "." root)); [discriminate | congruence].
  - destruct S as [e S]. congruence.
Qed.

(** ** The errors of filepath.Match *)

Section MatchErrors.

Import filepath.

Lemma parseRanges_error (fuel : nat) (r : Z) (chunk : string) (m : bool)
    (nrange : nat) (e : error) :
parseRanges fuel r chunk m nrange = Err e -> e = ErrBadPattern.
Proof.
revert chunk m nrange; induction fuel as [|fuel IH]; intros chunk m nrange;
  cbn [parseRanges]; [congruence|].
destruct chunk as [|c t]; [congruence|].
destruct (Ascii.eqb c "]" && (0 <? nrange)%nat); [discriminate|].
destruct (getEsc (String c t)) as [[lo chunk1]|e1] eqn:G1.
2:{ intros H; inversion H; subst. eapply getEsc_error; eassumption. }
destruct chunk1 as [|c1 t1]; [congruence|].
destruct (Ascii.eqb c1 "-"); [|apply IH].
destruct (getEsc t1) as [[hi chunk2]|e2] eqn:G2; [apply IH|].
intros H; inversion H; subst. eapply getEsc_error; eassumption.
Qed.

Lemma matchChunkLoop_error (fuel : nat) (chunk s : string) (failed : bool)
    (e : error) :
matchChunkLoop fuel chunk s failed = Err e -> e = ErrBadPattern.
Proof.
revert chunk s failed; induction fuel as [|fuel IH]; intros chunk s failed.
{ simpl. destruct chunk; discriminate. }
destruct chunk as [|c0 ctail]; [discriminate|].
cbn [matchChunkLoop].
destruct (Ascii.eqb c0 "[").
- destruct (if failed || isEmpty s then (0, s)
            else let '(r, n) := utf8.DecodeRuneInString s in (r, drop n s))
    as [r s1].
  destruct (match ctail with
            | EmptyString => (false, ctail)
            | String c1 t1 => if Ascii.eqb c1 "^" then (true, t1) else (false, ctail)
            end) as [negated chunk1].
  destruct (parseRanges (S (String.length chunk1)) r chunk1 false 0)
    as [[m c]|e1] eqn:P; [apply IH|].
  intros H; inversion H; subst. eapply parseRanges_error; eassumption.
- destruct (Ascii.eqb c0 "?").
  + destruct (failed || isEmpty s); [apply IH|].
    destruct s as [|s0 stl]; [apply IH|].
    destruct (utf8.DecodeRuneInString (String s0 stl)). apply IH.
  + destruct (if Ascii.eqb c0 "\" then ctail else String c0 ctail)
      as [|c1 ctail1]; [congruence|].
    destruct (failed || isEmpty s); [apply IH|].
    destruct s as [|s0 stl]; apply IH.
Qed.

Lemma skipLoop_error (chunk : string) (last : bool) (name : string) (e : error) :
skipLoop chunk last name = Err e -> e = ErrBadPattern.
Proof.
induction name as [|c t IH]; [discriminate|].
cbn [skipLoop]. destruct (isSep c); [discriminate|].
destruct (matchChunk chunk t) as [[t'|]|e1] eqn:M; [|exact IH|].
- destruct (last && negb (isEmpty t')); [exact IH | discriminate].
- intros H; inversion H; subst. eapply matchChunkLoop_error; exact M.
Qed.

(** The only error of [Match] is [ErrBadPattern]. *)
Lemma Match_error (pattern name : string) (e : error) :
Match pattern name = Err e -> e = ErrBadPattern.
Proof.
unfold Match. generalize (String.length pattern) as fuel.
intros fuel; revert pattern name; induction fuel as [|fuel IH];
  intros pattern name; cbn [MatchLoop]; [discriminate|].
destruct (isEmpty pattern); [discriminate|].
destruct (scanChunk pattern) as [[star chunk] rest].
destruct (star && isEmpty chunk); [discriminate|].
assert (Hskip : forall r,
  (if star
   then match skipLoop chunk (isEmpty rest) name with
        | Ok (Some t') => MatchLoop fuel rest t'
        | Ok None => Ok false
        | Err e => Err e
        end
   else Ok false) = r ->
  r = Err e -> e = ErrBadPattern).
{ intros r <-. destruct star; [|discriminate].
  destruct (skipLoop chunk (isEmpty rest) name) as [[t'|]|e1] eqn:S;
    [apply IH | discriminate |].
  intros H; inversion H; subst. eapply skipLoop_error; exact S. }
destruct (matchChunk chunk name) as [[t0|]|e1] eqn:M.
- destruct (isEmpty t0 || negb (isEmpty rest)); [apply IH|].
  apply (Hskip _ eq_refl).
- apply (Hskip _ eq_refl).
- intros H; inversion H; subst. eapply matchChunkLoop_error; exact M.
Qed.

(** ** The registration of the patterns *)

(** A set of values that [flag.Parse] accepts is appended to the patterns,
  and [Match] reports none of its patterns as malformed on the empty
  name. *)
Lemma parseGlobFlags_accepts (values fileGlobs registered : list string) :
parseGlobFlags values fileGlobs = Ok registered ->
registered = (fileGlobs ++ values)%list /\
forall pattern, In pattern values -> isErr (Match pattern EmptyString) = false.
Proof.
revert fileGlobs; induction values as [|v rest IH]; intros fileGlobs.
- cbn. intros H; inversion H; subst. rewrite app_nil_r.
  split; [reflexivity | intros ? []].
- cbn [parseGlobFlags]. unfold globFlag.
  destruct (Match v EmptyString) as [b|e] eqn:M; [|discriminate].
  intros H. destruct (IH _ H) as [-> Hrest]. split.
  + now rewrite <- app_assoc.
  + intros pattern [<-|Hin]; [|now apply Hrest].
    rewrite M. reflexivity.
Qed.

(** A set of values is accepted when [Match] reports none of its patterns
  as malformed on the empty name. *)
Lemma parseGlobFlags_accepted (values fileGlobs : list string) :
(forall pattern, In pattern values -> isErr (Match pattern EmptyString) = false) ->
parseGlobFlags values fileGlobs = Ok (fileGlobs ++ values)%list.
Proof.
revert fileGlobs; induction values as [|v rest IH]; intros fileGlobs Hall.
- cbn. now rewrite app_nil_r.
- cbn [parseGlobFlags]. unfold globFlag.
  pose proof (Hall v (or_introl eq_refl)) as Hv.
  destruct (Match v EmptyString) as [b|e]; [|discriminate].
  rewrite IH by (intros p Hp; apply Hall; now right).
  now rewrite <- app_assoc.
Qed.

(** A set of values with a pattern that [Match] reports as malformed on
  the empty name is rejected. *)
Lemma parseGlobFlags_rejects (values fileGlobs : list string)
    (pattern : string) :
In pattern values ->
isErr (Match pattern EmptyString) = true ->
parseGlobFlags values fileGlobs = Err ErrBadPattern.
Proof.
revert fileGlobs; induction values as [|v rest IH]; intros fileGlobs Hin Hm;
  [destruct Hin|].
cbn [parseGlobFlags]. unfold globFlag.
destruct (Match v EmptyString) as [b|e] eqn:M.
- destruct Hin as [<-|Hin]; [|now apply IH].
  rewrite M in Hm. discriminate.
- now rewrite (Match_error _ _ _ M).
Qed.

End MatchErrors.

(** ** The stable sort rearranges *)

Section SortFacts.

Context {E : Type}.
Variable cmp : E -> E -> outcome Z.

Lemma set_length (data : list E) (i : nat) (x : E) :
  (i < List.length data)%nat ->
  List.length (slices.set data i x) = List.length data.
Proof.
  intros H. unfold slices.set.
  rewrite length_app, length_firstn. cbn [List.length]. rewrite length_skipn. lia.
Qed.

Lemma nth_error_set (data : list E) (i k : nat) (x : E) :
  (i < List.length data)%nat ->
  nth_error (slices.set data i x) k =
  if (k =? i)%nat then Some x else nth_error data k.
Proof.
  intros H. unfold slices.set.
  assert (L : List.length (firstn i data) = i) by (rewrite length_firstn; lia).
  destruct (Nat.eqb_spec k i) as [->|N].
  - rewrite nth_error_app2 by lia. now rewrite L, Nat.sub_diag.
  - destruct (Nat.lt_ge_cases k i) as [Lt|Ge].
    + rewrite nth_error_app1 by lia. now rewrite nth_error_firstn; destruct (Nat.ltb_spec k i); try lia.
    + rewrite nth_error_app2 by lia. rewrite L.
      destruct (k - i)%nat as [|d] eqn:Ed; [lia|]. cbn [nth_error].
      rewrite nth_error_skipn. f_equal. lia.
Qed.

(** A swap rearranges the slice. *)
Lemma swap_permutation (data data' : list E) (i j : nat) :
  slices.swap data i j = Returns data' -> Permutation data data'.
Proof.
  unfold slices.swap, slices.at_.
  destruct (nth_error data i) as [x|] eqn:Hi; [|discriminate].
  destruct (nth_error data j) as [y|] eqn:Hj; [|discriminate].
  cbn [bind]. intros H. injection H as <-.
  assert (Li : (i < List.length data)%nat) by (apply nth_error_Some; congruence).
  assert (Lj : (j < List.length data)%nat) by (apply nth_error_Some; congruence).
  apply Permutation_nth_error. split.
  - rewrite !set_length; auto. now rewrite set_length.
  - exists (fun k => if (k =? j)%nat then i else if (k =? i)%nat then j else k).
    split.
    + intros a b. destruct (Nat.eqb_spec a j), (Nat.eqb_spec b j),
        (Nat.eqb_spec a i), (Nat.eqb_spec b i); intros; lia.
    + intros k. rewrite nth_error_set by (now rewrite set_length).
      rewrite nth_error_set by assumption.
      destruct (Nat.eqb_spec k j) as [->|Nj]; [now rewrite Hi|].
      destruct (Nat.eqb_spec k i) as [->|Ni]; [now rewrite Hj | reflexivity].
Qed.

Lemma rearranges_returns (data : list E) : rearranges data (Returns data).
Proof. intros data' H. injection H as <-. apply Permutation_refl. Qed.

Lemma rearranges_bind (data : list E) (m : outcome (list E))
      (k : list E -> outcome (list E)) :
  rearranges data m ->
  (forall d, Permutation data d -> rearranges d (k d)) ->
  rearranges data (bind m k).
Proof.
  intros Hm Hk data'. destruct m as [d| | |]; cbn [bind]; try discriminate.
  intros H. specialize (Hm d eq_refl).
  eapply Permutation_trans; [exact Hm|]. now apply (Hk d Hm).
Qed.

Lemma rearranges_swap (data : list E) (i j : nat) :
  rearranges data (slices.swap data i j).
Proof. intros data'. apply swap_permutation. Qed.

Lemma rearranges_if (data : list E) (b : bool) (m1 m2 : outcome (list E)) :
  rearranges data m1 -> rearranges data m2 ->
  rearranges data (if b then m1 else m2).
Proof. now destruct b. Qed.

Lemma rearranges_bind_value {A : Type} (data : list E) (m : outcome A)
      (k : A -> outcome (list E)) :
  (forall a, rearranges data (k a)) -> rearranges data (bind m k).
Proof.
  intros Hk data'. destruct m as [a| | |]; cbn [bind]; try discriminate. apply Hk.
Qed.

Lemma rearranges_perm (d0 data : list E) (m : outcome (list E)) :
  Permutation d0 data -> rearranges data m ->
  forall data', m = Returns data' -> Permutation d0 data'.
Proof. intros P H data' Hm. eapply Permutation_trans; [exact P | now apply H]. Qed.

Lemma insertDown_rearranges (a j : nat) (data : list E) :
  rearranges data (slices.insertDown cmp a j data).
Proof.
  revert data; induction j as [|j IH]; intros data; cbn [slices.insertDown].
  { apply rearranges_returns. }
  apply rearranges_if; [|apply rearranges_returns].
  apply rearranges_bind_value. intros lt.
  apply rearranges_if; [|apply rearranges_returns].
  apply rearranges_bind; [apply rearranges_swap | intros d _; apply IH].
Qed.

Lemma insertionLoop_rearranges (n a i : nat) (data : list E) :
  rearranges data (slices.insertionLoop cmp n a i data).
Proof.
  revert i data; induction n as [|n IH]; intros i data; cbn [slices.insertionLoop].
  { apply rearranges_returns. }
  apply rearranges_bind; [apply insertDown_rearranges | intros d _; apply IH].
Qed.

Lemma swapRangeLoop_rearranges (k i a b : nat) (data : list E) :
  rearranges data (slices.swapRangeLoop k i a b data).
Proof.
  revert i data; induction k as [|k IH]; intros i data; cbn [slices.swapRangeLoop].
  { apply rearranges_returns. }
  apply rearranges_bind; [apply rearranges_swap | intros d _; apply IH].
Qed.

Lemma rotateLoop_rearranges (fuel m i j : nat) (data : list E) :
  rearranges data (slices.rotateLoop fuel m i j data).
Proof.
  revert i j data; induction fuel as [|fuel IH]; intros i j data;
    cbn [slices.rotateLoop]; [discriminate|].
  repeat apply rearranges_if.
  - apply swapRangeLoop_rearranges.
  - apply rearranges_bind; [apply swapRangeLoop_rearranges | intros d _; apply IH].
  - apply rearranges_bind; [apply swapRangeLoop_rearranges | intros d _; apply IH].
Qed.

Lemma bubbleUp_rearranges (n k : nat) (data : list E) :
  rearranges data (slices.bubbleUp n k data).
Proof.
  revert k data; induction n as [|n IH]; intros k data; cbn [slices.bubbleUp].
  { apply rearranges_returns. }
  apply rearranges_bind; [apply rearranges_swap | intros d _; apply IH].
Qed.

Lemma bubbleDown_rearranges (n k : nat) (data : list E) :
  rearranges data (slices.bubbleDown n k data).
Proof.
  revert k data; induction n as [|n IH]; intros k data; cbn [slices.bubbleDown].
  { apply rearranges_returns. }
  apply rearranges_bind; [apply rearranges_swap | intros d _; apply IH].
Qed.

Lemma symMerge_rearranges (fuel : nat) (data : list E) (a m b : nat) :
  rearranges data (slices.symMergeCmpFunc cmp fuel data a m b).
Proof.
  revert data a m b; induction fuel as [|fuel IH]; intros data a m b;
    cbn [slices.symMergeCmpFunc]; [discriminate|].
  apply rearranges_if.
  { apply rearranges_bind_value. intros i. apply bubbleUp_rearranges. }
  apply rearranges_if.
  { apply rearranges_bind_value. intros i. apply bubbleDown_rearranges. }
  destruct (if (_ <? m)%nat then _ else _) as [start r].
  apply rearranges_bind_value. intros start'.
  apply rearranges_bind.
  { apply rearranges_if; [apply rotateLoop_rearranges | apply rearranges_returns]. }
  intros d1 _. apply rearranges_bind.
  { apply rearranges_if; [apply IH | apply rearranges_returns]. }
  intros d2 _. apply rearranges_if; [apply IH | apply rearranges_returns].
Qed.

Lemma sortBlocks_rearranges (fuel blockSize a b n : nat) (data : list E) :
  rearranges data (slices.sortBlocks cmp fuel blockSize a b n data).
Proof.
  revert a b data; induction fuel as [|fuel IH]; intros a b data;
    cbn [slices.sortBlocks]; [discriminate|].
  apply rearranges_if; [|apply insertionLoop_rearranges].
  apply rearranges_bind; [apply insertionLoop_rearranges | intros d _; apply IH].
Qed.

Lemma mergePairs_rearranges (fuel blockSize a b n : nat) (data : list E) :
  rearranges data (slices.mergePairs cmp fuel blockSize a b n data).
Proof.
  revert a b data; induction fuel as [|fuel IH]; intros a b data;
    cbn [slices.mergePairs]; [discriminate|].
  apply rearranges_if.
  - apply rearranges_bind; [apply symMerge_rearranges | intros d _; apply IH].
  - apply rearranges_if; [apply symMerge_rearranges | apply rearranges_returns].
Qed.

Lemma mergeBlocks_rearranges (fuel blockSize n : nat) (data : list E) :
  rearranges data (slices.mergeBlocks cmp fuel blockSize n data).
Proof.
  revert blockSize data; induction fuel as [|fuel IH]; intros blockSize data;
    cbn [slices.mergeBlocks]; [discriminate|].
  apply rearranges_if; [|apply rearranges_returns].
  apply rearranges_bind; [apply mergePairs_rearranges | intros d _; apply IH].
Qed.

(** What [slices.SortStableFunc] returns is a rearrangement of the slice,
    whatever the comparison function answers. *)
Lemma SortStableFunc_permutation (x y : list E) :
  slices.SortStableFunc cmp x = Returns y -> Permutation x y.
Proof.
  unfold slices.SortStableFunc, slices.stableCmpFunc.
  apply rearranges_bind; [apply sortBlocks_rearranges|].
  intros d _. apply mergeBlocks_rearranges.
Qed.

End SortFacts.

(** ** What holds of the comparator on all strings *)

(** The loop of [naturalLess] ends within the rounds the model gives it. *)
Lemma naturalLess_ends (digitTable : Z -> bool) (strA strB : string) :
  (exists less, naturalLess digitTable strA strB = Returns less) \/
  (exists msg, naturalLess digitTable strA strB = Panics msg).
Proof.
  pose proof (naturalLessLoop_fuel digitTable (S (String.length strA)) strA strB
                ltac:(lia)) as H.
  pose proof (naturalLessLoop_no_wait digitTable (S (String.length strA))
                strA strB) as W.
  unfold naturalLess. destruct (naturalLessLoop _ _ _ _) as [less|msg| |];
    [left; now exists less | right; now exists msg | congruence | congruence].
Qed.

(** On two strings whose digit runs are all accepted by [strconv.Atoi] the
    comparator returns. *)
Lemma naturalLess_returns (digitTable : Z -> bool) (strA strB : string) :
  parses digitTable strA = true ->
  parses digitTable strB = true ->
  exists less, naturalLess digitTable strA strB = Returns less.
Proof.
  intros PA PB. unfold naturalLess, parses in *.
  eapply naturalLessLoop_returns; eauto; lia.
Qed.

(** ** What holds of the pipeline on all runs *)

Lemma walked_app (l1 l2 : list event) :
  walked (l1 ++ l2) = (walked l1 ++ walked l2)%list.
Proof.
  induction l1 as [|[dir|h|f] l1 IH]; simpl; [reflexivity| |assumption|assumption].
  now rewrite IH.
Qed.

Lemma opened_app (l1 l2 : list event) :
  opened (l1 ++ l2) = (opened l1 ++ opened l2)%list.
Proof.
  induction l1 as [|[dir|h|f] l1 IH]; simpl; [reflexivity|assumption|assumption|].
  now rewrite IH.
Qed.

Lemma entryNames_app (l1 l2 : list zip.entry) :
  entryNames (l1 ++ l2) = (entryNames l1 ++ entryNames l2)%list.
Proof. apply map_app. Qed.

(** [copyFileTo] logs the opening of the file and nothing else. *)
Lemma copyFileTo_session (w : world) (s s1 : session) (filename written : string)
      (err : option error) :
  copyFileTo w s filename = Returns (s1, written, err) ->
  s1 = logged (Opened filename) s.
Proof.
  unfold copyFileTo. destruct (OpenFile w filename) as [file|errFile].
  - destruct (statErr file) as [errInfo|]; [congruence|].
    destruct (copyErr file) as [errCopy|]; [congruence|].
    destruct (barCompletes file); [congruence | discriminate].
  - congruence.
Qed.

(** The loop over the records of a directory walks no directory; when it
    ends without an error it has appended one entry for each record, in the
    order of the records, and opened each source file once; when it ends
    with an error, the records after the failing one are not touched. *)
Lemma writeRecords_spec (w : world) (found : list fileRecord) :
  forall s s' err,
  writeRecords w found s = Returns (s', err) ->
  walked (log s') = walked (log s) /\
  match err with
  | None =>
    entryNames (archive s') = (entryNames (archive s) ++ map name found)%list /\
    opened (log s') = (opened (log s) ++ map path found)%list
  | Some e =>
    exists done record rest cause,
      found = (done ++ record :: rest)%list /\
      (e = Errorf CreatingZipFileRecord cause \/
       e = Errorf WritingFileToArchive cause) /\
      (opened (log s') = (opened (log s) ++ map path done)%list \/
       opened (log s') = (opened (log s) ++ map path (done ++ [record]))%list)
  end.
Proof.
  induction found as [|record rest IH]; intros s s' err.
  { cbn. intros H. injection H as <- <-. rewrite !app_nil_r. auto. }
  cbn [writeRecords].
  set (h := {| zip.Name := name record; zip.Comment := path record |}).
  destruct (CreateHeader w (archive (logged (Created h) s)) h) as [errCreate|].
  { intros H. injection H as <- <-.
    split; [cbn; rewrite walked_app; cbn; now rewrite app_nil_r|].
    exists [], record, rest, (SysError errCreate). split; [reflexivity|].
    split; [now left|]. left. cbn. rewrite opened_app. cbn. reflexivity. }
  destruct (copyFileTo w (logged (Created h) s) (path record))
    as [[[s1 written] e1]| | |] eqn:C; cbn [bind]; try discriminate.
  apply copyFileTo_session in C. subst s1.
  destruct e1 as [e|].
  { intros H. injection H as <- <-.
    split; [cbn; rewrite !walked_app; cbn; now rewrite !app_nil_r|].
    exists [], record, rest, e. split; [reflexivity|].
    split; [now right|]. right. cbn. rewrite !opened_app. cbn.
    now rewrite app_nil_r. }
  intros H. apply IH in H. destruct H as [W H].
  assert (Hw : walked (log (appended {| zip.header := h; zip.data := written |}
                 (logged (Opened (path record)) (logged (Created h) s)))) =
               walked (log s))
    by (cbn; rewrite !walked_app; cbn; now rewrite !app_nil_r).
  assert (Ho : opened (log (appended {| zip.header := h; zip.data := written |}
                 (logged (Opened (path record)) (logged (Created h) s)))) =
               (opened (log s) ++ [path record])%list)
    by (cbn; rewrite !opened_app; cbn; now rewrite app_nil_r).
  split; [congruence|].
  destruct err as [e|].
  - destruct H as (done & r & rest' & cause & -> & He & Hop).
    exists (record :: done), r, rest', cause. split; [reflexivity|].
    split; [exact He|]. rewrite Ho in Hop. cbn [map app].
    destruct Hop as [Hop|Hop]; [left|right]; rewrite Hop, <- app_assoc; reflexivity.
  - destruct H as [Hn Hop]. split.
    + rewrite Hn. cbn. rewrite entryNames_app. cbn. now rewrite <- app_assoc.
    + rewrite Hop, Ho. cbn. now rewrite <- app_assoc.
Qed.

(** An error of [copyFileTo] has an error of the system at its root, except
    when [file.Stat] fails: then it wraps nothing. *)
Lemma copyFileTo_error (w : world) (s s1 : session) (filename written : string)
      (e : error) :
  copyFileTo w s filename = Returns (s1, written, Some e) ->
  (exists cause, rootCause e = SysError cause) \/
  (exists file errInfo,
      OpenFile w filename = inl file /\
      statErr file = Some errInfo /\
      e = ErrorfNil (UnableToOpenFile filename)).
Proof.
  unfold copyFileTo. destruct (OpenFile w filename) as [file|errFile].
  - destruct (statErr file) as [errInfo|] eqn:St.
    + intros H. injection H as _ _ <-. right. now exists file, errInfo.
    + destruct (copyErr file) as [errCopy|].
      * intros H. injection H as _ _ <-. left. now exists errCopy.
      * destruct (barCompletes file); discriminate.
  - intros H. injection H as _ _ <-. left. now exists errFile.
Qed.

(** When [copyFileTo] returns without an error, the file opened, it was
    not empty, and all the bytes copied are in the entry. *)
Lemma copyFileTo_done (w : world) (s s1 : session) (filename written : string) :
  copyFileTo w s filename = Returns (s1, written, None) ->
  exists file,
    OpenFile w filename = inl file /\ statErr file = None /\
    copyErr file = None /\ written = copied file /\ 0 < len written.
Proof.
  unfold copyFileTo. destruct (OpenFile w filename) as [file|errFile];
    [|discriminate].
  destruct (statErr file) as [errInfo|] eqn:St; [discriminate|].
  destruct (copyErr file) as [errCopy|] eqn:Cp; [discriminate|].
  destruct (barCompletes file) eqn:B; [|discriminate].
  intros H. injection H as _ <-. exists file.
  unfold barCompletes in B. apply andb_true_iff in B. destruct B as [B1 B2].
  apply Z.ltb_lt in B1. apply Z.leb_le in B2.
  repeat split; auto. lia.
Qed.

Section Pipeline.

Variable digitTable : Z -> bool.

(** A directory that is processed without an error adds to the archive the
    names of the records found in it, rearranged by the sort, in the order
    of the sort. *)
Lemma processDir_entries (w : world) (s s' : session) (dir : string)
      (fileGlobs : list string) :
  processDir digitTable w s dir fileGlobs = Returns (s', None) ->
  exists found sorted,
    searchRecords dir (DirFS w dir) fileGlobs = Ok found /\
    sortFileRecords digitTable found = Returns sorted /\
    Permutation found sorted /\
    entryNames (archive s') = (entryNames (archive s) ++ map name sorted)%list /\
    walked (log s') = (walked (log s) ++ [dir])%list.
Proof.
  unfold processDir.
  destruct (searchRecords dir (DirFS w dir) fileGlobs) as [found|e] eqn:S1;
    [|discriminate].
  destruct (sortFileRecords digitTable found) as [sorted| | |] eqn:S2;
    try discriminate.
  cbn [bind]. intros H.
  destruct (writeRecords_spec w sorted _ _ _ H) as [Hw [Hn _]].
  exists found, sorted. split; [reflexivity|]. split; [exact S2|].
  split; [exact (SortStableFunc_permutation _ _ _ S2)|]. split.
  - exact Hn.
  - rewrite Hw. cbn. rewrite walked_app. reflexivity.
Qed.

(** A directory whose processing ends with an error: no directory but this
    one was walked. *)
Lemma processDir_error (w : world) (s s' : session) (dir : string)
      (fileGlobs : list string) (err : error) :
  processDir digitTable w s dir fileGlobs = Returns (s', Some err) ->
  walked (log s') = (walked (log s) ++ [dir])%list.
Proof.
  unfold processDir.
  destruct (searchRecords dir (DirFS w dir) fileGlobs) as [found|e].
  - destruct (sortFileRecords digitTable found) as [sorted| | |]; try discriminate.
    cbn [bind]. intros H.
    destruct (writeRecords_spec w sorted _ _ _ H) as [Hw _].
    rewrite Hw. cbn. rewrite walked_app. reflexivity.
  - intros H. injection H as <- _. cbn. rewrite walked_app. reflexivity.
Qed.

(** The entries of the archive come in the order of the directory
    arguments: a run that succeeds appends, for the first directory, then
    for the second, and so on, the names of the records of the directory in
    the order the sort left them. *)
Lemma process_directory_order (w : world) (dirs fileGlobs : list string) :
  forall s s',
    process digitTable w s dirs fileGlobs = Returns (s', None) ->
    exists perDir : list (list fileRecord),
      Forall2 (fun dir sorted =>
                 exists found,
                   searchRecords dir (DirFS w dir) fileGlobs = Ok found /\
                   sortFileRecords digitTable found = Returns sorted /\
                   Permutation found sorted)
              dirs perDir /\
      entryNames (archive s') =
      (entryNames (archive s) ++ map name (concat perDir))%list /\
      walked (log s') = (walked (log s) ++ dirs)%list.
Proof.
  induction dirs as [|dir rest IH]; intros s s'.
  - cbn. intros H. injection H as <-. exists []. cbn. rewrite !app_nil_r.
    repeat split; auto.
  - cbn [process].
    destruct (processDir digitTable w s dir fileGlobs) as [[s1 [e|]]| | |] eqn:P;
      cbn [bind]; try discriminate.
    intros H. destruct (IH _ _ H) as (perDir & F & Hn & Hw).
    destruct (processDir_entries _ _ _ _ _ P)
      as (found & sorted & S1 & S2 & S3 & Hn1 & Hw1).
    exists (sorted :: perDir). split.
    + constructor; [now exists found | exact F].
    + split.
      * rewrite Hn, Hn1. cbn [concat]. rewrite map_app, <- app_assoc. reflexivity.
      * rewrite Hw, Hw1, <- app_assoc. reflexivity.
Qed.

(** A run that ends with an error stopped at the directory where the error
    arose: the error is wrapped with this directory, and no later directory
    was walked. *)
Lemma process_stops_at_first_error (w : world) (dirs fileGlobs : list string) :
  forall s s' err,
    process digitTable w s dirs fileGlobs = Returns (s', Some err) ->
    exists before dir after cause,
      dirs = (before ++ dir :: after)%list /\
      err = Errorf (InDir dir) cause /\
      walked (log s') = (walked (log s) ++ before ++ [dir])%list.
Proof.
  induction dirs as [|dir rest IH]; intros s s' err; [discriminate|].
  cbn [process].
  destruct (processDir digitTable w s dir fileGlobs) as [[s1 [e|]]| | |] eqn:P;
    cbn [bind]; try discriminate.
  - intros H. injection H as <- <-.
    exists [], dir, rest, e. split; [reflexivity|]. split; [reflexivity|].
    apply (processDir_error _ _ _ _ _ _ P).
  - intros H. destruct (IH _ _ _ H) as (before & d & after & cause & -> & -> & Hw).
    destruct (processDir_entries _ _ _ _ _ P) as (_ & _ & _ & _ & _ & _ & Hw1).
    exists (dir :: before), d, after, cause. split; [reflexivity|].
    split; [reflexivity|]. rewrite Hw, Hw1, <- app_assoc. reflexivity.
Qed.

End Pipeline.

(** * The claims *)

(** ** The natural comparator *)

(** C3, as the specification states it, fails: of ["z1"] and ["a"] exactly
    one contains a digit, the parts before the first digit are ["z"] and
    ["a"], they differ, and their plain comparison says that ["z"] is not
    less than ["a"]; [naturalLess] answers that ["z1"] is less than ["a"]. *)
Lemma prefix_comparison_does_not_decide :
  xorb (hasDigit latin1Only "z1") (hasDigit latin1Only "a") = true /\
  nonDigitPrefix latin1Only "z1" = "z" /\
  nonDigitPrefix latin1Only "a" = "a" /\
  String.ltb "z" "a" = false /\
  naturalLess latin1Only "z1" "a" = Returns true.
Proof. repeat split; vm_compute; reflexivity. Qed.

(** C3 (amended): when exactly one of the two strings contains a digit,
    [naturalLess] does not compare the parts before the digit: it answers
    "less" exactly when the first string is the one that contains a digit,
    so the string without digits always sorts after the other. *)
Theorem naturalLess_digit_side_first (digitTable : Z -> bool) (strA strB : string) :
  xorb (hasDigit digitTable strA) (hasDigit digitTable strB) = true ->
  naturalLess digitTable strA strB = Returns (hasDigit digitTable strA).
Proof.
  unfold hasDigit, naturalLess. cbn [naturalLessLoop]. fold (IsDigit digitTable).
  destruct (strings.IndexFunc strA (IsDigit digitTable) =? -1);
    destruct (strings.IndexFunc strB (IsDigit digitTable) =? -1);
    cbn [negb xorb]; intros H; try discriminate; reflexivity.
Qed.

Lemma naturalLess_digit_side_first_witness :
  xorb (hasDigit latin1Only "z1") (hasDigit latin1Only "a") = true /\
  naturalLess latin1Only "z1" "a" = Returns (hasDigit latin1Only "z1").
Proof.
  split; [reflexivity|].
  apply (naturalLess_digit_side_first latin1Only "z1" "a"). reflexivity.
Defined.

(** C4, as the specification states it, fails: on a run of twenty digits
    [strconv.Atoi] reports a range error, and the comparison panics. *)
Lemma naturalLess_panics_on_twenty_digits :
  naturalLess latin1Only twentyNines "1" = Panics (cantConvert twentyNines).
Proof. vm_compute. reflexivity. Qed.

(** C4 (amended): the loop of the comparator always ends, with a boolean or
    with the panic of the branch where the parse failed; for every pair of
    strings whose digit runs are all accepted by [strconv.Atoi] the
    comparison returns a boolean; and the digit runs of an ASCII string
    with no run of more than 18 digits are all accepted. *)
Theorem naturalLess_total_where_runs_parse (digitTable : Z -> bool)
        (strA strB : string) :
  ((exists less, naturalLess digitTable strA strB = Returns less) \/
   (exists msg, naturalLess digitTable strA strB = Panics msg)) /\
  (parses digitTable strA = true ->
   parses digitTable strB = true ->
   exists less, naturalLess digitTable strA strB = Returns less) /\
  (allAscii strA = true -> runsWithin 18 0 strA = true ->
   parses digitTable strA = true).
Proof.
  split; [apply naturalLess_ends|].
  split; [apply naturalLess_returns | apply parses_short].
Qed.

Lemma naturalLess_total_where_runs_parse_witness :
  parses latin1Only "file2.mp3" = true /\
  parses latin1Only "file10.mp3" = true /\
  naturalLess latin1Only "file2.mp3" "file10.mp3" = Returns true /\
  (exists less, naturalLess latin1Only "file2.mp3" "file10.mp3" = Returns less) /\
  allAscii "file2.mp3" = true /\
  runsWithin 18 0 "file2.mp3" = true /\
  parses latin1Only "file2.mp3" = true.
Proof.
  split; [reflexivity|]. split; [reflexivity|]. split; [reflexivity|].
  split.
  - apply (proj1 (proj2 (naturalLess_total_where_runs_parse
                           latin1Only "file2.mp3" "file10.mp3"))); reflexivity.
  - split; [reflexivity|]. split; [reflexivity|].
    apply (proj2 (proj2 (naturalLess_total_where_runs_parse
                           latin1Only "file2.mp3" "file10.mp3"))); reflexivity.
Defined.

(** C10, as the specification states it, fails: the string of twenty nines
    ends with a digit, and comparing it with itself panics. *)
Lemma self_comparison_panics :
  endsWithDigit twentyNines = true /\
  naturalLess latin1Only twentyNines twentyNines = Panics (cantConvert twentyNines).
Proof. split; vm_compute; reflexivity. Qed.

(** C10 (amended): for every string that ends with a digit and whose digit
    runs are all accepted by [strconv.Atoi], comparing the string with
    itself answers "less"; for every string that contains no digit it
    answers "not less".  So the comparator is not irreflexive. *)
Theorem naturalLess_self (digitTable : Z -> bool) (s : string) :
  (parses digitTable s = true -> endsWithDigit s = true ->
   naturalLess digitTable s s = Returns true) /\
  (hasDigit digitTable s = false ->
   naturalLess digitTable s s = Returns false).
Proof.
  split.
  - intros P E. unfold naturalLess, parses in *.
    rewrite naturalLessLoop_same by (auto; lia). now rewrite E.
  - unfold hasDigit, naturalLess. cbn [naturalLessLoop]. fold (IsDigit digitTable).
    destruct (strings.IndexFunc s (IsDigit digitTable) =? -1); [|discriminate].
    intros _. now rewrite ltb_irrefl.
Qed.

Lemma naturalLess_self_witness :
  parses latin1Only "track1" = true /\
  endsWithDigit "track1" = true /\
  naturalLess latin1Only "track1" "track1" = Returns true /\
  hasDigit latin1Only "track" = false /\
  naturalLess latin1Only "track" "track" = Returns false.
Proof.
  split; [reflexivity|]. split; [reflexivity|]. split.
  - apply (proj1 (naturalLess_self latin1Only "track1")); reflexivity.
  - split; [reflexivity|].
    apply (proj2 (naturalLess_self latin1Only "track")); reflexivity.
Defined.

(** ** The path flattener *)

(** C5: the directory ["book1"] and the relative path
    ["disc1/track02.mp3"] give the entry name ["book1_disc1_track02.mp3"];
    for the directory ["."] the entry name is the flattened relative path
    alone. *)
Theorem flattened_entry_names :
  name (recordOf "book1" "disc1/track02.mp3") = "book1_disc1_track02.mp3" /\
  forall relpath, name (recordOf "." relpath) = flattenPath relpath.
Proof. split; [reflexivity | intros relpath; reflexivity]. Qed.

(** ** The discovery walker *)

(** C2: when the discovery succeeds, its result is the list of the records
    of the files of the tree whose relative path matches at least one
    pattern, one record for each such file, in the order of the walk:
    a file that matches several patterns has one record, a file that
    matches none has no record, and a directory has no record. *)
Theorem searchRecords_exact (dir : string) (fsys : fs.FS)
        (fileGlobs : list string) (found : list fileRecord) :
  searchRecords dir fsys fileGlobs = Ok found ->
  exists root,
    fsys = fs.Root root /\
    found = map (recordOf dir) (filter (matchesAny fileGlobs) (files "." root)) /\
    List.length found =
    List.length (filter (matchesAny fileGlobs) (files "." root)).
Proof.
  intros H. destruct (searchRecords_found _ _ _ _ H) as (root & -> & _ & ->).
  exists root. split; [reflexivity|]. split; [reflexivity|].
  unfold recordsOf. apply length_map.
Qed.

Lemma searchRecords_exact_witness :
  searchRecords "book1" (fs.Root book) ["*.mp3"; "*/*.mp3"; "intro.*"] =
  Ok [recordOf "book1" "disc1/track01.mp3";
      recordOf "book1" "disc1/track02.mp3";
      recordOf "book1" "intro.mp3"] /\
  exists root,
    fs.Root book = fs.Root root /\
    [recordOf "book1" "disc1/track01.mp3";
     recordOf "book1" "disc1/track02.mp3";
     recordOf "book1" "intro.mp3"] =
    map (recordOf "book1")
        (filter (matchesAny ["*.mp3"; "*/*.mp3"; "intro.*"]) (files "." root)) /\
    3%nat =
    List.length (filter (matchesAny ["*.mp3"; "*/*.mp3"; "intro.*"]) (files "." root)).
Proof.
  split; [reflexivity|].
  apply (searchRecords_exact "book1" (fs.Root book)
           ["*.mp3"; "*/*.mp3"; "intro.*"]).
  reflexivity.
Defined.

(** C7: the discovery never succeeds with an empty collection; and when the
    walk of a directory completes (every directory of the tree can be read)
    and no file matches, the discovery fails with [errNoFilesFound]. *)
Theorem searchRecords_no_files (dir : string) (fsys : fs.FS)
        (fileGlobs : list string) :
  (forall found, searchRecords dir fsys fileGlobs = Ok found ->
                 (0 < List.length found)%nat) /\
  (forall root, fsys = fs.Root root ->
                readable root = true ->
                filter (matchesAny fileGlobs) (files "." root) = [] ->
                searchRecords dir fsys fileGlobs = Err errNoFilesFound).
Proof.
  split.
  - intros found. unfold searchRecords.
    destruct (fs.WalkDir _ _ _ _) as [f [e|]]; [discriminate|].
    destruct f; [discriminate|]. intros H; inversion H; subst. simpl. lia.
  - intros root -> R F. pose proof (searchRecords_spec dir (fs.Root root) fileGlobs) as S.
    cbn in S. rewrite R in S. rewrite S. unfold recordsOf. now rewrite F.
Qed.

Lemma searchRecords_no_files_witness :
  readable book = true /\
  filter (matchesAny ["*.flac"]) (files "." book) = [] /\
  searchRecords "book1" (fs.Root book) ["*.flac"] = Err errNoFilesFound /\
  searchRecords "book1" (fs.Root book) ["*.mp3"] = Ok [recordOf "book1" "intro.mp3"] /\
  (0 < List.length [recordOf "book1" "intro.mp3"])%nat.
Proof.
  split; [reflexivity|]. split; [reflexivity|]. split.
  - apply (proj2 (searchRecords_no_files "book1" (fs.Root book) ["*.flac"]) book);
      reflexivity.
  - split; [reflexivity|].
    apply (proj1 (searchRecords_no_files "book1" (fs.Root book) ["*.mp3"])).
    reflexivity.
Defined.

(** C9: with the default pattern alone, a path that contains a separator
    never matches, so the result of a discovery that succeeds is made of
    the files at the top of the source directory only. *)
Theorem default_pattern_skips_subdirectories (dir : string) (fsys : fs.FS)
        (found : list fileRecord) :
  searchRecords dir fsys ["*.mp3"] = Ok found ->
  (forall relpath,
      strings.ContainsByte relpath filepath.Separator = true ->
      matchesAny ["*.mp3"] relpath = false) /\
  exists root,
    fsys = fs.Root root /\
    found = map (recordOf dir)
                (filter (matchesAny ["*.mp3"]) (filter topLevel (files "." root))).
Proof.
  intros H.
  assert (M : forall relpath,
             strings.ContainsByte relpath filepath.Separator = true ->
             matchesAny ["*.mp3"] relpath = false).
  { intros relpath C. unfold matchesAny. cbn [existsb]. rewrite orb_false_r.
    unfold matches. destruct (filepath.Match "*.mp3" relpath) as [[|]|e] eqn:E;
      try reflexivity.
    apply Match_mp3_no_separator in E. congruence. }
  split; [exact M|].
  destruct (searchRecords_found _ _ _ _ H) as (root & -> & _ & ->).
  exists root. split; [reflexivity|]. unfold recordsOf. f_equal. clear H.
  induction (files "." root) as [|p rest IH]; [reflexivity|].
  cbn [filter]. unfold topLevel at 1.
  destruct (strings.ContainsByte p filepath.Separator) eqn:C; cbn [negb].
  - rewrite (M p C). exact IH.
  - cbn [filter]. destruct (matchesAny ["*.mp3"] p); [f_equal|]; exact IH.
Qed.

Lemma default_pattern_skips_subdirectories_witness :
  searchRecords "book1" (fs.Root book) ["*.mp3"] = Ok [recordOf "book1" "intro.mp3"] /\
  files "." book =
  ["cover.jpg"; "disc1/track01.mp3"; "disc1/track02.mp3"; "intro.mp3"] /\
  (forall relpath,
      strings.ContainsByte relpath filepath.Separator = true ->
      matchesAny ["*.mp3"] relpath = false) /\
  exists root,
    fs.Root book = fs.Root root /\
    [recordOf "book1" "intro.mp3"] =
    map (recordOf "book1")
        (filter (matchesAny ["*.mp3"]) (filter topLevel (files "." root))).
Proof.
  split; [reflexivity|]. split; [reflexivity|].
  apply (default_pattern_skips_subdirectories "book1" (fs.Root book)).
  reflexivity.
Defined.

(** ** The registration of the patterns *)

(** What the registration does reject: a value of [-g] that
    [filepath.Match] reports as malformed on the empty name ends the run
    with [ErrBadPattern], before any directory is walked and before any
    file is opened. *)
Lemma rejected_pattern_ends_the_run
      (digitTable : Z -> bool) (w : world) (c : console) (sourceCode : fs.FS)
      (globs : list string) (printSourceCode : bool) (dirs : list string)
      (pattern : string) :
  In pattern globs ->
  isErr (filepath.Match pattern EmptyString) = true ->
  main digitTable w c sourceCode globs printSourceCode dirs =
  UsageError ErrBadPattern /\
  eventsOf (main digitTable w c sourceCode globs printSourceCode dirs) = [].
Proof.
  intros Hin Hm. unfold main.
  rewrite (parseGlobFlags_rejects globs _ pattern Hin Hm).
  split; reflexivity.
Qed.

(** C6 (the code departs from the claim): the pattern [c*[] has an
    unbalanced bracket.  On the empty name [filepath.Match] stops at the
    chunk [c], which does not match, and answers [false] with no error: the
    function of [-g] accepts the pattern.  The run with this pattern walks
    the book; there, on the path [cover.jpg], [filepath.Match] reports
    [ErrBadPattern], and [searchRecords] drops the error: the run finishes
    with the entry of the default pattern, and the malformed pattern is
    never reported. *)
Theorem malformed_pattern_passes_registration
        (digitTable : Z -> bool) (c : console) (sourceCode : fs.FS) :
  filepath.Match "c*[" EmptyString = Ok false /\
  parseGlobFlags ["c*["] ["*.mp3"] = Ok ["*.mp3"; "c*["] /\
  filepath.Match "c*[" "cover.jpg" = Err ErrBadPattern /\
  matches "c*[" "cover.jpg" = false /\
  exists s,
    main digitTable bookWorld c sourceCode ["c*["] false ["book1"] =
    Finished (Archived s) /\
    walked (log s) = ["book1"] /\
    entryNames (archive s) = ["book1_intro.mp3"].
Proof.
  split; [reflexivity|]. split; [reflexivity|].
  split; [vm_compute; reflexivity|]. split; [vm_compute; reflexivity|].
  eexists. split; [vm_compute; reflexivity|].
  split; reflexivity.
Qed.

(** ** The archive pipeline *)

(** C1 (the code departs from the claim): a directory holds [t.mp3] and
    [t.mp3b.mp3].  The run succeeds and the archive holds [d_t.mp3b.mp3]
    before [d_t.mp3], although [d_t.mp3] is naturally less than
    [d_t.mp3b.mp3]: the entries are not in natural order. *)
Theorem entries_out_of_natural_order (digitTable : Z -> bool) :
  exists s,
    process digitTable twoTracks emptySession ["d"] ["*.mp3"] = Returns (s, None) /\
    entryNames (archive s) = ["d_t.mp3b.mp3"; "d_t.mp3"] /\
    naturalLess digitTable "d_t.mp3" "d_t.mp3b.mp3" = Returns true /\
    inNaturalOrder digitTable (entryNames (archive s)) = false.
Proof.
  eexists. split; [vm_compute; reflexivity|].
  repeat split; vm_compute; reflexivity.
Qed.

(** C8 (the code departs from the claim): [file.Stat] fails on the first
    source file with the error 5.  The run stops there: the second file
    and the second directory are not touched.  But the error that comes out
    does not wrap the error of [Stat]: at its root is the [fmt.Errorf] of
    [copyFileTo] with a [nil] operand. *)
Theorem stat_error_is_not_wrapped (digitTable : Z -> bool) :
  exists s err,
    process digitTable statFails emptySession ["d"; "e"] ["*.mp3"] =
    Returns (s, Some err) /\
    err = Errorf (InDir "d")
            (Errorf WritingFileToArchive (ErrorfNil (UnableToOpenFile "d/a.mp3"))) /\
    rootCause err = ErrorfNil (UnableToOpenFile "d/a.mp3") /\
    log s = [Walked "d";
             Created {| zip.Name := "d_a.mp3"; zip.Comment := "d/a.mp3" |};
             Opened "d/a.mp3"].
Proof.
  eexists. eexists. split; [vm_compute; reflexivity|].
  repeat split; vm_compute; reflexivity.
Qed.

(** * Further properties of the program *)

(** ** The discovery walker *)

Section WalkErrors.

Variables (dir : string) (fileGlobs : list string).

(** The walk of a tree ends with the error of the first directory that
    cannot be read, and without an error when there is none. *)
Lemma walkDir_firstReadErr (n : fs.node) :
  forall name dname found,
    exists found',
      fs.walkDir (visit dir fileGlobs) name dname n found =
      (found', option_map SysError (firstReadErr n)) /\
      (firstReadErr n = None ->
       found' = (found ++ recordsOf dir fileGlobs (files name n))%list).
Proof.
  induction n as [|entries readErr IH] using node_induction;
    intros name dname found.
  - exists (found ++ recordsOf dir fileGlobs (files name fs.File))%list.
    split; [|reflexivity].
    cbn [fs.walkDir visit fs.isDir fs.IsDir files firstReadErr option_map].
    rewrite matchGlobs_spec. unfold recordsOf. cbn [filter].
    destruct (matchesAny fileGlobs name); cbn [map]; [reflexivity|].
    now rewrite app_nil_r.
  - cbn [fs.walkDir visit fs.isDir fs.IsDir files firstReadErr].
    destruct readErr as [e|].
    { exists found. split; [reflexivity | discriminate]. }
    revert found.
    induction IH as [|[name1 n1] rest H1 _ IHrest]; intros found.
    + exists found. split; [reflexivity|]. intros _. unfold recordsOf. cbn.
      now rewrite app_nil_r.
    + cbn [snd] in H1.
      destruct (H1 (filepath.Join [name; name1]) name1 found) as (f1 & E1 & F1).
      rewrite E1. destruct (firstReadErr n1) as [e|]; cbn [option_map].
      * exists f1. split; [reflexivity | discriminate].
      * destruct (IHrest f1) as (f2 & E2 & F2).
        exists f2. split; [exact E2|]. intros N.
        rewrite (F2 N), (F1 eq_refl), recordsOf_app, app_assoc. reflexivity.
Qed.

End WalkErrors.

(** X1: what [searchRecords] answers on every tree.  When the root cannot be
    opened, or a directory of the tree cannot be read, the answer is the
    error of the root, or of the first such directory in the order of the
    walk, wrapped as "walking dir", and the records appended before are
    dropped; otherwise it is the records of the matching files, or
    [errNoFilesFound] when there is none. *)
Theorem searchRecords_answer (dir : string) (fsys : fs.FS)
        (fileGlobs : list string) :
  searchRecords dir fsys fileGlobs =
  match fsys with
  | fs.NoRoot e => Err (Errorf WalkingDir (SysError e))
  | fs.Root root =>
    match firstReadErr root with
    | Some e => Err (Errorf WalkingDir (SysError e))
    | None =>
      match recordsOf dir fileGlobs (files "." root) with
      | [] => Err errNoFilesFound
      | found => Ok found
      end
    end
  end.
Proof.
  unfold searchRecords, fs.WalkDir. destruct fsys as [root|e]; [|reflexivity].
  destruct (walkDir_firstReadErr dir fileGlobs root "." "." [])
    as (found' & E & F).
  rewrite E. destruct (firstReadErr root) as [e|]; cbn [option_map].
  - reflexivity.
  - rewrite (F eq_refl). cbn [app].
    now destruct (recordsOf dir fileGlobs (files "." root)).
Qed.

(** The patterns matter only as a set. *)
Lemma matchesAny_same_patterns (g g' : list string) (relpath : string) :
  (forall pattern, In pattern g <-> In pattern g') ->
  matchesAny g relpath = matchesAny g' relpath.
Proof.
  intros H. unfold matchesAny. apply eq_true_iff_eq.
  rewrite !existsb_exists. split; intros (p & Hin & Hm); exists p;
    (split; [now apply H | exact Hm]).
Qed.

Lemma recordsOf_same_patterns (dir : string) (g g' paths : list string) :
  (forall pattern, In pattern g <-> In pattern g') ->
  recordsOf dir g paths = recordsOf dir g' paths.
Proof.
  intros H. unfold recordsOf. f_equal. apply filter_ext.
  intros relpath. now apply matchesAny_same_patterns.
Qed.

(** X2: the discovery depends on the patterns as a set only: two lists
    with the same patterns, in any order and with any repetition, give the
    same answer on every tree. *)
Theorem searchRecords_pattern_set (dir : string) (fsys : fs.FS)
        (g g' : list string) :
  (forall pattern, In pattern g <-> In pattern g') ->
  searchRecords dir fsys g = searchRecords dir fsys g'.
Proof.
  intros H. unfold searchRecords, fs.WalkDir.
  destruct fsys as [root|e]; [|reflexivity].
  destruct (walkDir_firstReadErr dir g root "." "." []) as (f & E & F).
  destruct (walkDir_firstReadErr dir g' root "." "." []) as (f' & E' & F').
  rewrite E, E'. destruct (firstReadErr root) as [e|]; cbn [option_map];
    [reflexivity|].
  rewrite (F eq_refl), (F' eq_refl).
  now rewrite (recordsOf_same_patterns dir g g' _ H).
Qed.

Lemma searchRecords_pattern_set_witness :
  (forall pattern,
      In pattern ["*.mp3"; "intro.*"] <->
      In pattern ["intro.*"; "*.mp3"; "*.mp3"]) /\
  searchRecords "book1" (fs.Root book) ["*.mp3"; "intro.*"] =
  searchRecords "book1" (fs.Root book) ["intro.*"; "*.mp3"; "*.mp3"].
Proof.
  assert (H : forall pattern,
             In pattern ["*.mp3"; "intro.*"] <->
             In pattern ["intro.*"; "*.mp3"; "*.mp3"])
    by (intros pattern; cbn; tauto).
  split; [exact H|].
  apply (searchRecords_pattern_set "book1" (fs.Root book) _ _ H).
Defined.

(** ** The archive pipeline *)

(** The loop over the records leaves the session as [archived] says. *)
Lemma writeRecords_archived (w : world) (found : list fileRecord) :
  forall s s' r,
    archived w s None ->
    writeRecords w found s = Returns (s', r) ->
    archived w s' r.
Proof.
  induction found as [|record rest IH]; intros s s' r [C D].
  { cbn. intros E. injection E as <- <-. now split. }
  cbn [writeRecords].
  set (h := {| zip.Name := name record; zip.Comment := path record |}).
  destruct (CreateHeader w (archive (logged (Created h) s)) h) as [errCreate|].
  { intros E. injection E as <- <-. split.
    - cbn. rewrite opened_app. cbn. now rewrite app_nil_r.
    - exists (archive s), []. cbn. rewrite app_nil_r. auto. }
  destruct (copyFileTo w (logged (Created h) s) (path record))
    as [[[s1 written] e1]| | |] eqn:Cp; cbn [bind]; try discriminate.
  pose proof (copyFileTo_session _ _ _ _ _ _ Cp) as ->.
  assert (Co : entryComments
                 (archive (appended {| zip.header := h; zip.data := written |}
                    (logged (Opened (path record)) (logged (Created h) s)))) =
               opened
                 (log (appended {| zip.header := h; zip.data := written |}
                    (logged (Opened (path record)) (logged (Created h) s))))).
  { unfold entryComments in *. cbn.
    rewrite !opened_app, map_app. cbn. rewrite app_nil_r. now rewrite C. }
  destruct e1 as [e|].
  - intros E. injection E as <- <-. split; [exact Co|].
    exists (archive s), [{| zip.header := h; zip.data := written |}].
    cbn. auto.
  - intros E. refine (IH _ _ _ (conj Co _) E).
    cbn. apply Forall_app. split; [exact D|].
    constructor; [|constructor].
    destruct (copyFileTo_done _ _ _ _ _ Cp) as (file & O & St & Ce & -> & L).
    exists file. cbn. auto.
Qed.

Section PipelineInvariant.

Variable digitTable : Z -> bool.

Lemma processDir_archived (w : world) (dir : string) (fileGlobs : list string) :
  forall s s' r,
    archived w s None ->
    processDir digitTable w s dir fileGlobs = Returns (s', r) ->
    archived w s' r.
Proof.
  intros s s' r [C D]. unfold processDir.
  assert (Cw : archived w (logged (Walked dir) s) None).
  { split; [|exact D]. cbn. rewrite opened_app. cbn. now rewrite app_nil_r. }
  destruct (searchRecords dir (DirFS w dir) fileGlobs) as [found|e].
  - destruct (sortFileRecords digitTable found) as [sorted| | |]; try discriminate.
    cbn [bind]. apply writeRecords_archived. exact Cw.
  - intros E. injection E as <- <-. destruct Cw as [Cw Dw].
    split; [exact Cw|]. exists (archive s), []. cbn. rewrite app_nil_r. auto.
Qed.

Lemma process_archived (w : world) (dirs fileGlobs : list string) :
  forall s s' r,
    archived w s None ->
    process digitTable w s dirs fileGlobs = Returns (s', r) ->
    archived w s' r.
Proof.
  induction dirs as [|dir rest IH]; intros s s' r Cs.
  - cbn. intros E. injection E as <- <-. exact Cs.
  - cbn [process].
    destruct (processDir digitTable w s dir fileGlobs) as [[s1 [e|]]| | |] eqn:P;
      cbn [bind]; try discriminate.
    + intros E. injection E as <- <-.
      exact (processDir_archived w dir fileGlobs s s1 (Some e) Cs P).
    + apply IH. exact (processDir_archived w dir fileGlobs s s1 None Cs P).
Qed.

End PipelineInvariant.

(** X3: in every run of [process] on a new archive that returns, every
    entry of the archive has the path of its source as comment, and the
    sources opened are the comments of the entries, in order.  When the run
    returns without error, every entry holds all the bytes that [io.Copy]
    read from its source, which opened and whose [Stat] and copy did not
    fail, and no entry is empty.  When the run returns an error, this holds
    of every entry but the last, which may be the one whose source failed. *)
Theorem archive_entries_are_opened_sources (digitTable : Z -> bool)
        (w : world) (dirs fileGlobs : list string) (s : session)
        (r : option error) :
  process digitTable w emptySession dirs fileGlobs = Returns (s, r) ->
  entryComments (archive s) = opened (log s) /\
  match r with
  | None => Forall (copiedInFull w) (archive s)
  | Some _ =>
    exists full partial,
      archive s = (full ++ partial)%list /\
      Forall (copiedInFull w) full /\
      (List.length partial <= 1)%nat
  end.
Proof.
  apply (process_archived digitTable w dirs fileGlobs emptySession s r).
  split; [reflexivity | constructor].
Qed.

Lemma archive_entries_are_opened_sources_witness :
  (exists s,
      process latin1Only bookWorld emptySession ["book1"] ["*.mp3"; "*/*.mp3"] =
      Returns (s, None) /\
      entryComments (archive s) =
      ["book1/disc1/track01.mp3"; "book1/disc1/track02.mp3"; "book1/intro.mp3"] /\
      entryComments (archive s) = opened (log s) /\
      Forall (copiedInFull bookWorld) (archive s)) /\
  (exists s err,
      process latin1Only scratchedDisc emptySession ["book1"] ["*.mp3"; "*/*.mp3"] =
      Returns (s, Some err) /\
      map zip.data (archive s) = ["audio"; "aud"] /\
      entryComments (archive s) = opened (log s) /\
      exists full partial,
        archive s = (full ++ partial)%list /\
        Forall (copiedInFull scratchedDisc) full /\
        (List.length partial <= 1)%nat).
Proof.
  split.
  - eexists. split; [vm_compute; reflexivity|]. split; [reflexivity|].
    apply (archive_entries_are_opened_sources
             latin1Only bookWorld ["book1"] ["*.mp3"; "*/*.mp3"] _ None).
    vm_compute. reflexivity.
  - eexists. eexists. split; [vm_compute; reflexivity|]. split; [reflexivity|].
    eapply (archive_entries_are_opened_sources
              latin1Only scratchedDisc ["book1"] ["*.mp3"; "*/*.mp3"] _ (Some _)).
    vm_compute. reflexivity.
Defined.

(** X4: a run of [main] that returns.  The values of [-g] all passed the
    check of the flag.  With [-sauce] the run printed the source code
    without error and did nothing else.  Without, it was given a directory,
    opened the output, and used the default pattern followed by the values
    of [-g]; it walked every directory argument once, in the order of the
    arguments; and the names of the entries of the archive are, directory
    after directory in that order, a rearrangement of the names of the
    records discovered in the directory. *)
Theorem finished_run_follows_arguments (digitTable : Z -> bool) (w : world)
        (c : console) (sourceCode : fs.FS)
        (globs : list string) (printSourceCode : bool) (dirs : list string)
        (d : completed) :
  main digitTable w c sourceCode globs printSourceCode dirs = Finished d ->
  (forall pattern,
      In pattern globs -> isErr (filepath.Match pattern EmptyString) = false) /\
  match d with
  | SourcePrinted out =>
    printSourceCode = true /\ sauce c sourceCode = (out, None)
  | Archived s =>
    printSourceCode = false /\
    OpenOutput w = None /\
    (0 < List.length dirs)%nat /\
    walked (log s) = dirs /\
    exists perDir : list (list fileRecord),
      Forall2 (fun dir sorted =>
                 exists found,
                   searchRecords dir (DirFS w dir) ("*.mp3" :: globs) = Ok found /\
                   Permutation found sorted)
              dirs perDir /\
      entryNames (archive s) = map name (concat perDir)
  end.
Proof.
  unfold main.
  destruct (parseGlobFlags globs ["*.mp3"]) as [fileGlobs|e] eqn:G; [|discriminate].
  destruct (parseGlobFlags_accepts _ _ _ G) as [-> Hall]. cbn [app].
  destruct printSourceCode.
  { destruct (sauce c sourceCode) as [out [e|]]; [discriminate|].
    intros E. injection E as <-. split; [exact Hall | split; reflexivity]. }
  destruct dirs as [|dir rest]; [discriminate|].
  destruct (OpenOutput w) as [e|]; [discriminate|].
  destruct (process digitTable w emptySession (dir :: rest) ("*.mp3" :: globs))
    as [[s' [e|]]| | |] eqn:P; try discriminate.
  intros E. injection E as <-.
  destruct (process_directory_order digitTable w _ _ _ _ P)
    as (perDir & F & Hn & Hw).
  split; [exact Hall|].
  split; [reflexivity|]. split; [reflexivity|]. split; [cbn; lia|].
  split; [exact Hw|]. exists perDir. split; [|exact Hn].
  clear - F. induction F as [|d sorted ds ps (found & S1 & _ & S3) _ IH];
    constructor; [now exists found | exact IH].
Qed.

Lemma finished_run_follows_arguments_witness :
  (exists s,
      main latin1Only bookWorld (quietConsole (fun path => path)) (fs.Root book)
           ["*/*.mp3"] false ["book1"; "book2"] = Finished (Archived s) /\
      entryNames (archive s) =
      ["book1_disc1_track01.mp3"; "book1_disc1_track02.mp3"; "book1_intro.mp3";
       "book2_disc1_track01.mp3"; "book2_disc1_track02.mp3"; "book2_intro.mp3"] /\
      walked (log s) = ["book1"; "book2"]) /\
  (exists out,
      main latin1Only bookWorld (quietConsole (fun path => path)) (fs.Root book)
           ["*/*.mp3"] true ["book1"; "book2"] = Finished (SourcePrinted out) /\
      sauce (quietConsole (fun path => path)) (fs.Root book) = (out, None)).
Proof.
  split.
  - eexists. split; [vm_compute; reflexivity|]. split; [reflexivity|].
    apply (finished_run_follows_arguments
             latin1Only bookWorld (quietConsole (fun path => path)) (fs.Root book)
             ["*/*.mp3"] false ["book1"; "book2"] (Archived _)).
    vm_compute. reflexivity.
  - eexists. split; [vm_compute; reflexivity|].
    apply (finished_run_follows_arguments
             latin1Only bookWorld (quietConsole (fun path => path)) (fs.Root book)
             ["*/*.mp3"] true ["book1"; "book2"] (SourcePrinted _)).
    vm_compute. reflexivity.
Defined.

Section RunErrors.

Variable digitTable : Z -> bool.

(** The error of a directory names the step that failed. *)
Lemma processDir_error_stage (w : world) (s s' : session) (dir : string)
      (fileGlobs : list string) (err : error) :
  processDir digitTable w s dir fileGlobs = Returns (s', Some err) ->
  exists stage cause,
    err = Errorf stage cause /\
    In stage [SearchingFiles; CreatingZipFileRecord; WritingFileToArchive].
Proof.
  unfold processDir.
  destruct (searchRecords dir (DirFS w dir) fileGlobs) as [found|e].
  - destruct (sortFileRecords digitTable found) as [sorted| | |]; try discriminate.
    cbn [bind]. intros H.
    destruct (writeRecords_spec w sorted _ _ _ H)
      as [_ (done & record & rest & cause & _ & [->| ->] & _)].
    + exists CreatingZipFileRecord, cause. cbn. auto.
    + exists WritingFileToArchive, cause. cbn. auto.
  - intros H. injection H as _ <-. exists SearchingFiles, e. cbn. auto.
Qed.

End RunErrors.

(** X5: a run of [process] that ends with an error stopped in the
    directory where the error arose: the error names this directory and,
    inside, the step that failed (the search, the creation of an entry or
    the writing of a file); the directories before it were walked, and no
    directory after it was. *)
Theorem failed_run_names_directory_and_step (digitTable : Z -> bool)
        (w : world) (dirs fileGlobs : list string) (s s' : session)
        (err : error) :
  process digitTable w s dirs fileGlobs = Returns (s', Some err) ->
  exists before dir after stage cause,
    dirs = (before ++ dir :: after)%list /\
    err = Errorf (InDir dir) (Errorf stage cause) /\
    In stage [SearchingFiles; CreatingZipFileRecord; WritingFileToArchive] /\
    walked (log s') = (walked (log s) ++ before ++ [dir])%list.
Proof.
  revert s s' err. induction dirs as [|dir rest IH]; intros s s' err;
    [discriminate|].
  cbn [process].
  destruct (processDir digitTable w s dir fileGlobs) as [[s1 [e|]]| | |] eqn:P;
    cbn [bind]; try discriminate.
  - intros H. injection H as <- <-.
    destruct (processDir_error_stage _ _ _ _ _ _ _ P) as (stage & cause & -> & St).
    exists [], dir, rest, stage, cause. split; [reflexivity|].
    split; [reflexivity|]. split; [exact St|].
    apply (processDir_error _ _ _ _ _ _ _ P).
  - intros H.
    destruct (IH _ _ _ H) as (before & d & after & stage & cause & -> & -> & St & Hw).
    destruct (processDir_entries _ _ _ _ _ _ P) as (_ & _ & _ & _ & _ & _ & Hw1).
    exists (dir :: before), d, after, stage, cause. split; [reflexivity|].
    split; [reflexivity|]. split; [exact St|].
    rewrite Hw, Hw1, <- app_assoc. reflexivity.
Qed.

Lemma failed_run_names_directory_and_step_witness :
  exists s' err,
    process latin1Only bookWorld emptySession ["book1"; "book2"; "book3"]
            ["*.flac"] = Returns (s', Some err) /\
    err = Errorf (InDir "book1") (Errorf SearchingFiles errNoFilesFound) /\
    exists before dir after stage cause,
      ["book1"; "book2"; "book3"] = (before ++ dir :: after)%list /\
      err = Errorf (InDir dir) (Errorf stage cause) /\
      In stage [SearchingFiles; CreatingZipFileRecord; WritingFileToArchive] /\
      walked (log s') = (walked (log emptySession) ++ before ++ [dir])%list.
Proof.
  eexists. eexists. split; [vm_compute; reflexivity|]. split; [reflexivity|].
  apply (failed_run_names_directory_and_step
           latin1Only bookWorld ["book1"; "book2"; "book3"] ["*.flac"]
           emptySession).
  vm_compute. reflexivity.
Defined.

(** The error of the loop over the records: the error of the zip writer,
    or the error of [copyFileTo] on one of the records. *)
Lemma writeRecords_error (w : world) (found : list fileRecord) :
  forall s s' e,
    writeRecords w found s = Returns (s', Some e) ->
    (exists cause, e = Errorf CreatingZipFileRecord (SysError cause)) \/
    (exists record s0 s1 written e',
        In record found /\
        copyFileTo w s0 (path record) = Returns (s1, written, Some e') /\
        e = Errorf WritingFileToArchive e').
Proof.
  induction found as [|record rest IH]; intros s s' e; [discriminate|].
  cbn [writeRecords].
  destruct (CreateHeader w _ _) as [errCreate|].
  { intros H. injection H as _ <-. left. now exists errCreate. }
  destruct (copyFileTo w _ (path record)) as [[[s1 written] [e1|]]| | |] eqn:Cp;
    cbn [bind]; try discriminate.
  - intros H. injection H as _ <-. right.
    eexists record, _, s1, written, e1. split; [now left|]. split; [exact Cp|].
    reflexivity.
  - intros H. destruct (IH _ _ _ H) as [L|(r & s0 & s2 & wr & e' & Hin & Hc & He)].
    + now left.
    + right. exists r, s0, s2, wr, e'. split; [now right|]. auto.
Qed.

(** X6: the errors that can come out of [process].  At the root of the
    chain there is "no files found", or an error of the system (of the
    walk, of the zip writer, of the opening or of the copy of a source
    file), or, when [file.Stat] failed, the "unable to open file" error
    that wraps nothing. *)
Theorem run_errors_have_known_roots (digitTable : Z -> bool) (w : world)
        (dirs fileGlobs : list string) (s s' : session) (err : error) :
  process digitTable w s dirs fileGlobs = Returns (s', Some err) ->
  rootCause err = errNoFilesFound \/
  (exists cause, rootCause err = SysError cause) \/
  (exists filename file errInfo,
      OpenFile w filename = inl file /\
      statErr file = Some errInfo /\
      rootCause err = ErrorfNil (UnableToOpenFile filename)).
Proof.
  revert s s' err. induction dirs as [|dir rest IH]; intros s s' err;
    [discriminate|].
  cbn [process].
  destruct (processDir digitTable w s dir fileGlobs) as [[s1 [e|]]| | |] eqn:P;
    cbn [bind]; try discriminate; [|apply IH].
  intros H. injection H as _ <-. cbn [rootCause]. revert P. unfold processDir.
  pose proof (searchRecords_spec dir (DirFS w dir) fileGlobs) as Sp.
  destruct (searchRecords dir (DirFS w dir) fileGlobs) as [found|e1] eqn:Sr.
  - destruct (sortFileRecords digitTable found) as [sorted| | |]; try discriminate.
    cbn [bind]. intros H.
    destruct (writeRecords_error w sorted _ _ _ H)
      as [[cause ->]|(r & s0 & s2 & wr & e' & _ & Hc & ->)].
    + right. left. now exists cause.
    + cbn [rootCause].
      destruct (copyFileTo_error w _ _ _ _ _ Hc)
        as [[cause Hr]|(file & ei & Ho & Hs & ->)].
      * right. left. now exists cause.
      * right. right. now exists (path r), file, ei.
  - intros H. injection H as _ <-. cbn [rootCause].
    destruct (DirFS w dir) as [root|e0].
    + destruct (readable root).
      * rewrite ?Sr in Sp.
        destruct (recordsOf dir fileGlobs (files "." root)); [|discriminate].
        injection Sp as ->. now left.
      * destruct Sp as [e2 Sp]. rewrite ?Sr in Sp. injection Sp as ->.
        right. left. now exists e2.
    + rewrite ?Sr in Sp. injection Sp as ->. right. left. now exists e0.
Qed.

Lemma run_errors_have_known_roots_witness :
  exists s' err,
    process latin1Only statFails emptySession ["d"; "e"] ["*.mp3"] =
    Returns (s', Some err) /\
    (rootCause err = errNoFilesFound \/
     (exists cause, rootCause err = SysError cause) \/
     (exists filename file errInfo,
         OpenFile statFails filename = inl file /\
         statErr file = Some errInfo /\
         rootCause err = ErrorfNil (UnableToOpenFile filename))).
Proof.
  eexists. eexists. split; [vm_compute; reflexivity|].
  eapply (run_errors_have_known_roots latin1Only statFails ["d"; "e"] ["*.mp3"]
            emptySession).
  vm_compute. reflexivity.
Defined.

(** ** The names of the entries *)

Lemma length_append (a b : string) :
  String.length (a ++ b) = (String.length a + String.length b)%nat.
Proof. induction a as [|c t IH]; simpl; congruence. Qed.

Lemma append_assoc (a b c : string) : (a ++ b) ++ c = a ++ (b ++ c).
Proof. induction a as [|x t IH]; simpl; congruence. Qed.

Lemma ContainsByte_app (a b : string) (c : ascii) :
  strings.ContainsByte (a ++ b) c =
  strings.ContainsByte a c || strings.ContainsByte b c.
Proof.
  induction a as [|x t IH]; simpl; [reflexivity|].
  now rewrite IH, orb_assoc.
Qed.

Lemma flattenPath_app (a b : string) :
  flattenPath (a ++ b) = flattenPath a ++ flattenPath b.
Proof.
  unfold flattenPath. induction a as [|c t IH]; [reflexivity|].
  cbn [append strings.ReplaceByte].
  destruct (Ascii.eqb c filepath.Separator); rewrite IH; reflexivity.
Qed.

Lemma flattenPath_no_separator (p : string) :
  strings.ContainsByte p filepath.Separator = false -> flattenPath p = p.
Proof.
  unfold flattenPath. induction p as [|c t IH]; [reflexivity|].
  cbn [strings.ContainsByte strings.ReplaceByte]. intros H.
  apply orb_false_iff in H. destruct H as [H1 H2].
  rewrite H1, IH by exact H2. reflexivity.
Qed.

Lemma flattenPath_length (p : string) :
  String.length (flattenPath p) = String.length p.
Proof.
  unfold flattenPath. induction p as [|c t IH]; [reflexivity|].
  cbn [strings.ReplaceByte].
  destruct (Ascii.eqb c filepath.Separator); cbn; now rewrite IH.
Qed.

Lemma flattenPath_separator_free (p : string) :
  strings.ContainsByte (flattenPath p) filepath.Separator = false.
Proof.
  unfold flattenPath. induction p as [|c t IH]; [reflexivity|].
  cbn [strings.ReplaceByte].
  destruct (Ascii.eqb c filepath.Separator) eqn:E.
  - cbn. exact IH.
  - cbn [strings.ContainsByte]. now rewrite E.
Qed.

(** X7: a flattened path has the length of the path and holds no
    separator, and flattening it again changes nothing; the path flattener
    goes through concatenation. *)
Theorem flattenPath_flat (p q : string) :
  String.length (flattenPath p) = String.length p /\
  strings.ContainsByte (flattenPath p) filepath.Separator = false /\
  flattenPath (flattenPath p) = flattenPath p /\
  flattenPath (p ++ q) = flattenPath p ++ flattenPath q.
Proof.
  split; [apply flattenPath_length|].
  split; [apply flattenPath_separator_free|].
  split; [|apply flattenPath_app].
  apply flattenPath_no_separator, flattenPath_separator_free.
Qed.

(** X8: the path flattener is not injective: a file below a subdirectory
    and a file whose name has an underscore where the other path has the
    separator are two paths with one entry name. *)
Theorem flattened_names_collide (dir a b : string) :
  String.eqb (a ++ "/" ++ b) (a ++ "_" ++ b) = false /\
  name (recordOf dir (a ++ "/" ++ b)) = name (recordOf dir (a ++ "_" ++ b)).
Proof.
  split.
  - apply String.eqb_neq. intros H.
    induction a as [|c t IH]; cbn in H; [discriminate|].
    injection H as H. now apply IH.
  - unfold recordOf. cbn [name]. f_equal.
    rewrite !flattenPath_app. reflexivity.
Qed.

(** *** The directory prefix *)

Lemma isSep_eqb (c : ascii) : filepath.isSep c = Ascii.eqb c filepath.Separator.
Proof. reflexivity. Qed.

Lemma splitElement_separator_free (e : string) :
  strings.ContainsByte e filepath.Separator = false ->
  filepath.splitElement e = (e, EmptyString).
Proof.
  induction e as [|c t IH]; [reflexivity|].
  cbn [strings.ContainsByte filepath.splitElement]. intros H.
  apply orb_false_iff in H. destruct H as [H1 H2].
  unfold filepath.isSep. rewrite H1, IH by exact H2. reflexivity.
Qed.

Lemma endsElement_separator_free (e : string) :
  strings.ContainsByte e filepath.Separator = false ->
  filepath.endsElement e = isEmpty e.
Proof.
  destruct e as [|c t]; [reflexivity|]. cbn. intros H.
  apply orb_false_iff in H. now destruct H.
Qed.

Lemma cleanLoop_done (fuel : nat) (rooted : bool) (out : string) (dotdot : nat) :
  filepath.cleanLoop fuel rooted EmptyString out dotdot = out.
Proof. now destruct fuel. Qed.

(** [Clean] leaves a single path element as it is. *)
Lemma Clean_element (e : string) :
  isEmpty e = false ->
  strings.ContainsByte e filepath.Separator = false ->
  filepath.Clean e = e.
Proof.
  destruct e as [|c t]; [discriminate|]. intros _ H.
  pose proof H as H0.
  cbn [strings.ContainsByte] in H. apply orb_false_iff in H.
  destruct H as [H1 H2].
  assert (S1 : filepath.isSep c = false) by exact H1.
  unfold filepath.Clean. rewrite S1.
  cbn [String.length filepath.cleanLoop]. rewrite S1.
  rewrite (endsElement_separator_free t H2).
  assert (Real : forall fuel,
             filepath.cleanLoop fuel false
               (snd (filepath.splitElement (String c t)))
               (EmptyString ++ fst (filepath.splitElement (String c t))) 0 =
             String c t).
  { intros fuel. rewrite (splitElement_separator_free _ H0).
    cbn [fst snd append]. apply cleanLoop_done. }
  destruct (Ascii.eqb c ".") eqn:Dot; cbn [andb].
  - apply Ascii.eqb_eq in Dot. subst c.
    destruct t as [|c' t']; [reflexivity|]. cbn [isEmpty].
    cbn [strings.ContainsByte] in H2. apply orb_false_iff in H2.
    destruct H2 as [H3 H4].
    rewrite (endsElement_separator_free t' H4).
    destruct (Ascii.eqb c' ".") eqn:Dot'; cbn [andb].
    + apply Ascii.eqb_eq in Dot'. subst c'.
      destruct t' as [|c'' t'']; cbn [isEmpty].
      * reflexivity.
      * cbn [String.length Nat.eqb negb andb orb].
        destruct (filepath.splitElement _) as [el rest].
        cbn [fst snd] in Real. rewrite Real. reflexivity.
    + cbn [String.length Nat.eqb negb andb orb].
      destruct (filepath.splitElement _) as [el rest].
      cbn [fst snd] in Real. rewrite Real. reflexivity.
  - cbn [String.length Nat.eqb negb andb orb].
    destruct (filepath.splitElement _) as [el rest].
    cbn [fst snd] in Real. rewrite Real. reflexivity.
Qed.

Lemma stripTrailingSeparators_element (s : string) (c : ascii) :
  lastByte s = Some c -> filepath.isSep c = false ->
  filepath.stripTrailingSeparators s = s.
Proof.
  induction s as [|x t IH]; [reflexivity|]. intros L N.
  cbn [filepath.stripTrailingSeparators].
  destruct t as [|y t'].
  - cbn in *. injection L as ->. now rewrite N.
  - rewrite lastByte_cons in L by discriminate.
    rewrite (IH L N). reflexivity.
Qed.

Lemma stripTrailingSeparators_slash (s : string) :
  filepath.stripTrailingSeparators (s ++ "/") = filepath.stripTrailingSeparators s.
Proof.
  induction s as [|x t IH]; [reflexivity|].
  cbn [append filepath.stripTrailingSeparators]. now rewrite IH.
Qed.

Lemma lastByte_app (a b : string) :
  isEmpty b = false -> lastByte (a ++ b) = lastByte b.
Proof.
  intros H. induction a as [|c t IH]; [reflexivity|].
  cbn [append]. rewrite lastByte_cons; [exact IH|].
  destruct t; destruct b; cbn; discriminate.
Qed.

Lemma lastByte_separator_free (e : string) (c : ascii) :
  strings.ContainsByte e filepath.Separator = false ->
  lastByte e = Some c -> filepath.isSep c = false.
Proof.
  induction e as [|x t IH]; [discriminate|].
  cbn [strings.ContainsByte]. intros H L.
  apply orb_false_iff in H. destruct H as [H1 H2].
  destruct t as [|y t'].
  - cbn in L. injection L as <-. exact H1.
  - rewrite lastByte_cons in L by discriminate. now apply IH.
Qed.

Lemma lastElement_separator_free (e : string) :
  strings.ContainsByte e filepath.Separator = false ->
  filepath.lastElement e = e.
Proof.
  destruct e as [|c t]; [reflexivity|]. cbn [strings.ContainsByte].
  intros H. apply orb_false_iff in H. destruct H as [H1 H2].
  cbn [filepath.lastElement]. rewrite H2. unfold filepath.isSep. now rewrite H1.
Qed.

Lemma lastElement_after_separator (parent e : string) :
  strings.ContainsByte e filepath.Separator = false ->
  filepath.lastElement (parent ++ "/" ++ e) = e.
Proof.
  intros H. induction parent as [|c t IH].
  - cbn [append filepath.lastElement]. rewrite H. reflexivity.
  - cbn [append filepath.lastElement].
    rewrite ContainsByte_app. cbn [append strings.ContainsByte].
    replace (Ascii.eqb "/" filepath.Separator) with true by reflexivity.
    cbn [orb]. rewrite orb_true_r. exact IH.
Qed.

Lemma lastByte_some (e : string) :
  isEmpty e = false -> exists c, lastByte e = Some c.
Proof.
  induction e as [|x t IH]; [discriminate|]. intros _.
  destruct t as [|y t']; [now exists x|].
  rewrite lastByte_cons by discriminate. now apply IH.
Qed.

(** [Base] answers the last element of a path, whatever comes before it
    and however many separators follow it. *)
Lemma Base_last_element (parent e : string) :
  isEmpty e = false ->
  strings.ContainsByte e filepath.Separator = false ->
  filepath.Base e = e /\
  filepath.Base (parent ++ "/" ++ e) = e /\
  filepath.Base (parent ++ "/" ++ e ++ "/") = e.
Proof.
  intros N H.
  destruct (lastByte_some e N) as [c L].
  pose proof (lastByte_separator_free e c H L) as Hc.
  assert (B : forall s, lastByte s = Some c -> filepath.lastElement s = e ->
                        filepath.Base s = e /\ filepath.Base (s ++ "/") = e).
  { intros s Ls Le. unfold filepath.Base.
    rewrite stripTrailingSeparators_slash.
    rewrite (stripTrailingSeparators_element s c Ls Hc), Le, N.
    destruct s as [|x t]; [discriminate|]. cbn [append isEmpty]. auto. }
  split; [apply (B e L), lastElement_separator_free, H|].
  assert (L2 : lastByte (parent ++ "/" ++ e) = Some c).
  { rewrite lastByte_app; [|now destruct e].
    rewrite (lastByte_app "/" e N). exact L. }
  destruct (B (parent ++ "/" ++ e) L2 (lastElement_after_separator parent e H))
    as [B1 B2].
  split; [exact B1|].
  replace (parent ++ "/" ++ e ++ "/") with ((parent ++ "/" ++ e) ++ "/")
    by (rewrite !append_assoc; reflexivity).
  exact B2.
Qed.

(** X9: the directory prefix is made of the last element of the directory
    argument alone: what comes before the last separator and the separators
    at the end do not count, so directories of the same name in different
    places give the same prefix; for the element ["."] there is no
    prefix. *)
Theorem sanitizeDirPrefix_last_element (parent e : string) :
  isEmpty e = false ->
  strings.ContainsByte e filepath.Separator = false ->
  sanitizeDirPrefix e = (if String.eqb e "." then "" else e ++ "_") /\
  sanitizeDirPrefix (parent ++ "/" ++ e) = sanitizeDirPrefix e /\
  sanitizeDirPrefix (parent ++ "/" ++ e ++ "/") = sanitizeDirPrefix e.
Proof.
  intros N H. destruct (Base_last_element parent e N H) as (B1 & B2 & B3).
  unfold sanitizeDirPrefix. rewrite B1, B2, B3, (Clean_element e N H). auto.
Qed.

Lemma sanitizeDirPrefix_last_element_witness :
  isEmpty "book1" = false /\
  strings.ContainsByte "book1" filepath.Separator = false /\
  sanitizeDirPrefix "book1" = "book1_" /\
  sanitizeDirPrefix ("/home/ann/audio" ++ "/" ++ "book1") = sanitizeDirPrefix "book1" /\
  sanitizeDirPrefix ("../other" ++ "/" ++ "book1" ++ "/") = sanitizeDirPrefix "book1".
Proof.
  split; [reflexivity|]. split; [reflexivity|].
  destruct (sanitizeDirPrefix_last_element "/home/ann/audio" "book1"
              eq_refl eq_refl) as (S1 & S2 & _).
  destruct (sanitizeDirPrefix_last_element "../other" "book1"
              eq_refl eq_refl) as (_ & _ & S3).
  split; [exact S1|]. split; [exact S2 | exact S3].
Defined.

(** ** The default pattern *)

(** What the loop of [Match] that skips bytes finds for the chunk [".mp3"]
    at the end of the pattern: some bytes, none of them a separator, and
    then the chunk and nothing more. *)
Lemma skipLoop_mp3_answer (name : string) :
  filepath.skipLoop mp3 true name =
  Ok (match name with
      | EmptyString => None
      | String c t =>
        if negb (strings.ContainsByte name filepath.Separator) && endsWith mp3 t
        then Some EmptyString else None
      end).
Proof.
  induction name as [|c t IH]; [reflexivity|].
  cbn [filepath.skipLoop strings.ContainsByte]. unfold filepath.isSep.
  destruct (Ascii.eqb c filepath.Separator) eqn:Ec; [reflexivity|].
  cbn [orb]. rewrite matchChunk_mp3.
  assert (Hexact : String.eqb (take 4 t) mp3 && isEmpty (drop 4 t) =
                   String.eqb t mp3).
  { pose proof (take_drop 4 t) as TD. pose proof (length_drop 4 t) as LD.
    destruct (drop 4 t) as [|c4 t4] eqn:Dr; cbn [isEmpty].
    - rewrite append_empty_r in TD. rewrite TD. apply andb_true_r.
    - rewrite andb_false_r. symmetry. apply String.eqb_neq. intros ->.
      cbn in LD. discriminate. }
  assert (Hstep :
    (if String.eqb (take 4 t) mp3
     then if true && negb (isEmpty (drop 4 t))
          then filepath.skipLoop mp3 true t else Ok (Some (drop 4 t))
     else filepath.skipLoop mp3 true t) =
    if String.eqb t mp3 then Ok (Some EmptyString)
    else filepath.skipLoop mp3 true t).
  { rewrite <- Hexact. destruct (String.eqb (take 4 t) mp3); [|reflexivity].
    cbn [andb]. destruct (drop 4 t); reflexivity. }
  destruct (String.eqb (take 4 t) mp3) eqn:E4.
  - cbn [andb] in *. rewrite Hstep. clear Hstep.
    destruct (String.eqb t mp3) eqn:Et.
    + apply String.eqb_eq in Et. subst t. reflexivity.
    + rewrite IH. destruct t as [|c' t']; [discriminate|].
      cbn [endsWith]. rewrite Et. cbn [orb]. reflexivity.
  - rewrite Hstep. clear Hstep.
    destruct (String.eqb t mp3) eqn:Et.
    + apply String.eqb_eq in Et. subst t. discriminate.
    + rewrite IH. destruct t as [|c' t']; [reflexivity|].
      cbn [endsWith]. rewrite Et. cbn [orb]. reflexivity.
Qed.

Lemma endsWith_mp3_separator (s : string) :
  (String.eqb s mp3 ||
   match s with
   | EmptyString => false
   | String c t =>
     negb (strings.ContainsByte s filepath.Separator) && endsWith mp3 t
   end) =
  negb (strings.ContainsByte s filepath.Separator) && endsWith mp3 s.
Proof.
  destruct s as [|c t]; [reflexivity|].
  cbn [endsWith]. destruct (String.eqb (String c t) mp3) eqn:E; cbn [orb].
  - apply String.eqb_eq in E. rewrite E. reflexivity.
  - reflexivity.
Qed.

(** [filepath.Match] on the default pattern. *)
Lemma Match_default (relpath : string) :
  filepath.Match "*.mp3" relpath =
  Ok (negb (strings.ContainsByte relpath filepath.Separator) &&
      endsWith ".mp3" relpath).
Proof.
  unfold filepath.Match.
  cbn [String.length filepath.MatchLoop isEmpty].
  change (filepath.scanChunk "*.mp3") with (true, mp3, EmptyString).
  cbn [andb isEmpty orb negb String.length].
  rewrite matchChunk_mp3, skipLoop_mp3_answer.
  change ".mp3" with mp3. rewrite <- endsWith_mp3_separator.
  assert (Hexact : String.eqb (take 4 relpath) mp3 && isEmpty (drop 4 relpath) =
                   String.eqb relpath mp3).
  { pose proof (take_drop 4 relpath) as TD.
    pose proof (length_drop 4 relpath) as LD.
    destruct (drop 4 relpath) as [|c4 t4] eqn:Dr; cbn [isEmpty].
    - rewrite append_empty_r in TD. rewrite TD. apply andb_true_r.
    - rewrite andb_false_r. symmetry. apply String.eqb_neq. intros ->.
      cbn in LD. discriminate. }
  rewrite <- Hexact.
  destruct (String.eqb (take 4 relpath) mp3); cbn [andb orb].
  - destruct (isEmpty (drop 4 relpath)) eqn:Em; cbn [orb].
    + destruct (drop 4 relpath); [reflexivity | discriminate].
    + destruct relpath as [|c t]; [reflexivity|].
      destruct (negb _ && _); reflexivity.
  - destruct relpath as [|c t]; [reflexivity|].
    destruct (negb _ && _); reflexivity.
Qed.

Lemma matches_default (relpath : string) :
  matches "*.mp3" relpath = topLevel relpath && endsWith ".mp3" relpath.
Proof. unfold matches, topLevel. now rewrite Match_default. Qed.

(** X10: the default pattern ["*.mp3"] matches a path exactly when the path
    holds no separator and ends with [".mp3"], in these very bytes: the
    match is case sensitive, and the name [".mp3"] itself matches. *)
Theorem default_pattern_matches (relpath : string) :
  filepath.Match "*.mp3" relpath =
  Ok (negb (strings.ContainsByte relpath filepath.Separator) &&
      endsWith ".mp3" relpath) /\
  matchesAny ["*.mp3"] relpath = topLevel relpath && endsWith ".mp3" relpath /\
  filepath.Match "*.mp3" ".mp3" = Ok true /\
  filepath.Match "*.mp3" "a.MP3" = Ok false.
Proof.
  split; [apply Match_default|]. split.
  - unfold matchesAny. cbn [existsb]. rewrite matches_default.
    apply orb_false_r.
  - split; rewrite Match_default; reflexivity.
Qed.

(** X11: the default pattern stays in the set whatever [-g] adds: every
    file of the walked directory itself whose name ends with [".mp3"] is
    discovered; and with no [-g] nothing else is. *)
Theorem top_level_mp3_always_found (dir : string) (fsys : fs.FS)
        (globs : list string) (found : list fileRecord) :
  searchRecords dir fsys ("*.mp3" :: globs) = Ok found ->
  exists root,
    fsys = fs.Root root /\
    (forall relpath,
        In relpath (files "." root) ->
        topLevel relpath = true -> endsWith ".mp3" relpath = true ->
        In (recordOf dir relpath) found) /\
    (globs = [] ->
     found = map (recordOf dir)
                 (filter (fun relpath => topLevel relpath && endsWith ".mp3" relpath)
                         (files "." root))).
Proof.
  intros H. destruct (searchRecords_found _ _ _ _ H) as (root & -> & _ & ->).
  exists root. split; [reflexivity|]. unfold recordsOf. split.
  - intros relpath Hin T E. apply in_map, filter_In. split; [exact Hin|].
    unfold matchesAny. cbn [existsb]. now rewrite matches_default, T, E.
  - intros ->. f_equal. apply filter_ext. intros relpath.
    unfold matchesAny. cbn [existsb]. rewrite matches_default.
    apply orb_false_r.
Qed.

Lemma top_level_mp3_always_found_witness :
  searchRecords "book1" (fs.Root book) ["*.mp3"; "*.jpg"] =
  Ok [recordOf "book1" "cover.jpg"; recordOf "book1" "intro.mp3"] /\
  exists root,
    fs.Root book = fs.Root root /\
    (forall relpath,
        In relpath (files "." root) ->
        topLevel relpath = true -> endsWith ".mp3" relpath = true ->
        In (recordOf "book1" relpath)
           [recordOf "book1" "cover.jpg"; recordOf "book1" "intro.mp3"]) /\
    (["*.jpg"] = [] ->
     [recordOf "book1" "cover.jpg"; recordOf "book1" "intro.mp3"] =
     map (recordOf "book1")
         (filter (fun relpath => topLevel relpath && endsWith ".mp3" relpath)
                 (files "." root))).
Proof.
  split; [reflexivity|].
  apply (top_level_mp3_always_found "book1" (fs.Root book) ["*.jpg"]).
  reflexivity.
Defined.

(** ** Patterns made of a name, and of a star and a name *)

Lemma literal_cons (c : ascii) (t : string) :
  literal (String c t) = true ->
  Ascii.eqb c "*" = false /\ Ascii.eqb c "?" = false /\
  Ascii.eqb c "[" = false /\ Ascii.eqb c "\" = false /\ literal t = true.
Proof.
  cbn [literal]. intros H. apply andb_true_iff in H. destruct H as [H1 H2].
  apply negb_true_iff in H1. apply orb_false_iff in H1. destruct H1 as [H1 H4].
  apply orb_false_iff in H1. destruct H1 as [H1 H3].
  apply orb_false_iff in H1. destruct H1 as [H1 H1']. auto.
Qed.

Lemma scanLoop_literal (lit : string) :
  literal lit = true -> filepath.scanLoop false lit = (lit, EmptyString).
Proof.
  induction lit as [|c t IH]; [reflexivity|]. intros H.
  destruct (literal_cons c t H) as (H1 & H2 & H3 & H4 & H5).
  cbn [filepath.scanLoop]. rewrite H4, H3, H1, (IH H5). cbn [andb].
  destruct (Ascii.eqb c "]"); reflexivity.
Qed.

Lemma skipStars_literal (lit : string) :
  literal lit = true -> filepath.skipStars lit = (false, lit).
Proof.
  destruct lit as [|c t]; [reflexivity|]. intros H.
  destruct (literal_cons c t H) as (H1 & _). cbn. now rewrite H1.
Qed.

Lemma scanChunk_literal (lit : string) :
  literal lit = true ->
  filepath.scanChunk lit = (false, lit, EmptyString) /\
  filepath.scanChunk ("*" ++ lit) = (true, lit, EmptyString).
Proof.
  intros H. unfold filepath.scanChunk. cbn [append filepath.skipStars].
  replace (Ascii.eqb "*" "*") with true by reflexivity.
  rewrite (skipStars_literal lit H). cbn [snd].
  now rewrite (scanLoop_literal lit H).
Qed.

Lemma matchChunkLoop_literal_failed (lit : string) :
  literal lit = true ->
  forall fuel s, filepath.matchChunkLoop fuel lit s true = Ok None.
Proof.
  induction lit as [|c t IH]; intros H fuel s.
  { now destruct fuel. }
  destruct (literal_cons c t H) as (H1 & H2 & H3 & H4 & H5).
  destruct fuel as [|fuel]; [reflexivity|].
  rewrite matchChunkLoop_literal by assumption.
  destruct s; apply IH; exact H5.
Qed.

(** [matchChunk] on a chunk without special characters compares the chunk
    with the beginning of the name. *)
Lemma matchChunk_literal (lit : string) :
  literal lit = true ->
  forall s,
    filepath.matchChunk lit s =
    Ok (if String.eqb (take (String.length lit) s) lit
        then Some (drop (String.length lit) s) else None).
Proof.
  unfold filepath.matchChunk.
  induction lit as [|c t IH]; intros H s.
  { cbn. now destruct s. }
  destruct (literal_cons c t H) as (H1 & H2 & H3 & H4 & H5).
  cbn [String.length]. rewrite matchChunkLoop_literal by assumption.
  destruct s as [|s0 st].
  - rewrite matchChunkLoop_literal_failed by exact H5. reflexivity.
  - cbn [take drop String.eqb]. rewrite (Ascii.eqb_sym s0 c).
    destruct (Ascii.eqb c s0); cbn [negb].
    + apply IH. exact H5.
    + apply matchChunkLoop_literal_failed. exact H5.
Qed.

Lemma take_drop_exact (lit t : string) :
  String.eqb (take (String.length lit) t) lit &&
  isEmpty (drop (String.length lit) t) = String.eqb t lit.
Proof.
  pose proof (take_drop (String.length lit) t) as TD.
  pose proof (length_drop (String.length lit) t) as LD.
  destruct (drop (String.length lit) t) as [|c4 t4] eqn:Dr; cbn [isEmpty].
  - rewrite append_empty_r in TD. rewrite TD. apply andb_true_r.
  - rewrite andb_false_r. symmetry. apply String.eqb_neq. intros ->.
    cbn in LD. lia.
Qed.

Lemma endsWith_self (s : string) : endsWith s s = true.
Proof. destruct s; cbn; [reflexivity | now rewrite Ascii.eqb_refl, String.eqb_refl]. Qed.

(** What the loop of [Match] that skips bytes finds for a last chunk
    without special characters and without separator. *)
Lemma skipLoop_literal_answer (lit : string) :
  literal lit = true ->
  strings.ContainsByte lit filepath.Separator = false ->
  forall name,
    filepath.skipLoop lit true name =
    Ok (match name with
        | EmptyString => None
        | String c t =>
          if negb (strings.ContainsByte name filepath.Separator) && endsWith lit t
          then Some EmptyString else None
        end).
Proof.
  intros L N relname. induction relname as [|c t IH]; [reflexivity|].
  cbn [filepath.skipLoop strings.ContainsByte]. unfold filepath.isSep.
  destruct (Ascii.eqb c filepath.Separator) eqn:Ec; [reflexivity|].
  cbn [orb]. rewrite (matchChunk_literal lit L).
  pose proof (take_drop_exact lit t) as X.
  assert (Hrest : filepath.skipLoop lit true t =
                  Ok (if negb (strings.ContainsByte t filepath.Separator) &&
                         match t with
                         | EmptyString => false
                         | String _ t' => endsWith lit t'
                         end
                      then Some EmptyString else None)).
  { rewrite IH. destruct t; reflexivity. }
  assert (Hgoal : forall r,
    (if String.eqb t lit then Ok (Some EmptyString)
     else filepath.skipLoop lit true t) = r ->
    r = Ok (if negb (strings.ContainsByte t filepath.Separator) && endsWith lit t
            then Some EmptyString else None)).
  { intros r <-. destruct (String.eqb t lit) eqn:Et.
    - apply String.eqb_eq in Et. subst t. now rewrite N, endsWith_self.
    - rewrite Hrest. destruct t as [|c' t']; cbn [endsWith]; rewrite Et;
        reflexivity. }
  apply Hgoal.
  destruct (String.eqb (take (String.length lit) t) lit); cbn [andb] in X |- *.
  - destruct (drop (String.length lit) t); cbn [isEmpty negb] in X |- *;
      now rewrite <- X.
  - now rewrite <- X.
Qed.

Lemma endsWith_separator_free (lit s : string) :
  strings.ContainsByte lit filepath.Separator = false ->
  (String.eqb s lit ||
   match s with
   | EmptyString => false
   | String c t =>
     negb (strings.ContainsByte s filepath.Separator) && endsWith lit t
   end) =
  negb (strings.ContainsByte s filepath.Separator) && endsWith lit s.
Proof.
  intros N. destruct s as [|c t].
  - cbn. now rewrite orb_false_r.
  - cbn [endsWith]. destruct (String.eqb (String c t) lit) eqn:E; cbn [orb].
    + apply String.eqb_eq in E. rewrite E, N. reflexivity.
    + reflexivity.
Qed.

(** X12: a pattern without special characters matches its own text and
    nothing else; a star followed by such a text without separator matches
    the paths that hold no separator and end with the text.  Neither is
    ever reported as malformed. *)
Theorem simple_patterns_match (lit relpath : string) :
  literal lit = true ->
  filepath.Match lit relpath = Ok (String.eqb relpath lit) /\
  (isEmpty lit = false ->
   strings.ContainsByte lit filepath.Separator = false ->
   filepath.Match ("*" ++ lit) relpath =
   Ok (negb (strings.ContainsByte relpath filepath.Separator) &&
       endsWith lit relpath)).
Proof.
  intros L. destruct (scanChunk_literal lit L) as [S1 S2]. split.
  - unfold filepath.Match. destruct lit as [|c t].
    { cbn. now destruct relpath. }
    cbn [String.length filepath.MatchLoop isEmpty]. rewrite S1.
    cbn [andb isEmpty orb negb String.length].
    rewrite (matchChunk_literal _ L).
    rewrite <- (take_drop_exact (String c t) relpath).
    destruct (String.eqb (take _ relpath) (String c t)); [|reflexivity].
    cbn [andb]. destruct (drop _ relpath) eqn:D; cbn [isEmpty].
    + now destruct (String.length t).
    + reflexivity.
  - intros Ne N. unfold filepath.Match.
    cbn [append String.length filepath.MatchLoop isEmpty]. 
    change (String "*" lit) with ("*" ++ lit). rewrite S2. rewrite Ne.
    cbn [andb isEmpty orb negb String.length].
    rewrite (matchChunk_literal _ L), (skipLoop_literal_answer lit L N).
    rewrite <- (endsWith_separator_free lit relpath N).
    rewrite <- (take_drop_exact lit relpath).
    assert (Hend : forall t', filepath.MatchLoop (String.length lit) EmptyString t' =
                              Ok (isEmpty t')).
    { intros t'. now destruct (String.length lit). }
    destruct (String.eqb (take _ relpath) lit); cbn [andb orb].
    + destruct (isEmpty (drop _ relpath)) eqn:Em; cbn [orb].
      * rewrite Hend, Em. reflexivity.
      * destruct relpath as [|c t]; [reflexivity|].
        destruct (negb _ && _); [apply Hend | reflexivity].
    + destruct relpath as [|c t]; [reflexivity|].
      destruct (negb _ && _); [apply Hend | reflexivity].
Qed.

Lemma simple_patterns_match_witness :
  filepath.Match "cover.jpg" "cover.jpg" = Ok true /\
  filepath.Match "cover.jpg" "disc1/cover.jpg" = Ok false /\
  filepath.Match ("*" ++ ".m4b") "part1.m4b" = Ok true /\
  filepath.Match ("*" ++ ".m4b") "disc1/part1.m4b" = Ok false.
Proof.
  split; [|split; [|split]].
  - apply (proj1 (simple_patterns_match "cover.jpg" "cover.jpg" eq_refl)).
  - apply (proj1 (simple_patterns_match "cover.jpg" "disc1/cover.jpg" eq_refl)).
  - apply (proj2 (simple_patterns_match ".m4b" "part1.m4b" eq_refl)); reflexivity.
  - apply (proj2 (simple_patterns_match ".m4b" "disc1/part1.m4b" eq_refl));
      reflexivity.
Defined.

(** ** The natural comparator on ASCII names *)

Lemma allAscii_app (a b : string) :
  allAscii (a ++ b) = allAscii a && allAscii b.
Proof.
  induction a as [|c t IH]; [reflexivity|]. cbn. now rewrite IH, andb_assoc.
Qed.

Lemma allDigits_ascii (d : string) : allDigits d = true -> allAscii d = true.
Proof.
  induction d as [|c t IH]; [reflexivity|]. cbn [allDigits allAscii].
  intros H. apply andb_true_iff in H. destruct H as [H1 H2].
  rewrite (IH H2), andb_true_r. unfold isAsciiDigit in H1.
  apply andb_true_iff in H1. destruct H1 as [_ H1].
  apply Z.leb_le in H1. apply Z.ltb_lt. lia.
Qed.

Lemma take_app (a b : string) : take (String.length a) (a ++ b) = a.
Proof. induction a as [|c t IH]; cbn; [now destruct b | now rewrite IH]. Qed.

Lemma drop_app (a b : string) : drop (String.length a) (a ++ b) = b.
Proof. induction a as [|c t IH]; cbn; [reflexivity | exact IH]. Qed.

Lemma firstByte_app_none (p : ascii -> bool) (a b : string) :
  firstByte p a = None ->
  firstByte p (a ++ b) =
  option_map (fun k => (String.length a + k)%nat) (firstByte p b).
Proof.
  induction a as [|c t IH]; cbn [firstByte append String.length].
  - intros _. now destruct (firstByte p b).
  - destruct (p c); [discriminate|].
    destruct (firstByte p t); [discriminate|]. intros _.
    rewrite IH by reflexivity. now destruct (firstByte p b).
Qed.

Lemma digitFree_firstByte (s : string) :
  digitFree s = true -> firstByte isAsciiDigit s = None.
Proof.
  induction s as [|c t IH]; [reflexivity|]. cbn [digitFree firstByte].
  intros H. apply andb_true_iff in H. destruct H as [H1 H2].
  apply negb_true_iff in H1. now rewrite H1, IH.
Qed.

Lemma allDigits_firstByte (s : string) :
  allDigits s = true -> firstByte (fun c => negb (isAsciiDigit c)) s = None.
Proof.
  induction s as [|c t IH]; [reflexivity|]. cbn [allDigits firstByte].
  intros H. apply andb_true_iff in H. destruct H as [H1 H2].
  now rewrite H1, IH.
Qed.

(** Where the first digit of [p ++ d ++ r] is, and where its run ends. *)
Lemma firstDigit_after_prefix (p d r : string) :
  digitFree p = true -> startsWithDigit d = true ->
  firstByte isAsciiDigit (p ++ d ++ r) = Some (String.length p).
Proof.
  intros P D. rewrite firstByte_app_none by now apply digitFree_firstByte.
  destruct d as [|c t]; [discriminate|]. cbn in D. cbn [append firstByte].
  rewrite D. cbn. now rewrite Nat.add_0_r.
Qed.

Lemma run_end_after_digits (d r : string) :
  allDigits d = true -> startsWithDigit r = false ->
  match firstByte (fun c => negb (isAsciiDigit c)) (d ++ r) with
  | Some k => k
  | None => String.length (d ++ r)
  end = String.length d.
Proof.
  intros D R. rewrite firstByte_app_none by now apply allDigits_firstByte.
  destruct r as [|c t].
  - cbn. now rewrite append_empty_r.
  - cbn in R. cbn [firstByte]. rewrite R. cbn. now rewrite Nat.add_0_r.
Qed.

Section AsciiNames.

Variable digitTable : Z -> bool.

Local Abbreviation isD := (IsDigit digitTable).
Local Abbreviation rEnd := (runEnd digitTable).

(** The answer of the loop does not depend on the rounds it is given, once
    they suffice. *)
Lemma naturalLessLoop_rounds (fuel fuel' : nat) (strA strB : string) :
  (String.length strA < fuel)%nat ->
  (String.length strA < fuel')%nat ->
  naturalLessLoop digitTable fuel strA strB =
  naturalLessLoop digitTable fuel' strA strB.
Proof.
  revert fuel' strA strB; induction fuel as [|fuel IH];
    intros fuel' strA strB Hf Hf'; [lia|].
  destruct fuel' as [|fuel']; [lia|].
  rewrite !naturalLessLoop_round. cbv zeta.
  destruct (strings.IndexFunc strA isD =? -1) eqn:EA; [reflexivity|].
  destruct (strings.IndexFunc strB isD =? -1); [reflexivity|].
  destruct (negb _); [reflexivity|].
  destruct (strconv.Atoi _); [|reflexivity].
  destruct (strconv.Atoi _); [|reflexivity].
  destruct (negb _); [reflexivity|].
  destruct (negb _); [reflexivity|].
  destruct (_ || _); [reflexivity|].
  apply Z.eqb_neq in EA.
  pose proof (round_shrinks digitTable strA EA) as H. cbv zeta in H.
  apply IH; lia.
Qed.

Lemma Atoi_nonempty (d : string) (v : Z) :
  strconv.Atoi d = inl v -> isEmpty d = false.
Proof. destruct d; [discriminate | reflexivity]. Qed.

Lemma allDigits_start (d : string) :
  allDigits d = true -> isEmpty d = false -> startsWithDigit d = true.
Proof.
  destruct d as [|c t]; [discriminate|]. cbn. intros H _.
  apply andb_true_iff in H. now destruct H.
Qed.

(** One round of the loop on two names with the same text before their
    first digit run: the runs are handed to [strconv.Atoi]; when it refuses
    one of them the loop panics, and the message quotes the run of the
    first name in both cases; otherwise the values of the runs decide, then
    the widths of the runs, and when both are equal the comparison goes on
    with what follows the runs, unless one of the names ends there. *)
Lemma naturalLessLoop_runs (fuel : nat) (p da db ra rb : string) :
  allAscii p = true -> digitFree p = true ->
  allDigits da = true -> allDigits db = true ->
  isEmpty da = false -> isEmpty db = false ->
  allAscii ra = true -> allAscii rb = true ->
  startsWithDigit ra = false -> startsWithDigit rb = false ->
  naturalLessLoop digitTable (S fuel) (p ++ da ++ ra) (p ++ db ++ rb) =
  match strconv.Atoi da with
  | inr _ => Panics (cantConvert da)
  | inl va =>
    match strconv.Atoi db with
    | inr _ => Panics (cantConvert da)
    | inl vb =>
      if negb (va =? vb) then Returns (va <? vb)
      else if negb (len da =? len db) then Returns (len da <? len db)
      else if isEmpty ra || isEmpty rb then Returns true
      else naturalLessLoop digitTable fuel ra rb
    end
  end.
Proof.
  intros Ap Fp Da Db Na Nb Ara Arb Sa Sb.
  pose proof (allDigits_start da Da Na) as Ha.
  pose proof (allDigits_start db Db Nb) as Hb.
  assert (A1 : allAscii (da ++ ra) = true)
    by (rewrite allAscii_app, (allDigits_ascii da Da), Ara; reflexivity).
  assert (B1 : allAscii (db ++ rb) = true)
    by (rewrite allAscii_app, (allDigits_ascii db Db), Arb; reflexivity).
  assert (A0 : allAscii (p ++ da ++ ra) = true)
    by (rewrite allAscii_app, Ap, A1; reflexivity).
  assert (B0 : allAscii (p ++ db ++ rb) = true)
    by (rewrite allAscii_app, Ap, B1; reflexivity).
  rewrite naturalLessLoop_round. cbv zeta.
  rewrite (firstDigit_ascii digitTable _ A0), (firstDigit_ascii digitTable _ B0).
  rewrite (firstDigit_after_prefix p da ra Fp Ha).
  rewrite (firstDigit_after_prefix p db rb Fp Hb).
  destruct (Z.of_nat (String.length p) =? -1) eqn:E;
    [apply Z.eqb_eq in E; lia|]. clear E.
  unfold sliceTo, sliceFrom. rewrite !Nat2Z.id.
  rewrite !take_app, !drop_app, String.eqb_refl. cbn [negb].
  rewrite (runEnd_ascii digitTable _ A1), (runEnd_ascii digitTable _ B1).
  rewrite (run_end_after_digits da ra Da Sa), (run_end_after_digits db rb Db Sb).
  rewrite !Nat2Z.id, !take_app, !drop_app.
  destruct (strconv.Atoi da) as [va|ea]; [|reflexivity].
  destruct (strconv.Atoi db) as [vb|eb]; [|reflexivity].
  fold (len da). fold (len db).
  destruct (negb (va =? vb)); [reflexivity|].
  destruct (negb (len da =? len db)); [reflexivity|].
  assert (La : (len (da ++ ra) <=? len da) = isEmpty ra).
  { unfold len. rewrite length_append. destruct ra; cbn [isEmpty String.length].
    - apply Z.leb_le. lia.
    - apply Z.leb_gt. lia. }
  assert (Lb : (len (db ++ rb) <=? len db) = isEmpty rb).
  { unfold len. rewrite length_append. destruct rb; cbn [isEmpty String.length].
    - apply Z.leb_le. lia.
    - apply Z.leb_gt. lia. }
  rewrite La, Lb. reflexivity.
Qed.

Lemma naturalLessLoop_segment (fuel : nat) (p da db ra rb : string) (va vb : Z) :
  allAscii p = true -> digitFree p = true ->
  allDigits da = true -> allDigits db = true ->
  strconv.Atoi da = inl va -> strconv.Atoi db = inl vb ->
  allAscii ra = true -> allAscii rb = true ->
  startsWithDigit ra = false -> startsWithDigit rb = false ->
  naturalLessLoop digitTable (S fuel) (p ++ da ++ ra) (p ++ db ++ rb) =
  if negb (va =? vb) then Returns (va <? vb)
  else if negb (len da =? len db) then Returns (len da <? len db)
  else if isEmpty ra || isEmpty rb then Returns true
  else naturalLessLoop digitTable fuel ra rb.
Proof.
  intros Ap Fp Da Db Va Vb Ara Arb Sa Sb.
  rewrite (naturalLessLoop_runs fuel p da db ra rb); auto;
    try (eapply Atoi_nonempty; eassumption).
  now rewrite Va, Vb.
Qed.

End AsciiNames.

(** X13: on two ASCII names with the same text before their first digit
    run, the comparator compares the values of the two runs; when the
    values are equal, the run with fewer digits comes first; when values
    and widths are equal, it answers "less" if one of the names ends with
    the run, and otherwise compares what follows the runs. *)
Theorem naturalLess_compares_runs (digitTable : Z -> bool)
        (p da db ra rb : string) (va vb : Z) :
  allAscii p = true -> digitFree p = true ->
  allDigits da = true -> allDigits db = true ->
  strconv.Atoi da = inl va -> strconv.Atoi db = inl vb ->
  allAscii ra = true -> allAscii rb = true ->
  startsWithDigit ra = false -> startsWithDigit rb = false ->
  naturalLess digitTable (p ++ da ++ ra) (p ++ db ++ rb) =
  if negb (va =? vb) then Returns (va <? vb)
  else if negb (len da =? len db) then Returns (len da <? len db)
  else if isEmpty ra || isEmpty rb then Returns true
  else naturalLess digitTable ra rb.
Proof.
  intros Ap Fp Da Db Va Vb Ara Arb Sa Sb. unfold naturalLess.
  rewrite (naturalLessLoop_segment digitTable _ p da db ra rb va vb)
    by assumption.
  destruct (negb (va =? vb)); [reflexivity|].
  destruct (negb (len da =? len db)); [reflexivity|].
  destruct (isEmpty ra || isEmpty rb); [reflexivity|].
  apply naturalLessLoop_rounds; [|lia].
  rewrite !length_append.
  pose proof (Atoi_nonempty da va Va) as N. destruct da; [discriminate|].
  cbn [String.length]. lia.
Qed.

Lemma naturalLess_compares_runs_witness :
  naturalLess latin1Only ("file" ++ "2" ++ ".mp3") ("file" ++ "10" ++ ".mp3") =
  Returns true /\
  naturalLess latin1Only ("cd" ++ "7" ++ ".mp3") ("cd" ++ "007" ++ ".mp3") =
  Returns true /\
  naturalLess latin1Only ("cd" ++ "007" ++ ".mp3") ("cd" ++ "7" ++ ".mp3") =
  Returns false.
Proof.
  split; [|split].
  - apply (naturalLess_compares_runs latin1Only "file" "2" "10" ".mp3" ".mp3" 2 10);
      reflexivity.
  - apply (naturalLess_compares_runs latin1Only "cd" "7" "007" ".mp3" ".mp3" 7 7);
      reflexivity.
  - apply (naturalLess_compares_runs latin1Only "cd" "007" "7" ".mp3" ".mp3" 7 7);
      reflexivity.
Defined.

(** *** Names that go on after the end of another name *)

Lemma split_at_digit (s : string) :
  exists p s',
    s = p ++ s' /\ digitFree p = true /\
    (isEmpty s' = true \/ startsWithDigit s' = true).
Proof.
  induction s as [|c t (p & s' & E & F & S)].
  - exists EmptyString, EmptyString. auto.
  - destruct (isAsciiDigit c) eqn:Dc.
    + exists EmptyString, (String c t). cbn. auto.
    + exists (String c p), s'. cbn. rewrite Dc, F, <- E. auto.
Qed.

Lemma split_run (s : string) :
  exists d r, s = d ++ r /\ allDigits d = true /\ startsWithDigit r = false.
Proof.
  induction s as [|c t (d & r & E & D & S)].
  - exists EmptyString, EmptyString. auto.
  - destruct (isAsciiDigit c) eqn:Dc.
    + exists (String c d), r. cbn. rewrite Dc, D, <- E. auto.
    + exists EmptyString, (String c t). cbn. auto.
Qed.

Lemma digitFree_ends (s : string) :
  digitFree s = true -> endsWithDigit s = false.
Proof.
  induction s as [|c t IH]; [reflexivity|]. cbn [digitFree]. intros H.
  apply andb_true_iff in H. destruct H as [H1 H2].
  destruct t as [|c' t'].
  - unfold endsWithDigit. cbn. now apply negb_true_iff.
  - rewrite endsWithDigit_cons by discriminate. now apply IH.
Qed.

Lemma endsWithDigit_app (a b : string) :
  isEmpty b = false -> endsWithDigit (a ++ b) = endsWithDigit b.
Proof. intros H. unfold endsWithDigit. now rewrite lastByte_app. Qed.

Lemma runsWithin_after_prefix (limit : nat) (p x : string) :
  digitFree p = true ->
  runsWithin limit 0 (p ++ x) = true -> runsWithin limit 0 x = true.
Proof.
  induction p as [|c t IH]; [auto|]. cbn [digitFree append runsWithin].
  intros H. apply andb_true_iff in H. destruct H as [H1 H2].
  apply negb_true_iff in H1. rewrite H1. now apply IH.
Qed.

Lemma runsWithin_after_digits (limit run : nat) (d r : string) :
  allDigits d = true ->
  runsWithin limit run (d ++ r) = true ->
  (isEmpty d = true \/ run + String.length d <= limit)%nat /\
  runsWithin limit 0 r = true.
Proof.
  revert run; induction d as [|c t IH]; intros run D R.
  - split; [now left|]. apply (runsWithin_less limit run 0); [lia | exact R].
  - cbn [allDigits] in D. apply andb_true_iff in D. destruct D as [D1 D2].
    cbn [append runsWithin] in R. rewrite D1 in R.
    apply andb_true_iff in R. destruct R as [R1 R2]. apply Nat.leb_le in R1.
    destruct (IH (S run) D2 R2) as [[E|L] Rr]; (split; [right|exact Rr]).
    + destruct t; [cbn; lia | discriminate].
    + cbn [String.length]. lia.
Qed.

Lemma parseDigits_digits (d : string) :
  allDigits d = true ->
  forall n k,
    0 <= n < 10 ^ Z.of_nat k -> (k + String.length d <= 19)%nat ->
    exists v, strconv.parseDigits n d = inl v /\
              0 <= v < 10 ^ Z.of_nat (k + String.length d).
Proof.
  induction d as [|c t IH]; intros D n k Hn Hk.
  - exists n. cbn. rewrite Nat.add_0_r. auto.
  - cbn [allDigits] in D. apply andb_true_iff in D. destruct D as [D1 D2].
    cbn [strconv.parseDigits String.length] in *.
    unfold isAsciiDigit in D1. apply andb_true_iff in D1.
    destruct D1 as [D1 D1']. apply Z.leb_le in D1, D1'.
    assert (Hd : (0 <=? byteVal c - 48) && (byteVal c - 48 <=? 9) = true)
      by (apply andb_true_iff; split; apply Z.leb_le; lia).
    rewrite Hd.
    assert (Hb : 0 <= n * 10 + (byteVal c - 48) < 10 ^ Z.of_nat (S k)).
    { rewrite Nat2Z.inj_succ, Z.pow_succ_r by lia. lia. }
    assert (Hmax : 10 ^ Z.of_nat (S k) <= strconv.maxUint64).
    { apply Z.le_trans with (10 ^ 19); [|vm_compute; discriminate].
      apply Z.pow_le_mono_r; lia. }
    destruct (strconv.maxUint64 <? n * 10 + (byteVal c - 48)) eqn:Ov;
      [apply Z.ltb_lt in Ov; lia|].
    assert (Hk' : (S k + String.length t <= 19)%nat) by lia.
    destruct (IH D2 _ (S k) Hb Hk') as (v & Hv & Hvb).
    exists v. split; [exact Hv|].
    replace (k + S (String.length t))%nat with (S k + String.length t)%nat by lia.
    exact Hvb.
Qed.

(** [strconv.Atoi] accepts a string of one to eighteen digits. *)
Lemma Atoi_digits (d : string) :
  allDigits d = true -> isEmpty d = false ->
  (String.length d <= 18)%nat ->
  exists v, strconv.Atoi d = inl v.
Proof.
  intros D N L.
  assert (H0 : 0 <= 0 < 10 ^ Z.of_nat 0) by (cbn; lia).
  assert (H19 : (0 + String.length d <= 19)%nat) by lia.
  destruct (parseDigits_digits d D 0 0%nat H0 H19) as (v & Hv & Hv0 & Hv1).
  exists v. destruct d as [|c t]; [discriminate|].
  cbn [allDigits] in D. apply andb_true_iff in D. destruct D as [Dc _].
  rewrite <- (take_all (S (String.length t)) (String c t)) by (cbn; lia).
  apply Atoi_short_run; [exact Dc | |].
  - rewrite take_all by (cbn; lia). exact Hv.
  - split; [exact Hv0|].
    apply Z.lt_le_trans with (10 ^ Z.of_nat (0 + String.length (String c t)));
      [exact Hv1|].
    apply Z.pow_le_mono_r; lia.
Qed.

Section ProperPrefixes.

Variable digitTable : Z -> bool.

(** A name that ends with a digit, and the same name followed by text that
    does not start with a digit: the loop answers "less" in both
    directions. *)
Lemma naturalLessLoop_extension (n : nat) :
  forall s t fuel fuel',
    (String.length s <= n)%nat ->
    allAscii s = true -> allAscii t = true ->
    runsWithin 18 0 s = true ->
    endsWithDigit s = true -> startsWithDigit t = false ->
    (String.length s < fuel)%nat ->
    (String.length (s ++ t) < fuel')%nat ->
    naturalLessLoop digitTable fuel s (s ++ t) = Returns true /\
    naturalLessLoop digitTable fuel' (s ++ t) s = Returns true.
Proof.
  induction n as [|n IH]; intros s t fuel fuel' Ln As At R E St Hf Hf'.
  { destruct s; [discriminate | cbn in Ln; lia]. }
  destruct (split_at_digit s) as (p & s' & -> & Fp & S').
  rewrite allAscii_app in As. apply andb_true_iff in As. destruct As as [Ap As'].
  apply runsWithin_after_prefix in R; [|exact Fp].
  destruct S' as [S'|S'].
  { destruct s'; [|discriminate]. rewrite append_empty_r in E.
    rewrite (digitFree_ends p Fp) in E. discriminate. }
  destruct (split_run s') as (d & r & -> & Dd & Sr).
  assert (Nd : isEmpty d = false).
  { destruct d; [|reflexivity]. cbn in S'. congruence. }
  rewrite allAscii_app in As'. apply andb_true_iff in As'.
  destruct As' as [_ Ar].
  destruct (runsWithin_after_digits 18 0 d r Dd R) as [[Ed|Ld] Rr];
    [congruence|].
  destruct (Atoi_digits d Dd Nd ltac:(lia)) as [v Hv].
  assert (Srt : startsWithDigit (r ++ t) = false)
    by (destruct r; [exact St | exact Sr]).
  assert (Art : allAscii (r ++ t) = true)
    by (rewrite allAscii_app, Ar, At; reflexivity).
  replace ((p ++ d ++ r) ++ t) with (p ++ d ++ (r ++ t)) in *
    by (rewrite !append_assoc; reflexivity).
  destruct fuel as [|fuel]; [lia|]. destruct fuel' as [|fuel']; [lia|].
  rewrite (naturalLessLoop_segment digitTable fuel p d d r (r ++ t) v v)
    by assumption.
  rewrite (naturalLessLoop_segment digitTable fuel' p d d (r ++ t) r v v)
    by assumption.
  rewrite !Z.eqb_refl. cbn [negb].
  destruct r as [|c r'].
  { cbn [isEmpty orb]. rewrite orb_true_r. auto. }
  cbn [isEmpty orb append].
  assert (Er : endsWithDigit (String c r') = true).
  { rewrite <- E. symmetry.
    rewrite endsWithDigit_app by (destruct d; reflexivity).
    now rewrite endsWithDigit_app. }
  rewrite !length_append in *. cbn [String.length] in *.
  assert (Ld' : (1 <= String.length d)%nat)
    by (destruct d; [discriminate | cbn; lia]).
  apply (IH (String c r') t fuel fuel'); auto;
    try (cbn [String.length]; rewrite ?length_append; lia).
  rewrite length_append. cbn [String.length]. lia.
Qed.

End ProperPrefixes.

(** X14: the comparator is not asymmetric.  For every ASCII name that ends
    with a digit and has no run of more than 18 digits, and every ASCII
    text that does not start with a digit, the name is "less" than the
    name followed by the text, and the name followed by the text is
    "less" than the name. *)
Theorem naturalLess_both_ways (digitTable : Z -> bool) (s t : string) :
  allAscii s = true -> allAscii t = true ->
  runsWithin 18 0 s = true ->
  endsWithDigit s = true -> startsWithDigit t = false ->
  naturalLess digitTable s (s ++ t) = Returns true /\
  naturalLess digitTable (s ++ t) s = Returns true.
Proof.
  intros As At R E St. unfold naturalLess.
  apply (naturalLessLoop_extension digitTable (String.length s)); auto.
Qed.

Lemma naturalLess_both_ways_witness :
  naturalLess latin1Only "book_t.mp3" ("book_t.mp3" ++ "b.mp3") = Returns true /\
  naturalLess latin1Only ("book_t.mp3" ++ "b.mp3") "book_t.mp3" = Returns true.
Proof.
  apply (naturalLess_both_ways latin1Only "book_t.mp3" "b.mp3"); reflexivity.
Defined.

(** X15: when [strconv.Atoi] refuses the digit run of one of two ASCII
    names with the same text before the run, the comparator panics, and
    the message quotes the run of the first name, also when the run that
    was refused is the one of the second name. *)
Theorem naturalLess_panic_quotes_first_name (digitTable : Z -> bool)
        (p da db ra rb : string) (va : Z) (e : strconv.NumError) :
  allAscii p = true -> digitFree p = true ->
  allDigits da = true -> allDigits db = true ->
  isEmpty db = false ->
  strconv.Atoi da = inl va -> strconv.Atoi db = inr e ->
  allAscii ra = true -> allAscii rb = true ->
  startsWithDigit ra = false -> startsWithDigit rb = false ->
  naturalLess digitTable (p ++ da ++ ra) (p ++ db ++ rb) =
  Panics (cantConvert da) /\
  naturalLess digitTable (p ++ db ++ rb) (p ++ da ++ ra) =
  Panics (cantConvert db).
Proof.
  intros Ap Fp Da Db Nb Va Vb Ara Arb Sa Sb.
  pose proof (Atoi_nonempty da va Va) as Na. unfold naturalLess. split.
  - rewrite (naturalLessLoop_runs digitTable _ p da db ra rb) by assumption.
    now rewrite Va, Vb.
  - rewrite (naturalLessLoop_runs digitTable _ p db da rb ra) by assumption.
    now rewrite Vb.
Qed.

Lemma naturalLess_panic_quotes_first_name_witness :
  naturalLess latin1Only ("cd" ++ "1" ++ ".mp3") ("cd" ++ twentyNines ++ ".mp3") =
  Panics "Can't convert 1 to a number" /\
  naturalLess latin1Only ("cd" ++ twentyNines ++ ".mp3") ("cd" ++ "1" ++ ".mp3") =
  Panics "Can't convert 99999999999999999999 to a number".
Proof.
  apply (naturalLess_panic_quotes_first_name
           latin1Only "cd" "1" twentyNines ".mp3" ".mp3" 1 strconv.ErrRange);
    reflexivity.
Defined.

(** *** Digits outside ASCII *)

Lemma IndexFunc_head_true (c : ascii) (t : string) (f : Z -> bool)
      (r : Z) (n : nat) :
  utf8.DecodeRuneInString (String c t) = (r, n) ->
  f r = true ->
  strings.IndexFunc (String c t) f = 0.
Proof.
  intros D F. unfold strings.IndexFunc.
  cbn [String.length strings.indexFunc]. now rewrite D, F.
Qed.

Lemma decode_not_ascii (c : ascii) (t : string) (r : Z) (n : nat) :
  utf8.DecodeRuneInString (String c t) = (r, n) ->
  0x80 <= r -> 0x80 <= byteVal c.
Proof.
  unfold utf8.DecodeRuneInString. destruct (byteVal c <? 128) eqn:E.
  - intros H. injection H as <- _. apply Z.ltb_lt in E. lia.
  - intros _ _. apply Z.ltb_ge in E. lia.
Qed.

(** [strconv.Atoi] refuses a string whose first byte is not ASCII. *)
Lemma Atoi_not_ascii (c : ascii) (t : string) :
  0x80 <= byteVal c -> strconv.Atoi (String c t) = inr strconv.ErrSyntax.
Proof.
  intros H. unfold strconv.Atoi.
  assert (S1 : Ascii.eqb c "-" = false)
    by (apply Ascii.eqb_neq; intros ->; vm_compute in H; now apply H).
  assert (S2 : Ascii.eqb c "+" = false)
    by (apply Ascii.eqb_neq; intros ->; vm_compute in H; now apply H).
  rewrite S1, S2. cbn [orb strconv.parseDigits].
  destruct ((0 <=? byteVal c - 48) && (byteVal c - 48 <=? 9)) eqn:D;
    [|reflexivity].
  apply andb_true_iff in D. destruct D as [_ D]. apply Z.leb_le in D. lia.
Qed.

(** X16: [unicode.IsDigit] knows digits that [strconv.Atoi] does not: when
    the first name starts with a digit that is not ASCII and the second
    name starts with a digit, the comparator panics. *)
Theorem naturalLess_panics_on_other_digits (digitTable : Z -> bool)
        (cA cB : ascii) (tA tB : string) (rA rB : Z) (nA nB : nat) :
  utf8.DecodeRuneInString (String cA tA) = (rA, nA) ->
  utf8.DecodeRuneInString (String cB tB) = (rB, nB) ->
  0x80 <= rA ->
  IsDigit digitTable rA = true ->
  IsDigit digitTable rB = true ->
  exists run,
    naturalLess digitTable (String cA tA) (String cB tB) =
    Panics (cantConvert run).
Proof.
  intros DA DB Hr FA FB. unfold naturalLess.
  rewrite naturalLessLoop_round. cbv zeta.
  pose proof (IndexFunc_head_true cA tA _ rA nA DA FA) as PA.
  pose proof (IndexFunc_head_true cB tB _ rB nB DB FB) as PB.
  assert (NA : strings.IndexFunc (String cA tA) (IsDigit digitTable) <> -1)
    by (rewrite PA; discriminate).
  destruct (digit_start digitTable (String cA tA) NA) as (_ & Hq & _).
  cbv zeta in Hq. rewrite PA in Hq. rewrite PA, PB. cbn [Z.eqb].
  unfold sliceFrom in *. cbn [Z.to_nat drop] in *.
  unfold sliceTo. cbn [Z.to_nat take String.eqb negb].
  destruct (Z.to_nat (runEnd digitTable (String cA tA))) as [|q] eqn:Q; [lia|].
  cbn [take]. rewrite Atoi_not_ascii by exact (decode_not_ascii _ _ _ _ DA Hr).
  eexists. reflexivity.
Qed.

Lemma naturalLess_panics_on_other_digits_witness :
  exists run,
    naturalLess arabicIndicDigits (arabicIndicThree ++ ".mp3") "3.mp3" =
    Panics (cantConvert run).
Proof.
  apply (naturalLess_panics_on_other_digits arabicIndicDigits
           (ascii_of_nat 217) "3" (String (ascii_of_nat 163) ".mp3") ".mp3"
           0x663 0x33 2 1); vm_compute; reflexivity || discriminate.
Defined.

(** ** The sort of a small directory *)

Section InsertionSort.

Local Open Scope list_scope.

Context {E : Type}.
Variable cmp : E -> E -> outcome Z.

(** The elements the comparison is asked about: on them it returns, and it
    never says "below" in both directions. *)
Variable known : E -> Prop.
Hypothesis cmp_returns :
  forall x y, known x -> known y -> exists c, cmp x y = Returns c.
Hypothesis cmp_one_way :
  forall x y c c',
    known x -> known y ->
    cmp x y = Returns c -> cmp y x = Returns c' -> c < 0 -> 0 <= c'.

Lemma at_middle (l1 : list E) (x : E) (rest : list E) :
  slices.at_ (l1 ++ x :: rest) (List.length l1) = Returns x.
Proof.
  unfold slices.at_. rewrite nth_error_app2 by lia.
  now rewrite Nat.sub_diag.
Qed.

Lemma at_next (l1 : list E) (y x : E) (rest : list E) :
  slices.at_ (l1 ++ y :: x :: rest) (S (List.length l1)) = Returns x.
Proof.
  unfold slices.at_. rewrite nth_error_app2 by lia.
  replace (S (List.length l1) - List.length l1)%nat with 1%nat by lia.
  reflexivity.
Qed.

Lemma set_middle (l1 : list E) (a x : E) (rest : list E) :
  slices.set (l1 ++ a :: rest) (List.length l1) x = l1 ++ x :: rest.
Proof.
  unfold slices.set. rewrite firstn_app, firstn_all, Nat.sub_diag.
  cbn [firstn]. rewrite app_nil_r. f_equal. f_equal.
  rewrite skipn_app, skipn_all2 by lia.
  replace (S (List.length l1) - List.length l1)%nat with 1%nat by lia.
  reflexivity.
Qed.

Lemma swap_adjacent (l1 : list E) (y x : E) (rest : list E) :
  slices.swap (l1 ++ y :: x :: rest) (S (List.length l1)) (List.length l1) =
  Returns (l1 ++ x :: y :: rest).
Proof.
  unfold slices.swap. rewrite at_next, at_middle. cbn [bind]. f_equal.
  assert (L : S (List.length l1) = List.length (l1 ++ [y]))
    by (rewrite length_app; cbn; lia).
  replace (l1 ++ y :: x :: rest) with ((l1 ++ [y]) ++ x :: rest)
    by (rewrite <- app_assoc; reflexivity).
  rewrite L, set_middle, <- app_assoc. cbn [app].
  apply set_middle.
Qed.

Lemma isSortedFunc_tail (a : E) (l : list E) :
  isSortedFunc cmp (a :: l) = true -> isSortedFunc cmp l = true.
Proof.
  destruct l as [|b l]; [reflexivity|]. cbn [isSortedFunc].
  destruct (cmp b a) as [c| | |]; try discriminate.
  intros H. apply andb_true_iff in H. now destruct H.
Qed.

Lemma isSortedFunc_app (l1 : list E) (y : E) (l2 : list E) :
  isSortedFunc cmp (l1 ++ y :: l2) =
  isSortedFunc cmp (l1 ++ [y]) && isSortedFunc cmp (y :: l2).
Proof.
  induction l1 as [|a l1 IH].
  - cbn [app]. destruct l2; reflexivity.
  - destruct l1 as [|b l1].
    + cbn [app isSortedFunc]. destruct (cmp y a) as [c| | |]; try reflexivity.
      now rewrite andb_true_r.
    + cbn [app] in *.
      change (isSortedFunc cmp (a :: b :: (l1 ++ y :: l2)%list))
        with (match cmp b a with
              | Returns c => (0 <=? c) && isSortedFunc cmp (b :: (l1 ++ y :: l2)%list)
              | _ => false
              end).
      change (isSortedFunc cmp (a :: b :: (l1 ++ [y])%list))
        with (match cmp b a with
              | Returns c => (0 <=? c) && isSortedFunc cmp (b :: (l1 ++ [y])%list)
              | _ => false
              end).
      rewrite IH. destruct (cmp b a) as [c| | |]; try reflexivity.
      now rewrite andb_assoc.
Qed.

(** The inner loop of the insertion sort: the element at the index
    [List.length l1] goes down through [l1] to its place. *)
Lemma insertDown_sorted (l1 : list E) :
  forall x l2 post,
    Forall known l1 -> known x ->
    isSortedFunc cmp (l1 ++ l2) = true ->
    isSortedFunc cmp (x :: l2) = true ->
    exists m1 m2,
      l1 = (m1 ++ m2)%list /\
      slices.insertDown cmp 0 (List.length l1) (l1 ++ x :: l2 ++ post) =
      Returns (m1 ++ x :: m2 ++ l2 ++ post) /\
      isSortedFunc cmp (m1 ++ x :: m2 ++ l2) = true.
Proof.
  induction l1 as [|y l1 IH] using rev_ind; intros x l2 post K Kx S1 S2.
  - exists [], []. cbn. auto.
  - apply Forall_app in K. destruct K as [K Ky].
    apply Forall_inv in Ky.
    rewrite length_app. cbn [List.length]. rewrite Nat.add_1_r.
    cbn [slices.insertDown]. cbn [Nat.ltb Nat.leb].
    rewrite <- app_assoc. cbn [app].
    unfold slices.less. rewrite at_next, at_middle. cbn [bind].
    destruct (cmp_returns x y Kx Ky) as [c Hc]. rewrite Hc. cbn [bind].
    rewrite <- app_assoc in S1. cbn [app] in S1.
    destruct (c <? 0) eqn:Lt.
    + apply Z.ltb_lt in Lt. rewrite swap_adjacent. cbn [bind].
      destruct (cmp_returns y x Ky Kx) as [c' Hc'].
      pose proof (cmp_one_way x y c c' Kx Ky Hc Hc' Lt) as Ge.
      assert (S3 : isSortedFunc cmp (x :: y :: l2) = true).
      { cbn [isSortedFunc]. rewrite Hc'. apply andb_true_iff. split.
        - now apply Z.leb_le.
        - rewrite isSortedFunc_app in S1. apply andb_true_iff in S1.
          now destruct S1. }
      destruct (IH x (y :: l2) post K Kx S1 S3) as (m1 & m2 & -> & R & S4).
      exists m1, (m2 ++ [y])%list. split; [now rewrite app_assoc|].
      split.
      * cbn [app] in R. rewrite R. rewrite <- !app_assoc. reflexivity.
      * rewrite <- app_assoc. exact S4.
    + apply Z.ltb_ge in Lt.
      exists (l1 ++ [y])%list, []. split; [now rewrite app_nil_r|].
      split; [rewrite <- app_assoc; reflexivity|].
      rewrite <- app_assoc. cbn [app].
      rewrite isSortedFunc_app. apply andb_true_iff. split.
      * rewrite isSortedFunc_app in S1. apply andb_true_iff in S1.
        now destruct S1.
      * cbn [isSortedFunc]. rewrite Hc. apply andb_true_iff. split.
        -- now apply Z.leb_le.
        -- exact S2.
Qed.

(** The outer loop: with the first [List.length pre] elements in order,
    it puts the others in, one after the other. *)
Lemma insertionLoop_sorted (rest : list E) :
  forall pre,
    Forall known pre -> Forall known rest ->
    isSortedFunc cmp pre = true ->
    exists out,
      slices.insertionLoop cmp (List.length rest) 0 (List.length pre)
                           (pre ++ rest) = Returns out /\
      isSortedFunc cmp out = true.
Proof.
  induction rest as [|x rest IH]; intros pre Kp Kr S.
  - exists pre. cbn. rewrite app_nil_r. auto.
  - apply Forall_cons_iff in Kr. destruct Kr as [Kx Kr].
    cbn [List.length slices.insertionLoop].
    rewrite <- (app_nil_r pre) in S.
    destruct (insertDown_sorted pre x [] rest Kp Kx S eq_refl)
      as (m1 & m2 & -> & R & S').
    cbn [app] in R. rewrite R. cbn [bind].
    rewrite app_nil_r in S'.
    assert (K' : Forall known (m1 ++ x :: m2)).
    { apply Forall_app in Kp. destruct Kp as [K1 K2].
      apply Forall_app. split; [exact K1|]. now constructor. }
    destruct (IH (m1 ++ x :: m2)%list K' Kr S') as (out & Rout & Sout).
    exists out. split; [|exact Sout].
    rewrite <- Rout. f_equal.
    + rewrite !length_app. cbn [List.length]. lia.
    + rewrite <- app_assoc. reflexivity.
Qed.

(** [insertionSortCmpFunc] on a whole slice. *)
Lemma insertionSort_sorted (data : list E) :
  Forall known data ->
  exists out,
    slices.insertionSortCmpFunc cmp data 0 (List.length data) = Returns out /\
    isSortedFunc cmp out = true.
Proof.
  intros K. unfold slices.insertionSortCmpFunc.
  destruct data as [|x rest].
  - exists []. auto.
  - apply Forall_cons_iff in K. destruct K as [Kx Kr].
    cbn [List.length]. replace (S (List.length rest) - (0 + 1))%nat
      with (List.length rest) by lia.
    apply (insertionLoop_sorted rest [x]); auto.
Qed.

(** A slice of at most twenty elements is sorted by one insertion sort. *)
Lemma SortStableFunc_small (data : list E) :
  (List.length data <= 20)%nat ->
  slices.SortStableFunc cmp data =
  slices.insertionSortCmpFunc cmp data 0 (List.length data).
Proof.
  intros L. unfold slices.SortStableFunc, slices.stableCmpFunc.
  set (n := List.length data) in *.
  assert (M : forall d, slices.mergeBlocks cmp (S n) 20 n d = Returns d).
  { intros d. cbn [slices.mergeBlocks].
    destruct (Nat.ltb_spec 20 n); [lia | reflexivity]. }
  cbn [slices.sortBlocks]. destruct (Nat.leb_spec 20 n) as [G|G].
  - assert (n = 20)%nat as N by lia. clearbody n. subst n.
    cbn [slices.sortBlocks Nat.leb Nat.add].
    unfold slices.insertionSortCmpFunc at 2. cbn [Nat.sub Nat.add slices.insertionLoop].
    destruct (slices.insertionSortCmpFunc cmp data 0 20) as [d| | |];
      cbn [bind]; reflexivity.
  - destruct (slices.insertionSortCmpFunc cmp data 0 n) as [d| | |];
      cbn [bind]; try reflexivity.
    apply M.
Qed.

End InsertionSort.

Lemma fileRecord_eqb_eq (a b : fileRecord) :
  fileRecord_eqb a b = true <-> a = b.
Proof.
  unfold fileRecord_eqb. rewrite andb_true_iff, !String.eqb_eq.
  destruct a as [pa na], b as [pb nb]. cbn. split.
  - intros [-> ->]. reflexivity.
  - intros H. injection H as -> ->. auto.
Qed.

(** X17: a directory of at most twenty records, on whose names the
    comparator always returns and never answers "less" in both directions
    for two different records, is sorted: the sort returns a rearrangement
    of the records in which no record compares below the one before
    it. *)
Theorem sortFileRecords_orders_small_directories (digitTable : Z -> bool)
        (records : list fileRecord) :
  (List.length records <= 20)%nat ->
  (forall a b, In a records -> In b records ->
               exists lt, naturalLess digitTable (name a) (name b) = Returns lt) ->
  (forall a b, In a records -> In b records -> a <> b ->
               naturalLess digitTable (name a) (name b) = Returns true ->
               naturalLess digitTable (name b) (name a) = Returns false) ->
  exists sorted,
    sortFileRecords digitTable records = Returns sorted /\
    Permutation records sorted /\
    isSortedFunc (compareRecords digitTable) sorted = true.
Proof.
  intros L Hret Hasym.
  assert (R : forall x y, In x records -> In y records ->
                          exists c, compareRecords digitTable x y = Returns c).
  { intros x y Kx Ky. unfold compareRecords.
    destruct (fileRecord_eqb x y); [now exists 0|].
    destruct (Hret x y Kx Ky) as [lt ->]. cbn [bind].
    destruct lt; [now exists (-1) | now exists 1]. }
  assert (A : forall x y c c', In x records -> In y records ->
                compareRecords digitTable x y = Returns c ->
                compareRecords digitTable y x = Returns c' -> c < 0 -> 0 <= c').
  { intros x y c c' Kx Ky. unfold compareRecords.
    destruct (fileRecord_eqb x y) eqn:Exy.
    { intros H. injection H as <-. lia. }
    destruct (fileRecord_eqb y x) eqn:Eyx.
    { intros _ H. injection H as <-. lia. }
    assert (N : x <> y).
    { intros ->. assert (fileRecord_eqb y y = true) by now apply fileRecord_eqb_eq.
      congruence. }
    destruct (Hret x y Kx Ky) as [lt Hlt]. rewrite Hlt. cbn [bind].
    destruct lt.
    - rewrite (Hasym x y Kx Ky N Hlt). cbn [bind].
      intros _ H _. injection H as <-. lia.
    - intros H. injection H as <-. lia. }
  unfold sortFileRecords.
  destruct (insertionSort_sorted (compareRecords digitTable)
              (fun r => In r records) R A records) as (out & Hout & Sout).
  { apply Forall_forall. auto. }
  exists out. rewrite SortStableFunc_small by exact L.
  split; [exact Hout|]. split; [|exact Sout].
  apply (SortStableFunc_permutation (compareRecords digitTable)).
  now rewrite SortStableFunc_small by exact L.
Qed.

Lemma sortFileRecords_orders_small_directories_witness :
  sortFileRecords latin1Only
    [recordOf "d" "b10.mp3"; recordOf "d" "b9.mp3"; recordOf "d" "a.mp3"] =
  Returns [recordOf "d" "a.mp3"; recordOf "d" "b9.mp3"; recordOf "d" "b10.mp3"] /\
  exists sorted,
    sortFileRecords latin1Only
      [recordOf "d" "b10.mp3"; recordOf "d" "b9.mp3"; recordOf "d" "a.mp3"] =
    Returns sorted /\
    Permutation
      [recordOf "d" "b10.mp3"; recordOf "d" "b9.mp3"; recordOf "d" "a.mp3"]
      sorted /\
    isSortedFunc (compareRecords latin1Only) sorted = true.
Proof.
  split; [vm_compute; reflexivity|].
  apply (sortFileRecords_orders_small_directories latin1Only).
  - cbn. lia.
  - intros a b [<-|[<-|[<-|[]]]] [<-|[<-|[<-|[]]]];
      eexists; vm_compute; reflexivity.
  - intros a b [<-|[<-|[<-|[]]]] [<-|[<-|[<-|[]]]] N H;
      try (exfalso; apply N; reflexivity);
      try (vm_compute in H; discriminate H);
      vm_compute; reflexivity.
Defined.

(** X18: whatever the comparator answers, and however many records there
    are, a sort that returns has rearranged the records: none is lost and
    none is repeated. *)
Theorem sortFileRecords_rearranges (digitTable : Z -> bool)
        (records sorted : list fileRecord) :
  sortFileRecords digitTable records = Returns sorted ->
  Permutation records sorted /\
  List.length sorted = List.length records /\
  (forall r, In r sorted <-> In r records).
Proof.
  intros H.
  pose proof (SortStableFunc_permutation (compareRecords digitTable) _ _ H) as P.
  split; [exact P|]. split.
  - symmetry. now apply Permutation_length.
  - intros r. split; intros Hin.
    + apply (Permutation_in r (Permutation_sym P) Hin).
    + apply (Permutation_in r P Hin).
Qed.

Lemma sortFileRecords_rearranges_witness :
  sortFileRecords latin1Only
    [recordOf "d" "t.mp3"; recordOf "d" "t.mp3b.mp3"] =
  Returns [recordOf "d" "t.mp3b.mp3"; recordOf "d" "t.mp3"] /\
  Permutation [recordOf "d" "t.mp3"; recordOf "d" "t.mp3b.mp3"]
              [recordOf "d" "t.mp3b.mp3"; recordOf "d" "t.mp3"].
Proof.
  split; [vm_compute; reflexivity|].
  apply (sortFileRecords_rearranges latin1Only
           [recordOf "d" "t.mp3"; recordOf "d" "t.mp3b.mp3"]
           [recordOf "d" "t.mp3b.mp3"; recordOf "d" "t.mp3"]).
  vm_compute. reflexivity.
Defined.

(** ** The flag [-sauce] *)

Lemma foldFiles_app {S : Type} (step : string -> S -> S * option error)
      (p q : list string) (st : S) :
  foldFiles step (p ++ q) st =
  match foldFiles step p st with
  | (st', Some e) => (st', Some e)
  | (st', None) => foldFiles step q st'
  end.
Proof.
  revert st; induction p as [|x p IH]; intros st; [reflexivity|].
  cbn [app foldFiles]. destruct (step x st) as [st' [e|]]; [reflexivity|].
  apply IH.
Qed.

Section FileWalk.

Context {S : Type}.
Variable fn : fs.WalkDirFunc S.
Variable step : string -> S -> S * option error.

Hypothesis fn_dir :
  forall name dname st,
    fn name (Some {| fs.Name := dname; fs.IsDir := true |}) None st = (st, None).
Hypothesis fn_file :
  forall name dname st,
    fn name (Some {| fs.Name := dname; fs.IsDir := false |}) None st =
    step name st.
Hypothesis step_no_skip :
  forall name st st' e,
    step name st = (st', Some e) -> fs.isSkipDir e = false.

Lemma foldFiles_no_skip (paths : list string) :
  forall st st' e,
    foldFiles step paths st = (st', Some e) -> fs.isSkipDir e = false.
Proof.
  induction paths as [|p rest IH]; intros st st' e; [discriminate|].
  cbn [foldFiles]. destruct (step p st) as [st1 [e1|]] eqn:E.
  - intros H. injection H as _ <-. exact (step_no_skip _ _ _ _ E).
  - apply IH.
Qed.

(** A callback that does nothing for a directory and never asks to skip:
    on a tree that can be read, the walk does the step of the callback for
    the entries that are not directories, in order, up to the first
    error. *)
Lemma walkDir_files (n : fs.node) :
  forall name dname st,
    readable n = true ->
    fs.walkDir fn name dname n st = foldFiles step (files name n) st.
Proof.
  induction n as [|entries readErr IH] using node_induction;
    intros name dname st R.
  - cbn [fs.walkDir fs.isDir files foldFiles]. rewrite fn_file.
    destruct (step name st) as [st' [e|]]; [|reflexivity].
    cbn [fs.IsDir]. now rewrite andb_false_r.
  - cbn [fs.walkDir fs.isDir files]. rewrite fn_dir.
    cbn [readable] in R. destruct readErr as [e|]; [discriminate|].
    revert st R.
    induction IH as [|[name1 n1] rest H1 _ IHrest]; intros st R.
    + reflexivity.
    + apply andb_true_iff in R. destruct R as [R1 R2]. cbn [snd] in H1.
      rewrite H1 by exact R1. rewrite foldFiles_app.
      destruct (foldFiles step (files (filepath.Join [name; name1]) n1) st)
        as [st' [e|]] eqn:F.
      * now rewrite (foldFiles_no_skip _ _ _ _ F).
      * apply IHrest. exact R2.
Qed.

End FileWalk.

Lemma printOne_error (c : console) (path out out' : string) (e : error) :
  printOne c path out = (out', Some e) -> exists cause, e = SysError cause.
Proof.
  unfold printOne. destruct (ReadFile c path) as [data|errFile].
  - destruct (write c _ data) as [o [errWrite|]]; [|discriminate].
    intros H. injection H as _ <-. now exists errWrite.
  - intros H. injection H as _ <-. now exists errFile.
Qed.

Lemma foldFiles_printOne_error (c : console) (paths : list string) :
  forall out out' e,
    foldFiles (printOne c) paths out = (out', Some e) ->
    exists cause, e = SysError cause.
Proof.
  induction paths as [|p rest IH]; intros out out' e; [discriminate|].
  cbn [foldFiles]. destruct (printOne c p out) as [o [e1|]] eqn:E.
  - intros H. injection H as _ <-. exact (printOne_error _ _ _ _ _ E).
  - apply IH.
Qed.

(** On a source tree that can be read, [sauce] prints the entries that are
    not directories, in the order of the walk, up to the first error. *)
Lemma sauce_files (c : console) (root : fs.node) :
  readable root = true ->
  sauce c (fs.Root root) = foldFiles (printOne c) (files "." root) EmptyString.
Proof.
  intros R. unfold sauce, fs.WalkDir.
  rewrite (walkDir_files (printFile c) (printOne c)); auto.
  - destruct (foldFiles _ _ _) as [out [e|]] eqn:F; [|reflexivity].
    destruct (foldFiles_printOne_error _ _ _ _ _ F) as [cause ->]. reflexivity.
  - intros name st st' e H. destruct (printOne_error _ _ _ _ _ H) as [cause ->].
    reflexivity.
Qed.

Lemma concat_banner_app (l : list string) (a b : string) :
  a ++ String.concat "" (b :: l) = (a ++ b) ++ String.concat "" l.
Proof.
  rewrite append_assoc. f_equal. destruct l as [|x l]; cbn.
  - now rewrite append_empty_r.
  - reflexivity.
Qed.

Lemma printOne_all (c : console) (p out data : string) :
  (forall out data, StdoutWrite c out data = None) ->
  ReadFile c p = inl data ->
  printOne c p out = ((out ++ banner p) ++ data, None).
Proof.
  intros W Hd. unfold printOne, write. rewrite W. cbn [fst].
  rewrite Hd, W. reflexivity.
Qed.

(** When no write fails and every file is read, all the files are printed. *)
Lemma foldFiles_printOne_all (c : console) (paths : list string) :
  (forall out data, StdoutWrite c out data = None) ->
  (forall p, In p paths -> exists data, ReadFile c p = inl data) ->
  forall out,
    foldFiles (printOne c) paths out =
    (out ++ String.concat ""
              (map (fun p => banner p ++ contentOf c p) paths), None).
Proof.
  intros W. induction paths as [|p rest IH]; intros Rd out.
  - cbn. now rewrite append_empty_r.
  - cbn [foldFiles map]. destruct (Rd p (or_introl eq_refl)) as [data Hd].
    rewrite (printOne_all c p out data W Hd).
    rewrite IH by (intros q Hq; apply Rd; now right).
    unfold contentOf at 2. rewrite Hd.
    rewrite concat_banner_app, !append_assoc. reflexivity.
Qed.

(** X19: on a source tree that can be read, [sauce] prints, for every
    entry of the tree that is not a directory and in the order of the walk,
    a banner with the path and then the bytes of the file, and stops at the
    first file whose reading or writing fails; when nothing fails, the
    output is the banners and the files, one after the other, and there is
    no panic. *)
Theorem sauce_prints_every_file (c : console) (root : fs.node) :
  readable root = true ->
  sauce c (fs.Root root) =
  foldFiles (printOne c) (files "." root) EmptyString /\
  ((forall out data, StdoutWrite c out data = None) ->
   (forall p, In p (files "." root) -> exists data, ReadFile c p = inl data) ->
   sauce c (fs.Root root) =
   (String.concat "" (map (fun p => banner p ++ contentOf c p) (files "." root)),
    None)).
Proof.
  intros R. split; [now apply sauce_files|].
  intros W Rd. rewrite (sauce_files c root R).
  now rewrite (foldFiles_printOne_all c _ W Rd).
Qed.

Lemma sauce_prints_every_file_witness :
  readable book = true /\
  sauce (quietConsole (fun path => "<" ++ path ++ ">")) (fs.Root book) =
  (banner "cover.jpg" ++ "<cover.jpg>" ++
   banner "disc1/track01.mp3" ++ "<disc1/track01.mp3>" ++
   banner "disc1/track02.mp3" ++ "<disc1/track02.mp3>" ++
   banner "intro.mp3" ++ "<intro.mp3>", None).
Proof.
  split; [reflexivity|].
  apply (proj2 (sauce_prints_every_file
                  (quietConsole (fun path => "<" ++ path ++ ">")) book eq_refl)).
  - reflexivity.
  - intros p _. eexists. reflexivity.
Defined.



(** ** The paths of the walk *)

Lemma simpleName_spec (e : string) :
  simpleName e = true ->
  isEmpty e = false /\
  strings.ContainsByte e filepath.Separator = false /\
  e <> "." /\ e <> "..".
Proof.
  unfold simpleName. intros H.
  apply andb_true_iff in H. destruct H as [H H4].
  apply andb_true_iff in H. destruct H as [H H3].
  apply andb_true_iff in H. destruct H as [H1 H2].
  apply negb_true_iff in H1, H2, H3, H4.
  apply String.eqb_neq in H3, H4. auto.
Qed.

Lemma splitElement_app (e rest : string) :
  strings.ContainsByte e filepath.Separator = false ->
  filepath.endsElement rest = true ->
  filepath.splitElement (e ++ rest) = (e, rest).
Proof.
  intros N R. induction e as [|c t IH].
  - cbn [append]. destruct rest as [|r0 rt]; [reflexivity|].
    cbn in R. cbn [filepath.splitElement]. now rewrite R.
  - cbn [strings.ContainsByte] in N. apply orb_false_iff in N.
    destruct N as [N1 N2]. cbn [append filepath.splitElement].
    unfold filepath.isSep. rewrite N1, (IH N2). reflexivity.
Qed.

Lemma endsElement_app (t rest : string) :
  isEmpty t = false ->
  strings.ContainsByte t filepath.Separator = false ->
  filepath.endsElement (t ++ rest) = false.
Proof.
  destruct t as [|c t']; [discriminate|]. intros _ N.
  cbn [strings.ContainsByte] in N. apply orb_false_iff in N.
  now destruct N.
Qed.

(** One round of the loop of [Clean] on a name as [ReadDir] gives it: the
    name is copied to the output, after a separator when the output is not
    empty. *)
Lemma cleanLoop_name (fuel : nat) (e rest out : string) :
  simpleName e = true ->
  filepath.endsElement rest = true ->
  filepath.cleanLoop (S fuel) false (e ++ rest) out 0 =
  filepath.cleanLoop fuel false rest
    ((if isEmpty out then out else out ++ "/") ++ e) 0.
Proof.
  intros Se R. destruct (simpleName_spec e Se) as (Ne & N & Nd & Ndd).
  destruct e as [|c t]; [discriminate|].
  pose proof N as N0.
  cbn [strings.ContainsByte] in N. apply orb_false_iff in N.
  destruct N as [N1 N2].
  assert (S1 : filepath.isSep c = false) by exact N1.
  cbn [append filepath.cleanLoop]. rewrite S1.
  assert (Real :
    (let w := String.length out in
     let out0 :=
       if (false && negb (w =? 1)%nat) || (negb false && negb (w =? 0)%nat)
       then out ++ String filepath.Separator EmptyString else out in
     let '(e0, rest0) := filepath.splitElement (String c (t ++ rest)) in
     filepath.cleanLoop fuel false rest0 (out0 ++ e0) 0) =
    filepath.cleanLoop fuel false rest
      ((if isEmpty out then out else out ++ "/") ++ String c t) 0).
  { cbv zeta. change (String c (t ++ rest)) with (String c t ++ rest).
    rewrite (splitElement_app (String c t) rest N0 R).
    cbn [andb negb orb]. rewrite isEmpty_length.
    destruct (String.length out =? 0)%nat; reflexivity. }
  destruct (Ascii.eqb c ".") eqn:Dot; cbn [andb]; [|exact Real].
  apply Ascii.eqb_eq in Dot. subst c.
  destruct t as [|c' t']; [congruence|].
  rewrite (endsElement_app (String c' t') rest eq_refl N2).
  cbn [append].
  destruct (Ascii.eqb c' ".") eqn:Dot'; cbn [andb]; [|exact Real].
  apply Ascii.eqb_eq in Dot'. subst c'.
  destruct t' as [|c'' t'']; [congruence|].
  cbn [strings.ContainsByte] in N2. apply orb_false_iff in N2.
  destruct N2 as [_ N3].
  rewrite (endsElement_app (String c'' t'') rest eq_refl N3).
  exact Real.
Qed.

Lemma length_joined (e : string) (es : list string) :
  (String.length e <= String.length (joined e es))%nat.
Proof.
  destruct es; cbn [joined]; [lia|]. rewrite length_append. lia.
Qed.

(** The loop of [Clean] on a path made of such names copies the path. *)
Lemma cleanLoop_joined (es : list string) :
  forall e out fuel,
    simpleName e = true -> Forall (fun x => simpleName x = true) es ->
    (String.length (joined e es) <= fuel)%nat ->
    filepath.cleanLoop fuel false (joined e es) out 0 =
    (if isEmpty out then out else out ++ "/") ++ joined e es.
Proof.
  induction es as [|e1 es IH]; intros e out fuel Se Ses L.
  - cbn [joined] in *. destruct (simpleName_spec e Se) as (Ne & _).
    destruct fuel as [|fuel]; [destruct e; [discriminate | cbn in L; lia]|].
    rewrite <- (append_empty_r e) at 1.
    rewrite (cleanLoop_name fuel e EmptyString out Se eq_refl).
    apply cleanLoop_done.
  - apply Forall_cons_iff in Ses. destruct Ses as [Se1 Ses].
    cbn [joined] in *. destruct (simpleName_spec e Se) as (Ne & _).
    rewrite length_append in L. cbn [append String.length] in L.
    destruct fuel as [|fuel]; [destruct e; [discriminate | cbn in L; lia]|].
    rewrite (cleanLoop_name fuel e ("/" ++ joined e1 es) out Se eq_refl).
    destruct fuel as [|fuel]; [destruct e; [discriminate | cbn in L; lia]|].
    cbn [append]. cbn [filepath.cleanLoop].
    replace (filepath.isSep "/") with true by reflexivity.
    rewrite (IH e1 _ fuel Se1 Ses).
    + assert (Hne : isEmpty ((if isEmpty out then out else out ++ "/") ++ e) = false).
      { destruct e; [discriminate|]. destruct (isEmpty out), out; reflexivity. }
      rewrite Hne. rewrite !append_assoc. reflexivity.
    + destruct e; [discriminate|]. cbn [String.length] in L. lia.
Qed.

(** [Clean] leaves a path made of such names as it is, and takes the
    ["./"] off in front of it. *)
Lemma Clean_joined (e : string) (es : list string) :
  simpleName e = true -> Forall (fun x => simpleName x = true) es ->
  filepath.Clean (joined e es) = joined e es /\
  filepath.Clean ("./" ++ joined e es) = joined e es.
Proof.
  intros Se Ses. destruct (simpleName_spec e Se) as (Ne & N & _).
  assert (Hj : isEmpty (joined e es) = false).
  { destruct e; [discriminate|]. now destruct es. }
  split.
  - assert (Hc : exists c t, joined e es = String c t /\ filepath.isSep c = false).
    { destruct e as [|c0 t0]; [discriminate|].
      cbn [strings.ContainsByte] in N. apply orb_false_iff in N.
      destruct N as [N1 _]. destruct es; cbn [joined append]; eauto. }
    destruct Hc as (c & t & J & Hc).
    pose proof (cleanLoop_joined es e EmptyString (String.length (joined e es))
                  Se Ses (Nat.le_refl _)) as CL.
    cbn [isEmpty append] in CL. rewrite J in *.
    unfold filepath.Clean. rewrite Hc, CL. reflexivity.
  - assert (Two : forall j,
               filepath.Clean ("./" ++ j) =
               let out := filepath.cleanLoop (String.length j) false j EmptyString 0 in
               if isEmpty out then "." else out) by reflexivity.
    rewrite Two. cbv zeta.
    rewrite (cleanLoop_joined es e EmptyString) by (auto; lia).
    cbn [isEmpty append]. now rewrite Hj.
Qed.

Lemma joined_snoc (e : string) (es : list string) (x : string) :
  joined e (es ++ [x]) = joined e es ++ "/" ++ x.
Proof.
  revert e; induction es as [|e1 es IH]; intros e; [reflexivity|].
  cbn [app joined]. rewrite IH, !append_assoc. reflexivity.
Qed.

Lemma joined_not_dot (e : string) (es : list string) :
  simpleName e = true -> String.eqb (joined e es) "." = false.
Proof.
  intros Se. destruct (simpleName_spec e Se) as (Ne & _ & Nd & _).
  apply String.eqb_neq. destruct es as [|e1 es]; cbn [joined]; [exact Nd|].
  destruct e as [|c [|c' t]]; cbn; try discriminate.
Qed.

(** The path [fs.WalkDir] gives to an entry: the path of its directory, a
    separator and its name; and its name alone in the root. *)
Lemma Join_child (name name1 : string) :
  simpleName name1 = true ->
  (name = "." \/
   exists e es, simpleName e = true /\
                Forall (fun x => simpleName x = true) es /\
                name = joined e es) ->
  filepath.Join [name; name1] = child name name1 /\
  exists e es, simpleName e = true /\
               Forall (fun x => simpleName x = true) es /\
               child name name1 = joined e es.
Proof.
  intros S1 [->|(e & es & Se & Ses & ->)].
  - split.
    + destruct (Clean_joined name1 [] S1 (Forall_nil _)) as [_ C]. exact C.
    + exists name1, []. auto.
  - assert (F : Forall (fun x => simpleName x = true) (es ++ [name1]))
      by (apply Forall_app; auto).
    unfold child. rewrite (joined_not_dot e es Se). split.
    + destruct (Clean_joined e (es ++ [name1]) Se F) as [C _].
      rewrite joined_snoc in C.
      assert (Hj : isEmpty (joined e es) = false).
      { destruct (simpleName_spec e Se) as (Ne & _).
        destruct e; [discriminate|]. now destruct es. }
      cbn [filepath.Join]. rewrite Hj. exact C.
    + exists e, (es ++ [name1])%list. rewrite joined_snoc. auto.
Qed.

Lemma files_pathsBelow (n : fs.node) :
  forall name,
    wellNamed n = true ->
    (name = "." \/
     exists e es, simpleName e = true /\
                  Forall (fun x => simpleName x = true) es /\
                  name = joined e es) ->
    files name n = pathsBelow name n.
Proof.
  induction n as [|entries readErr IH] using node_induction; intros name W P;
    [reflexivity|].
  cbn [files pathsBelow wellNamed] in *.
  induction IH as [|[name1 n1] rest H1 _ IHrest]; [reflexivity|].
  apply andb_true_iff in W. destruct W as [W W3].
  apply andb_true_iff in W. destruct W as [W1 W2].
  destruct (Join_child name name1 W1 P) as [J C].
  cbn [snd] in H1. rewrite J, (H1 _ W2 (or_intror C)), (IHrest W3).
  reflexivity.
Qed.

(** X21: in a tree whose entries have names as [ReadDir] gives them (not
    empty, without separator, neither ["."] nor [".."]), the paths the walk
    hands to the patterns are the names from the root down with a
    separator between them: the path of an entry of the walked directory
    is its name, with no ["./"] in front.  So the discovery in such a
    tree, when all its directories can be read, answers the records of the
    paths written this way that match. *)
Theorem walk_paths_are_joined_names (dir : string) (fileGlobs : list string)
        (root : fs.node) :
  wellNamed root = true ->
  files "." root = pathsBelow "." root /\
  (firstReadErr root = None ->
   searchRecords dir (fs.Root root) fileGlobs =
   match recordsOf dir fileGlobs (pathsBelow "." root) with
   | [] => Err errNoFilesFound
   | found => Ok found
   end).
Proof.
  intros W.
  assert (F : files "." root = pathsBelow "." root)
    by (apply files_pathsBelow; auto).
  split; [exact F|]. intros R. rewrite <- F.
  assert (Rd : readable root = true).
  { clear - R. induction root as [|entries readErr IH] using node_induction;
      [reflexivity|].
    cbn [firstReadErr readable] in *. destruct readErr; [discriminate|].
    induction IH as [|[name1 n1] rest H1 _ IHrest]; [reflexivity|].
    cbn [snd] in H1. destruct (firstReadErr n1); [discriminate|].
    rewrite (H1 eq_refl). now apply IHrest. }
  pose proof (searchRecords_spec dir (fs.Root root) fileGlobs) as S.
  cbn in S. now rewrite Rd in S.
Qed.

Lemma walk_paths_are_joined_names_witness :
  wellNamed book = true /\
  pathsBelow "." book =
  ["cover.jpg"; "disc1/track01.mp3"; "disc1/track02.mp3"; "intro.mp3"] /\
  files "." book = pathsBelow "." book.
Proof.
  split; [reflexivity|]. split; [reflexivity|].
  apply (proj1 (walk_paths_are_joined_names "book1" ["*.mp3"] book eq_refl)).
Defined.
